(** * alert-pcap: the flow-keyed capture-file cache of [src/alert-pcap.c]

    A shallow embedding of the AlertPcap output module and the properties
    of its capture-file cache: lookup or creation of the per-flow pcap
    file, the flush of the flow's TimeMachine packets, the idle sweep and
    the teardown.

    Conventions.
    - Pointers are addresses ([addr]); [NULL] is [None].  The blocks of
      [AlertPcapFile] live in the store [files], the flows in [flows].
    - The [TAILQ] of open files is the list of the addresses of its
      elements, head first.
    - A dereference of [NULL] or of a pointer to no live block is undefined
      behaviour; the functions below return [None] there.
    - Calls into libpcap, the file system and the lock primitives are
      recorded in order in [trace].
    - Integer widths are those of an LP64 platform: [uint32_t] values wrap
      modulo [2^32]; [time_t] is a signed 64-bit integer whose overflow is
      undefined, so seconds are subtracted in [Z]. *)

From Stdlib Require Import ZArith String Ascii DecimalString.
From Stdlib.Strings Require Import Byte.
From stdpp Require Import gmap strings list fin_maps sorting.

Local Open Scope Z_scope.

(** ** Machine integers and C strings *)

Definition wrap32 (z : Z) : Z := z mod 2 ^ 32.

Definition PATH_MAX : Z := 4096.
Definition EEXIST : Z := 17.
Definition IPPROTO_ICMP : Z := 1.
Definition DEFAULT_DIRECTORY_NAME : string := "alert".
Definition DEFAULT_FILE_TIMEOUT : Z := 300.

(** [strcmp]: only the sign of the result is specified. *)
Definition strcmp (a b : string) : Z :=
  match String.compare a b with
  | Eq => 0
  | Lt => -1
  | Gt => 1
  end.

Definition strlen (s : string) : Z := Z.of_nat (String.length s).

(** [snprintf(buf, size, fmt, ...)]: [formatted] is the expansion of the
    format; with [size = 0] nothing is written and [buf] keeps its
    contents, otherwise at most [size - 1] characters are stored. *)
Definition snprintf (buf : string) (size : Z) (formatted : string) : string :=
  if size =? 0 then buf
  else String.substring 0 (Z.to_nat (size - 1)) formatted.

(** [strlcpy(dst, src, size)] with [size > 0]. *)
Definition strlcpy (size : Z) (src : string) : string :=
  String.substring 0 (Z.to_nat (size - 1)) src.

(** ["%u"], ["%hu"]: decimal digits of an unsigned value. *)
Definition fmt_u (z : Z) : string :=
  NilZero.string_of_uint (N.to_uint (Z.to_N z)).

(** ["%03u"]: decimal, padded with zeros to three digits. *)
Definition fmt_03u (z : Z) : string :=
  let d := fmt_u z in
  match String.length d with
  | 1%nat => "00" +:+ d
  | 2%nat => "0" +:+ d
  | _ => d
  end.

(** ["%.10s"]. *)
Definition fmt_prec10 (s : string) : string := String.substring 0 10 s.

(** ** Data model *)

Definition addr := positive.
Definition handle := positive.

Record timeval := { tv_sec : Z; tv_usec : Z }.

Record pcap_pkthdr := { hdr_ts : timeval; caplen : Z; len : Z }.

(** [struct AlertPcapFile_]; the [TAILQ_ENTRY] is the position of the
    block's address in [pcap_files]. *)
Record AlertPcapFile := {
  filename : string;
  pcap_file : option handle;
  pcap_writer : option handle;
  output_file : option handle;
  updated : timeval
}.

(** [struct AlertPcapLogData_] without its mutex. *)
Record AlertPcapLogData := {
  directory : string;
  timeout : Z;
  current_file : option addr;
  pcap_file_count : Z;
  pcap_files : list addr
}.

(** What the module reads of a buffered TimeMachine packet, of a flow and
    of a packet (their declarations are in headers outside this file). *)
Record TimeMachinePacket := { header : pcap_pkthdr; data : list byte }.

Inductive ip_version := IPV4 | IPV6 | IP_OTHER.

Record Flow := {
  startts : timeval;
  flow_ip : ip_version;
  src : list Z;
  dst : list Z;
  sp : Z;
  dp : Z;
  proto : Z;
  tm_pkts : list TimeMachinePacket;
  tm_pkt_cnt : Z
}.

Record Packet := {
  flow : option addr;
  ts : timeval;
  pktlen : Z;
  pkt_data : list byte;
  datalink : Z
}.

Definition GET_PKT_LEN (p : Packet) : Z := pktlen p.
Definition GET_PKT_DATA (p : Packet) : list byte := pkt_data p.

Inductive TmEcode := TM_ECODE_OK | TM_ECODE_FAILED.

Inductive lock :=
| FLOWLOCK (f : addr)
| tm_m (f : addr)
| apl_lock.

Inductive event :=
| EvLock (l : lock)
| EvUnlock (l : lock)
| EvMakePath (path : string)
| EvPcapOpenDead (linktype : Z) (res : option handle)
| EvPcapDumpOpen (fname : string) (res : option handle)
| EvPcapDump (out : handle) (hdr : pcap_pkthdr) (payload : list byte)
| EvFflush (out : handle)
| EvPcapDumpFlush (writer : handle)
| EvPcapDumpClose (writer : handle)
| EvPcapClose (pc : handle).

Record World := {
  apl_data : AlertPcapLogData;
  files : gmap addr AlertPcapFile;
  flows : gmap addr Flow;
  trace : list event
}.

#[global] Instance lock_eq_dec : EqDecision lock.
Proof. solve_decision. Defined.

(** Field updates. *)
Definition set_apl (f : AlertPcapLogData → AlertPcapLogData) (w : World) : World :=
  {| apl_data := f (apl_data w); files := files w; flows := flows w;
     trace := trace w |}.

Definition set_files (f : gmap addr AlertPcapFile → gmap addr AlertPcapFile)
    (w : World) : World :=
  {| apl_data := apl_data w; files := f (files w); flows := flows w;
     trace := trace w |}.

Definition set_flows (f : gmap addr Flow → gmap addr Flow) (w : World) : World :=
  {| apl_data := apl_data w; files := files w; flows := f (flows w);
     trace := trace w |}.

Definition emit (es : list event) (w : World) : World :=
  {| apl_data := apl_data w; files := files w; flows := flows w;
     trace := trace w ++ es |}.

Definition with_current_file (c : option addr) (d : AlertPcapLogData) :=
  {| directory := directory d; timeout := timeout d; current_file := c;
     pcap_file_count := pcap_file_count d; pcap_files := pcap_files d |}.

Definition with_pcap_file_count (n : Z) (d : AlertPcapLogData) :=
  {| directory := directory d; timeout := timeout d;
     current_file := current_file d;
     pcap_file_count := n; pcap_files := pcap_files d |}.

Definition with_pcap_files (l : list addr) (d : AlertPcapLogData) :=
  {| directory := directory d; timeout := timeout d;
     current_file := current_file d;
     pcap_file_count := pcap_file_count d; pcap_files := l |}.

Definition with_filename (s : string) (f : AlertPcapFile) :=
  {| filename := s; pcap_file := pcap_file f; pcap_writer := pcap_writer f;
     output_file := output_file f; updated := updated f |}.

Definition with_pcap_file (h : option handle) (f : AlertPcapFile) :=
  {| filename := filename f; pcap_file := h; pcap_writer := pcap_writer f;
     output_file := output_file f; updated := updated f |}.

Definition with_pcap_writer (h : option handle) (f : AlertPcapFile) :=
  {| filename := filename f; pcap_file := pcap_file f; pcap_writer := h;
     output_file := output_file f; updated := updated f |}.

Definition with_output_file (h : option handle) (f : AlertPcapFile) :=
  {| filename := filename f; pcap_file := pcap_file f;
     pcap_writer := pcap_writer f; output_file := h; updated := updated f |}.

Definition with_updated (t : timeval) (f : AlertPcapFile) :=
  {| filename := filename f; pcap_file := pcap_file f;
     pcap_writer := pcap_writer f; output_file := output_file f;
     updated := t |}.

(** [TAILQ_REMOVE] and [TAILQ_INSERT_TAIL] on the list of element
    addresses.  An element is linked at most once, so removing it removes
    its one occurrence. *)
Definition TAILQ_REMOVE (l : list addr) (elm : addr) : list addr :=
  filter (λ a, a ≠ elm) l.

Definition TAILQ_INSERT_TAIL (l : list addr) (elm : addr) : list addr :=
  l ++ [elm].

Definition TAILQ_FIRST {A} (l : list A) : option A := head l.

(** ** The environment

    [Externals] collects the functions of other modules that the file
    calls (util-time, util-print, util-proto-name, util-path, conf,
    util-byte).  [ByteExtractStringUint32 s] is [None] when the call
    returns [-1] and [Some v] when it stores [v]. *)

Inductive address_family := AF_INET | AF_INET6.

Class Externals := {
  CreateIsoTimeString : timeval → string;
  PrintInet : address_family → list Z → string;
  SCProtoNameValid : Z → bool;
  known_proto : Z → string;
  PathIsAbsolute : string → bool;
  ConfigGetLogDirectory : string;
  ByteExtractStringUint32 : string → option Z
}.

(** A configuration node, seen through [ConfNodeLookupChildValue]. *)
Definition ConfNode := string → option string.

Definition ConfNodeLookupChildValue (conf : ConfNode) (name : string)
  : option string := conf name.

(** What the allocator, the file system, libpcap and the clock answer
    during one call of [AlertPcapLogProcess].  [env_SCMalloc] is [None]
    when [SCMalloc] returns [NULL], else the indeterminate contents of the
    new block. *)
Record Env := {
  env_SCMalloc : option AlertPcapFile;
  env_SCCalloc : bool;
  env_stat : Z;
  env_MakePath : Z;
  env_errno : Z;
  env_pcap_open_dead : option handle;
  env_pcap_dump_open : option handle;
  env_TimeGet : timeval
}.

(** [pcap_dump_file] hands back the stream of the dumper. *)
Definition pcap_dump_file (writer : handle) : handle := writer.

Definition store (a : addr) (f : AlertPcapFile) (w : World) : World :=
  set_files (insert a f) w.

(** ** [AlertPcapFileNew] (lines 142-192)

    Returns the address of the new block, or [None] for [NULL].  On every
    failure after the first allocation the block stays allocated and
    unreferenced. *)
Definition AlertPcapFileNew (env : Env) (fname dir : string) (p : Packet)
    (w : World) : option addr * World :=
  match env_SCMalloc env with
  | None => (None, w)
  | Some junk =>
    let output := fresh (dom (files w)) in
    if negb (env_SCCalloc env) then (None, store output junk w) else
    let o := with_filename (snprintf "" (strlen fname + 1) fname) junk in
    let made :=
      if negb (env_stat env =? 0) then
        if negb (env_MakePath env =? 0) then
          if negb (env_errno env =? EEXIST) then None
          else Some [EvMakePath fname]
        else Some [EvMakePath fname]
      else Some [] in
    match made with
    | None => (None, emit [EvMakePath fname] (store output o w))
    | Some evs =>
      let w := emit (evs ++ [EvPcapOpenDead (datalink p) (env_pcap_open_dead env)]) w in
      let o := with_pcap_file (env_pcap_open_dead env) o in
      match env_pcap_open_dead env with
      | None => (None, store output o w)
      | Some _ =>
        let w := emit [EvPcapDumpOpen fname (env_pcap_dump_open env)] w in
        let o := with_pcap_writer (env_pcap_dump_open env) o in
        match env_pcap_dump_open env with
        | None => (None, store output o w)
        | Some writer =>
          (Some output,
           store output (with_output_file (Some (pcap_dump_file writer)) o) w)
        end
      end
    end
  end.

(** ** [AlertPcapFileClose] (lines 198-208) *)
Definition AlertPcapFileClose (output : AlertPcapFile) : list event :=
  match pcap_writer output with
  | Some writer => [EvPcapDumpFlush writer; EvPcapDumpClose writer]
  | None => []
  end ++
  match pcap_file output with
  | Some pc => [EvPcapClose pc]
  | None => []
  end.

(** ** Lookup or creation of the output file (lines 259-286)

    [find_output_file] is the [TAILQ_FOREACH] of lines 263-270 over the
    elements [walk] still to visit; its result is the loop variable after
    the loop. *)
Definition promote (cf : addr) (w : World) : World :=
  set_apl (λ d,
    with_current_file (Some cf)
      (with_pcap_files
         (TAILQ_INSERT_TAIL (TAILQ_REMOVE (pcap_files d) cf) cf) d)) w.

Fixpoint find_output_file (walk : list addr) (fname : string) (w : World)
  : option (option addr * World) :=
  match walk with
  | [] => Some (None, w)
  | cf :: rest =>
    f ← files w !! cf;
    if strcmp (filename f) fname =? 0 then Some (Some cf, promote cf w)
    else find_output_file rest fname w
  end.

(** Lines 259-271: the result is [current_file] at line 273. *)
Definition lookup_output_file (fname : string) (w : World)
  : option (option addr * World) :=
  match current_file (apl_data w) with
  | None => find_output_file (pcap_files (apl_data w)) fname w
  | Some cf =>
    f ← files w !! cf;
    if negb (strcmp (filename f) fname =? 0) then
      find_output_file (pcap_files (apl_data w)) fname w
    else Some (Some cf, w)
  end.

(** Lines 283-285. *)
Definition register (cf : addr) (w : World) : World :=
  set_apl (λ d,
    with_pcap_file_count (wrap32 (pcap_file_count d + 1))
      (with_current_file (Some cf)
        (with_pcap_files (TAILQ_INSERT_TAIL (pcap_files d) cf) d))) w.

(** Lines 259-286.  [Some (None, _)] is the failure of line 277. *)
Definition resolve_or_create (env : Env) (fname dir : string) (p : Packet)
    (w : World) : option (option addr * World) :=
  '(found, w) ← lookup_output_file fname w;
  match found with
  | Some cf => Some (Some cf, w)
  | None =>
    match AlertPcapFileNew env fname dir p w with
    | (None, w) => Some (None, w)
    | (Some cf, w) => Some (Some cf, register cf w)
    end
  end.

(** ** Flush of the flow's TimeMachine packets (lines 290-296)

    The loop runs while [tm_pkt_cnt > 0]; with the queue empty
    [TAILQ_FIRST] is [NULL] and the dump dereferences it.  The result is
    the counter and the queue after the loop and the dumps issued.  The
    store [packet->flow = NULL] touches only the unlinked packet. *)
Fixpoint flush_tm_pkts (out : handle) (cnt : Z) (pkts : list TimeMachinePacket)
  : option (Z * list TimeMachinePacket * list event) :=
  if 0 <? cnt then
    match pkts with
    | [] => None
    | packet :: rest =>
      '(cnt', pkts', evs) ← flush_tm_pkts out (cnt - 1) rest;
      Some (cnt', pkts', EvPcapDump out (header packet) (data packet) :: evs)
    end
  else Some (cnt, pkts, []).

Definition with_tm (cnt : Z) (pkts : list TimeMachinePacket) (fl : Flow) : Flow :=
  {| startts := startts fl; flow_ip := flow_ip fl; src := src fl;
     dst := dst fl; sp := sp fl; dp := dp fl; proto := proto fl;
     tm_pkts := pkts; tm_pkt_cnt := cnt |}.

(** Lines 288-297, for the flow [fl] at [fp]. *)
Definition drain (fp : addr) (fl : Flow) (out : handle) (w : World)
  : option World :=
  let w := emit [EvLock (tm_m fp)] w in
  '(cnt, pkts, evs) ← flush_tm_pkts out (tm_pkt_cnt fl) (tm_pkts fl);
  let w := set_flows (insert fp (with_tm cnt pkts fl)) (emit evs w) in
  Some (emit [EvUnlock (tm_m fp)] w).

(** ** The idle sweep (lines 317-330)

    [evict_entry] is a turn of the loop that removes [output] (lines
    324-329): the element is unlinked, closed and freed, the hint cleared
    and the counter decremented.  [evict_walk] is the [TAILQ_FOREACH] over
    the elements [walk] still to visit.  A turn either leaves the loop
    (line 321) or removes its element; after a removing turn the step of
    the loop (line 318) reads the link [output->next.tqe_next] in the
    block of [output], which line 326 has just freed. *)
Definition evict_entry (output : addr) (f : AlertPcapFile) (w : World) : World :=
  set_apl (λ d,
    with_pcap_file_count (wrap32 (pcap_file_count d - 1))
      (with_current_file None
        (with_pcap_files (TAILQ_REMOVE (pcap_files d) output) d)))
    (set_files (delete output) (emit (AlertPcapFileClose f) w)).

Fixpoint evict_walk (current_time : timeval) (walk : list addr) (w : World)
  : option World :=
  match walk with
  | [] => Some w
  | output :: rest =>
    f ← files w !! output;
    if tv_sec current_time - tv_sec (updated f) <? timeout (apl_data w)
    then Some w
    else
      let w := evict_entry output f w in
      (* line 318: [output->next.tqe_next], read in the block of [output] *)
      _ ← files w !! output;
      evict_walk current_time rest w
  end.

Definition evict_idle (current_time : timeval) (w : World) : option World :=
  evict_walk current_time (pcap_files (apl_data w)) w.

Section Process.
Context `{Externals}.

(** ** Directory and file name of a flow (lines 230-255) *)
Definition flow_names (root : string) (fl : Flow) : string * string :=
  let timebuf := CreateIsoTimeString (startts fl) in
  let '(srcip, dstip) :=
    match flow_ip fl with
    | IPV4 => (PrintInet AF_INET (src fl), PrintInet AF_INET (dst fl))
    | IPV6 => (PrintInet AF_INET6 (src fl), PrintInet AF_INET6 (dst fl))
    | IP_OTHER => ("", "")
    end in
  let proto_s :=
    if SCProtoNameValid (proto fl) then strlcpy 16 (known_proto (proto fl))
    else snprintf "" 16 (fmt_03u (proto fl)) in
  let dir :=
    snprintf "" PATH_MAX
      (root +:+ "/" +:+ fmt_prec10 timebuf +:+ "/" +:+ srcip +:+ "-" +:+ dstip) in
  let fname :=
    if proto fl =? IPPROTO_ICMP then
      snprintf "" PATH_MAX
        (dir +:+ "/" +:+ srcip +:+ "-" +:+ dstip +:+ "-" +:+ timebuf
             +:+ ".ICMP.pcap")
    else
      snprintf "" PATH_MAX
        (dir +:+ "/" +:+ srcip +:+ ":" +:+ fmt_u (sp fl) +:+ "-" +:+ dstip
             +:+ ":" +:+ fmt_u (dp fl) +:+ "-" +:+ timebuf +:+ "." +:+ proto_s
             +:+ ".pcap") in
  (dir, fname).

(** The header written for the packet itself (lines 302-306). *)
Definition packet_header (p : Packet) : pcap_pkthdr :=
  {| hdr_ts := {| tv_sec := tv_sec (ts p); tv_usec := tv_usec (ts p) |};
     caplen := GET_PKT_LEN p; len := GET_PKT_LEN p |}.

(** ** [AlertPcapLogProcess] (lines 223-334) *)
Definition AlertPcapLogProcess (env : Env) (p : Packet) (w : World)
  : option (TmEcode * World) :=
  fp ← flow p;
  fl ← flows w !! fp;
  let w := emit [EvLock (FLOWLOCK fp)] w in
  let '(dir, fname) := flow_names (directory (apl_data w)) fl in
  let w := emit [EvLock apl_lock] w in
  '(found, w) ← resolve_or_create env fname dir p w;
  match found with
  | None =>
    Some (TM_ECODE_FAILED, emit [EvUnlock apl_lock; EvUnlock (FLOWLOCK fp)] w)
  | Some cf =>
    f ← files w !! cf;
    out ← output_file f;
    w ← drain fp fl out w;
    let w := emit [EvUnlock (FLOWLOCK fp)] w in
    let pkthdr := packet_header p in
    let current_time := env_TimeGet env in
    let w := emit [EvPcapDump out pkthdr (GET_PKT_DATA p); EvFflush out] w in
    let w := store cf (with_updated current_time f) w in
    w ← evict_idle current_time w;
    Some (TM_ECODE_OK, emit [EvUnlock apl_lock] w)
  end.

(** The state in which the lookup runs (lines 229 and 257), and the state
    after the packet is written and the time stamp stored (lines 299-314). *)
Definition locked (fp : addr) (w : World) : World :=
  emit [EvLock apl_lock] (emit [EvLock (FLOWLOCK fp)] w).

Definition written (env : Env) (p : Packet) (fp cf : addr) (f : AlertPcapFile)
    (out : handle) (w : World) : World :=
  store cf (with_updated (env_TimeGet env) f)
    (emit [EvPcapDump out (packet_header p) (GET_PKT_DATA p); EvFflush out]
       (emit [EvUnlock (FLOWLOCK fp)] w)).

(** ** [AlertPcapLogInitCtx] (lines 376-446)

    [None] is [exit(EXIT_FAILURE)]; the two flags say whether the two
    allocations succeed.  The block is cleared by [memset], so
    [directory] starts as the empty string and [timeout] as [0]. *)
Definition init_directory (conf : option ConfNode) : string :=
  let buf := "" in
  match conf with
  | None => buf
  | Some c =>
    let s_dir :=
      match ConfNodeLookupChildValue c "directory" with
      | None => DEFAULT_DIRECTORY_NAME
      | Some s => s
      end in
    if PathIsAbsolute s_dir then snprintf buf (strlen buf) s_dir
    else snprintf buf PATH_MAX (ConfigGetLogDirectory +:+ "/" +:+ s_dir)
  end.

Definition init_timeout (conf : option ConfNode) : option Z :=
  match conf with
  | None => Some 0
  | Some c =>
    match ConfNodeLookupChildValue c "timeout" with
    | Some file_timeout_s =>
      match ByteExtractStringUint32 file_timeout_s with
      | None => None
      | Some v =>
        let file_timeout := wrap32 v in
        if file_timeout <? 1 then None else Some file_timeout
      end
    | None => Some DEFAULT_FILE_TIMEOUT
    end
  end.

Definition AlertPcapLogInitCtx (apl_ok ctx_ok : bool) (conf : option ConfNode)
  : option AlertPcapLogData :=
  if negb apl_ok then None else
  let dir := init_directory conf in
  t ← init_timeout conf;
  if negb ctx_ok then None else
  Some {| directory := dir; timeout := t; current_file := None;
          pcap_file_count := 0; pcap_files := [] |}.

(** ** [AlertPcapLogDeInitCtx] (lines 452-469)

    [deinit_step] is one turn of the loop of lines 459-465, taken when
    [pcap_file_count > 0]. *)
Definition deinit_step (w : World) : option World :=
  cf ← TAILQ_FIRST (pcap_files (apl_data w));
  f ← files w !! cf;
  Some (set_apl (λ d,
          with_pcap_file_count (wrap32 (pcap_file_count d - 1))
            (with_pcap_files (TAILQ_REMOVE (pcap_files d) cf)
              (with_current_file (Some cf) d)))
          (set_files (delete cf) (emit (AlertPcapFileClose f) w))).

Fixpoint deinit_loop (fuel : nat) (w : World) : option World :=
  if 0 <? pcap_file_count (apl_data w) then
    match fuel with
    | O => None
    | S fuel' => w' ← deinit_step w; deinit_loop fuel' w'
    end
  else Some w.

(** The state when the loop is left; the cache itself is freed next. *)
Definition AlertPcapLogDeInitCtx (w : World) : option World :=
  deinit_loop (length (pcap_files (apl_data w))) w.

(** ** Invariants of the cache

    [entry_ok]: a linked element is a live block whose handles are those
    set by a successful [AlertPcapFileNew]. *)
Definition entry_ok (w : World) (a : addr) : Prop :=
  ∃ f, files w !! a = Some f ∧ is_Some (pcap_file f) ∧
       is_Some (pcap_writer f) ∧ output_file f = pcap_writer f.

Definition entries (w : World) : list addr := pcap_files (apl_data w).

(** The file names of the linked elements, in queue order. *)
Definition entry_paths (w : World) : list string :=
  omap (λ a, filename <$> files w !! a) (entries w).

Record cache_inv (w : World) : Prop := {
  inv_nodup : NoDup (entries w);
  inv_live : ∀ a, a ∈ entries w → entry_ok w a;
  inv_paths : ∀ a b fa fb,
    a ∈ entries w → b ∈ entries w →
    files w !! a = Some fa → files w !! b = Some fb →
    filename fa = filename fb → a = b;
  inv_count : pcap_file_count (apl_data w) = wrap32 (Z.of_nat (length (entries w)))
}.

(** The hint is [NULL] or the tail of the queue. *)
Definition hint_inv (w : World) : Prop :=
  ∀ cf, current_file (apl_data w) = Some cf → last (entries w) = Some cf.

(** An entry is idle at [current_time] when the test of line 320 fails. *)
Definition idle (current_time : timeval) (w : World) (f : AlertPcapFile) : Prop :=
  timeout (apl_data w) ≤ tv_sec current_time - tv_sec (updated f).

(** No linked file is idle at [current_time], and a file written at
    [current_time] is not idle either: the sweep of a call made then
    removes nothing. *)
Definition quiet (current_time : timeval) (w : World) : Prop :=
  0 < timeout (apl_data w) ∧
  ∀ a f, a ∈ entries w → files w !! a = Some f → ¬ idle current_time w f.

(** The failures of [AlertPcapFileNew]: either allocation, the creation
    of the directory with an error other than [EEXIST], [pcap_open_dead],
    or [pcap_dump_open]. *)
Definition creation_fails (env : Env) : Prop :=
  env_SCMalloc env = None ∨ env_SCCalloc env = false ∨
  (env_stat env ≠ 0 ∧ env_MakePath env ≠ 0 ∧ env_errno env ≠ EEXIST) ∨
  env_pcap_open_dead env = None ∨ env_pcap_dump_open env = None.

(** The events [AlertPcapFileNew] can issue. *)
Definition creation_event (e : event) : Prop :=
  match e with
  | EvMakePath _ | EvPcapOpenDead _ _ | EvPcapDumpOpen _ _ => True
  | _ => False
  end.

(** The events of closing the elements [gone], read in the store [fs]. *)
Definition close_events (fs : gmap addr AlertPcapFile) (gone : list addr)
  : list event :=
  flat_map (λ a, match fs !! a with
                 | Some f => AlertPcapFileClose f
                 | None => []
                 end) gone.

(** The dumps of a trace, in order. *)
Definition dumps (tr : list event) : list (handle * pcap_pkthdr * list byte) :=
  omap (λ e, match e with
             | EvPcapDump out hdr payload => Some (out, hdr, payload)
             | _ => None
             end) tr.

(** The files opened in a trace. *)
Definition opens (tr : list event) : list string :=
  omap (λ e, match e with
             | EvPcapDumpOpen fname _ => Some fname
             | _ => None
             end) tr.

(** The writers closed in a trace. *)
Definition closes (tr : list event) : list handle :=
  omap (λ e, match e with
             | EvPcapDumpClose writer => Some writer
             | _ => None
             end) tr.

(** The locks held after a trace, most recent first. *)
Definition lock_step (held : list lock) (e : event) : list lock :=
  match e with
  | EvLock l => l :: held
  | EvUnlock l => filter (λ l', l' ≠ l) held
  | _ => held
  end.

Definition locks_held_from (held : list lock) (tr : list event) : list lock :=
  foldl lock_step held tr.

Definition locks_held (tr : list event) : list lock := locks_held_from [] tr.

(** The lock operations of a trace, in order. *)
Definition lock_events (tr : list event) : list event :=
  omap (λ e, match e with
             | EvLock _ | EvUnlock _ => Some e
             | _ => None
             end) tr.

Definition tm_record (out : handle) (packet : TimeMachinePacket)
  : handle * pcap_pkthdr * list byte :=
  (out, header packet, data packet).

(** ** Reachable states

    The states of a running module: the one built by
    [AlertPcapLogInitCtx], then calls of [AlertPcapLogProcess] and any
    change the rest of the engine makes to the flows.  The states inside
    a call are covered too: [reach_lock] is the state in which its lookup
    runs, [reach_write] the state in which its sweep starts, [reach_turn]
    the state after a turn of the sweep that removes the head of the
    queue (lines 324-329), and the lookup is a step of its own.  The
    relation also has these steps out of their place in a call; what
    holds of all its states holds of those the module passes through. *)
Inductive reachable : World → Prop :=
| reach_init apl_ok ctx_ok conf d fls :
    AlertPcapLogInitCtx apl_ok ctx_ok conf = Some d →
    reachable {| apl_data := d; files := ∅; flows := fls; trace := [] |}
| reach_process env p w r w' :
    reachable w → AlertPcapLogProcess env p w = Some (r, w') → reachable w'
| reach_flows fls w :
    reachable w → reachable (set_flows (λ _, fls) w)
| reach_lock fp w :
    reachable w → reachable (locked fp w)
| reach_write env p w fp fl cf w1 f out w2 :
    reachable w → flow p = Some fp → flows w !! fp = Some fl →
    resolve_or_create env (flow_names (directory (apl_data w)) fl).2
      (flow_names (directory (apl_data w)) fl).1 p (locked fp w)
      = Some (Some cf, w1) →
    files w1 !! cf = Some f → output_file f = Some out →
    drain fp fl out w1 = Some w2 →
    reachable (written env p fp cf f out w2)
| reach_resolve env fname dir p w r w' :
    reachable w → resolve_or_create env fname dir p w = Some (r, w') →
    reachable w'
| reach_turn current_time w output f :
    reachable w → TAILQ_FIRST (pcap_files (apl_data w)) = Some output →
    files w !! output = Some f → idle current_time w f →
    reachable (evict_entry output f w).

(** The states of the teardown: a reachable state, then turns of the loop
    of [AlertPcapLogDeInitCtx]. *)
Inductive shutting_down : World → Prop :=
| down_start w : reachable w → shutting_down w
| down_step w w' :
    shutting_down w → 0 < pcap_file_count (apl_data w) →
    deinit_step w = Some w' → shutting_down w'.

(** The events a call appends to the trace of the state it starts in. *)
Definition new_events (w w' : World) : list event :=
  drop (length (trace w)) (trace w').

(** ** Two readings of the specification that the code does not follow

    [drain_only_after_creation]: a call that opens no file appends the
    packet alone.  [hint_kept_unless_evicted]: a turn of the sweep that
    removes the head of the queue and leaves the hinted element linked
    keeps the hint. *)
Definition drain_only_after_creation (env : Env) (p : Packet) (w : World) : Prop :=
  ∀ w', AlertPcapLogProcess env p w = Some (TM_ECODE_OK, w') →
        opens (new_events w w') = [] →
        length (dumps (new_events w w')) = 1%nat.

Definition hint_kept_unless_evicted (current_time : timeval) (w : World) : Prop :=
  ∀ output f cf,
    TAILQ_FIRST (pcap_files (apl_data w)) = Some output →
    files w !! output = Some f → idle current_time w f →
    current_file (apl_data w) = Some cf →
    cf ∈ entries (evict_entry output f w) →
    current_file (apl_data (evict_entry output f w)) = Some cf.

End Process.

(** ** Time stamps in queue order

    [stamps_sorted]: the time stamps of the linked files do not decrease
    from the head of the queue to its tail.  [stamps_before]: none of them
    is later than [now]. *)
Definition stamp_le (w : World) (a b : addr) : Prop :=
  ∀ fa fb, files w !! a = Some fa → files w !! b = Some fb →
           tv_sec (updated fa) ≤ tv_sec (updated fb).

Definition stamps_sorted (w : World) : Prop :=
  StronglySorted (stamp_le w) (entries w).

Definition stamps_before (now : timeval) (w : World) : Prop :=
  ∀ a f, a ∈ entries w → files w !! a = Some f →
         tv_sec (updated f) ≤ tv_sec now.

(** ** A sample run

    Two flows [F] (with three buffered packets) and [G], an environment in
    which every call succeeds and one in which the directory cannot be
    created. *)
Module Sample.

Definition ext : Externals := {|
  CreateIsoTimeString := λ t, "2015-01-02T03:04:05." +:+ fmt_u (tv_usec t);
  PrintInet := λ af a, match a with x :: _ => fmt_u x | [] => "" end;
  SCProtoNameValid := λ z, z =? 6;
  known_proto := λ z, "TCP";
  PathIsAbsolute := λ s, match s with String "/" _ => true | _ => false end;
  ConfigGetLogDirectory := "/var/log/suricata";
  ByteExtractStringUint32 := λ s, Some 300
|}.

#[local] Existing Instance ext.

Definition tv (s : Z) : timeval := {| tv_sec := s; tv_usec := 0 |}.

Definition junk : AlertPcapFile :=
  {| filename := ""; pcap_file := None; pcap_writer := None;
     output_file := None; updated := tv 0 |}.

Definition env_ok (now : Z) (h : handle) : Env :=
  {| env_SCMalloc := Some junk; env_SCCalloc := true; env_stat := 0;
     env_MakePath := 0; env_errno := 0; env_pcap_open_dead := Some h;
     env_pcap_dump_open := Some (h + 1)%positive; env_TimeGet := tv now |}.

(** [stat] fails and [MakePath] fails with [EACCES]. *)
Definition env_eacces (now : Z) : Env :=
  {| env_SCMalloc := Some junk; env_SCCalloc := true; env_stat := -1;
     env_MakePath := -1; env_errno := 13; env_pcap_open_dead := Some 1%positive;
     env_pcap_dump_open := Some 2%positive; env_TimeGet := tv now |}.

Definition buffered (n : Z) : TimeMachinePacket :=
  {| header := {| hdr_ts := tv n; caplen := 1; len := 1 |}; data := [] |}.

Definition F : Flow :=
  {| startts := tv 0; flow_ip := IPV4; src := [1]; dst := [2]; sp := 1234;
     dp := 80; proto := 6;
     tm_pkts := [buffered 1; buffered 2; buffered 3]; tm_pkt_cnt := 3 |}.

Definition G : Flow :=
  {| startts := tv 0; flow_ip := IPV4; src := [3]; dst := [2]; sp := 1234;
     dp := 80; proto := 17; tm_pkts := []; tm_pkt_cnt := 0 |}.

Definition fF : addr := 1%positive.
Definition fG : addr := 2%positive.

Definition pkt (f : addr) (t : Z) : Packet :=
  {| flow := Some f; ts := tv t; pktlen := 10; pkt_data := []; datalink := 1 |}.

Definition conf_default : ConfNode := λ _, None.

Definition conf_absolute : ConfNode :=
  λ name, if String.eqb name "directory" then Some "/data/pcaps" else None.

Definition apl0 : AlertPcapLogData :=
  {| directory := "/var/log/suricata/alert"; timeout := 300;
     current_file := None; pcap_file_count := 0; pcap_files := [] |}.

Definition some_flows : gmap addr Flow := {[ fF := F; fG := G ]}.

Definition w0 : World :=
  {| apl_data := apl0; files := ∅; flows := some_flows; trace := [] |}.

Definition after (env : Env) (p : Packet) (w : World) : World :=
  match AlertPcapLogProcess env p w with
  | Some (_, w') => w'
  | None => w
  end.

Definition envF0 : Env := env_ok 0 10%positive.
Definition envF1 : Env := env_ok 1 30%positive.
Definition envG250 : Env := env_ok 250 20%positive.
Definition pF0 : Packet := pkt fF 0.
Definition pF1 : Packet := pkt fF 1.
Definition pG250 : Packet := pkt fG 250.

(** The first packet of [F] at time 0, then one of [G] at time 250. *)
Definition w1 : World := after envF0 pF0 w0.
Definition w2 : World := after envG250 pG250 w1.

(** [F] has been given one more buffered packet after its file was
    opened. *)
Definition F_again : Flow := with_tm 1 [buffered 4] F.
Definition w1_refilled : World := set_flows (λ _, {[ fF := F_again; fG := G ]}) w1.

(** The names of [F], the state after its lookup in [w0], the state after
    one turn of the teardown loop in [w2], and the cache built from
    [conf_absolute]. *)
Definition dirF : string := (flow_names (directory apl0) F).1.
Definition nameF : string := (flow_names (directory apl0) F).2.

Definition w0_resolved : World :=
  match resolve_or_create envF0 nameF dirF pF0 (locked fF w0) with
  | Some (_, w') => w'
  | None => w0
  end.

(** A second packet of [G] at time 300, up to the sweep: the lookup, the
    resolved block and its stream, the flush and the write. *)
Definition envG300 : Env := env_ok 300 40%positive.
Definition pG300 : Packet := pkt fG 300.
Definition dirG : string := (flow_names (directory apl0) G).1.
Definition nameG : string := (flow_names (directory apl0) G).2.
Definition cfG : addr := 2%positive.

Definition w2_resolved : World :=
  match resolve_or_create envG300 nameG dirG pG300 (locked fG w2) with
  | Some (_, w') => w'
  | None => w2
  end.

Definition fileG : AlertPcapFile := default junk (files w2_resolved !! cfG).
Definition outG : handle := default 1%positive (output_file fileG).
Definition w2_drained : World := default w2 (drain fG G outG w2_resolved).

Definition w2_before_sweep : World :=
  written envG300 pG300 fG cfG fileG outG w2_drained.

(** The head of the queue when that sweep starts, which is the file of
    [F], and the state after the turn of the sweep that removes it. *)
Definition cfF : addr := 1%positive.
Definition fileF_idle : AlertPcapFile :=
  default junk (files w2_before_sweep !! cfF).
Definition w2_turn : World := evict_entry cfF fileF_idle w2_before_sweep.

Definition w2_down : World :=
  match deinit_step w2 with
  | Some w' => w'
  | None => w2
  end.

Definition apl_absolute : AlertPcapLogData :=
  {| directory := ""; timeout := 300; current_file := None;
     pcap_file_count := 0; pcap_files := [] |}.

(** The results of the sample calls, the further states and inputs the
    instances below are taken at. *)
Definition created : option addr * World :=
  AlertPcapFileNew envF0 nameF dirF pF0 w0.
Definition not_created : option addr * World :=
  AlertPcapFileNew (env_eacces 0) nameF dirF pF0 w0.

(** A parser that reads only the string [0]. *)
Definition ext_zero : Externals := {|
  CreateIsoTimeString := CreateIsoTimeString;
  PrintInet := PrintInet;
  SCProtoNameValid := SCProtoNameValid;
  known_proto := known_proto;
  PathIsAbsolute := PathIsAbsolute;
  ConfigGetLogDirectory := ConfigGetLogDirectory;
  ByteExtractStringUint32 := λ s, if String.eqb s "0" then Some 0 else None
|}.

Definition conf_timeout (s : string) : ConfNode :=
  λ name, if String.eqb name "timeout" then Some s else None.

(** The cache built without a configuration node. *)
Definition apl_null : AlertPcapLogData :=
  {| directory := ""; timeout := 0; current_file := None;
     pcap_file_count := 0; pcap_files := [] |}.
Definition w0_null : World :=
  {| apl_data := apl_null; files := ∅; flows := some_flows; trace := [] |}.

Definition fileF : AlertPcapFile := default junk (files w1 !! 1%positive).
Definition outF : handle := default 1%positive (output_file fileF).
Definition w1_again : World := after envF1 pF1 w1.

(** [F] with a counter of 2 and one buffered packet; [F] with a counter
    of 1 and two buffered packets. *)
Definition F_over : Flow := with_tm 2 [buffered 4] F.
Definition w0_over : World := set_flows (λ _, {[ fF := F_over; fG := G ]}) w0.
Definition F_part : Flow := with_tm 1 [buffered 4; buffered 5] F.
Definition w1_part : World := set_flows (λ _, {[ fF := F_part; fG := G ]}) w1.
Definition w1_part_after : World := after envF1 pF1 w1_part.

(** The lookup of the file of [F] in [w2], where it is the head of the
    queue and the file of [G] is the hint. *)
Definition w2_promoted : World :=
  match resolve_or_create envF1 nameF dirF pF1 (locked fF w2) with
  | Some (_, w') => w'
  | None => w2
  end.

(** A root directory of [PATH_MAX - 1] characters. *)
Definition long_root : string :=
  string_of_list_ascii (repeat "a"%char 4095).

End Sample.

(** * Properties *)

(** ** C strings and counters *)

Lemma string_compare_refl (s : string) : String.compare s s = Eq.
Proof.
  induction s as [|c s IH]; [done|]. simpl.
  unfold Ascii.compare. by rewrite N.compare_refl.
Qed.

Lemma strcmp_eq0 (a b : string) : (strcmp a b =? 0) = true ↔ a = b.
Proof.
  unfold strcmp. split.
  - intros E. apply String.compare_eq_iff.
    by destruct (String.compare a b).
  - intros ->. by rewrite string_compare_refl.
Qed.

Lemma strcmp_ne0 (a b : string) : (strcmp a b =? 0) = false ↔ a ≠ b.
Proof.
  rewrite <- strcmp_eq0. destruct (strcmp a b =? 0); split; congruence.
Qed.

Lemma wrap32_succ (n : Z) : wrap32 (wrap32 n + 1) = wrap32 (n + 1).
Proof. unfold wrap32. apply Zplus_mod_idemp_l. Qed.

Lemma wrap32_pred (n : Z) : wrap32 (wrap32 n - 1) = wrap32 (n - 1).
Proof. unfold wrap32. apply Zminus_mod_idemp_l. Qed.

Lemma wrap32_small (n : Z) : 0 ≤ n < 2 ^ 32 → wrap32 n = n.
Proof. intros Hn. unfold wrap32. by apply Z.mod_small. Qed.

(** ** The queue operations *)

Lemma elem_of_TAILQ_REMOVE (l : list addr) (e a : addr) :
  a ∈ TAILQ_REMOVE l e ↔ a ∈ l ∧ a ≠ e.
Proof. unfold TAILQ_REMOVE. rewrite list_elem_of_filter. tauto. Qed.

Lemma TAILQ_REMOVE_absent (l : list addr) (e : addr) :
  e ∉ l → TAILQ_REMOVE l e = l.
Proof.
  unfold TAILQ_REMOVE. induction l as [|x l IH]; intros Hne; [done|].
  apply not_elem_of_cons in Hne as [Hx Hl].
  rewrite filter_cons_True by congruence. f_equal. auto.
Qed.

Lemma TAILQ_REMOVE_head (l : list addr) (e : addr) :
  e ∉ l → TAILQ_REMOVE (e :: l) e = l.
Proof.
  intros Hne. unfold TAILQ_REMOVE.
  rewrite filter_cons_False by (intros E; by apply E).
  by apply TAILQ_REMOVE_absent.
Qed.

Lemma NoDup_TAILQ_REMOVE (l : list addr) (e : addr) :
  NoDup l → NoDup (TAILQ_REMOVE l e).
Proof. apply NoDup_filter. Qed.

Lemma length_TAILQ_REMOVE (l : list addr) (e : addr) :
  NoDup l → e ∈ l → S (length (TAILQ_REMOVE l e)) = length l.
Proof.
  induction l as [|x l IH]; intros Hnd Hin; [by apply elem_of_nil in Hin|].
  apply NoDup_cons in Hnd as [Hx Hnd].
  destruct (decide (x = e)) as [->|Hne].
  - by rewrite TAILQ_REMOVE_head.
  - unfold TAILQ_REMOVE in *. rewrite filter_cons_True by done. simpl.
    f_equal. apply IH; [done|]. apply elem_of_cons in Hin as [E|Hin]; congruence.
Qed.

Lemma NoDup_promote (l : list addr) (e : addr) :
  NoDup l → NoDup (TAILQ_INSERT_TAIL (TAILQ_REMOVE l e) e).
Proof.
  intros Hnd. unfold TAILQ_INSERT_TAIL. apply NoDup_app. split_and!.
  - by apply NoDup_TAILQ_REMOVE.
  - intros a Ha%elem_of_TAILQ_REMOVE Hb%list_elem_of_singleton. tauto.
  - apply NoDup_singleton.
Qed.

Lemma elem_of_promote (l : list addr) (e a : addr) :
  e ∈ l → a ∈ TAILQ_INSERT_TAIL (TAILQ_REMOVE l e) e ↔ a ∈ l.
Proof.
  intros He. unfold TAILQ_INSERT_TAIL.
  rewrite elem_of_app, elem_of_TAILQ_REMOVE, list_elem_of_singleton.
  destruct (decide (a = e)) as [->|]; tauto.
Qed.

Lemma length_promote (l : list addr) (e : addr) :
  NoDup l → e ∈ l → length (TAILQ_INSERT_TAIL (TAILQ_REMOVE l e) e) = length l.
Proof.
  intros Hnd He. unfold TAILQ_INSERT_TAIL. rewrite length_app. simpl.
  rewrite <- (length_TAILQ_REMOVE l e) by done. lia.
Qed.

Lemma substring_all (s : string) : String.substring 0 (String.length s) s = s.
Proof. induction s as [|c s IH]; [done|]. simpl. by rewrite IH. Qed.

Lemma snprintf_copy (buf s : string) : snprintf buf (strlen s + 1) s = s.
Proof.
  unfold snprintf, strlen.
  destruct (Z.eqb_spec (Z.of_nat (String.length s) + 1) 0) as [E|_]; [lia|].
  replace (Z.to_nat (Z.of_nat (String.length s) + 1 - 1)) with (String.length s) by lia.
  apply substring_all.
Qed.

(** ** Frame lemmas for the invariants *)

Lemma entry_ok_frame (w w' : World) (a : addr) :
  files w' !! a = files w !! a → entry_ok w a → entry_ok w' a.
Proof. unfold entry_ok. intros ->. done. Qed.

Lemma cache_inv_frame (w w' : World) :
  apl_data w' = apl_data w →
  (∀ a, a ∈ entries w → files w' !! a = files w !! a) →
  cache_inv w → cache_inv w'.
Proof.
  intros Hd Hf [Hnd Hlive Hpaths Hcount].
  assert (He : entries w' = entries w) by (unfold entries; by rewrite Hd).
  split; rewrite ?He, ?Hd; try done.
  - intros a Ha. apply (entry_ok_frame w); auto.
  - intros a b fa fb Ha Hb. rewrite !Hf by done. by apply Hpaths.
Qed.

Lemma hint_inv_frame (w w' : World) :
  apl_data w' = apl_data w → hint_inv w → hint_inv w'.
Proof. unfold hint_inv, entries. by intros ->. Qed.

Lemma hint_in_entries (w : World) (cf : addr) :
  hint_inv w → current_file (apl_data w) = Some cf → cf ∈ entries w.
Proof. intros Hh Hc. apply last_Some_elem_of. by apply Hh. Qed.

(** ** Promotion and registration *)

Lemma promote_inv (w : World) (cf : addr) :
  cache_inv w → cf ∈ entries w → cache_inv (promote cf w).
Proof.
  intros [Hnd Hlive Hpaths Hcount] Hin.
  split; unfold entries in *; simpl.
  - by apply NoDup_promote.
  - intros a Ha%elem_of_promote; [|done]. by apply Hlive.
  - intros a b fa fb Ha%elem_of_promote Hb%elem_of_promote; try done.
    by apply Hpaths.
  - by rewrite length_promote.
Qed.

Lemma promote_tail (w : World) (cf : addr) :
  last (entries (promote cf w)) = Some cf.
Proof. unfold entries. simpl. apply last_snoc. Qed.

Lemma promote_hint (w : World) (cf : addr) : hint_inv (promote cf w).
Proof. intros cf' Hc. simpl in Hc. injection Hc as <-. apply promote_tail. Qed.

Lemma register_inv (w : World) (cf : addr) (f : AlertPcapFile) :
  cache_inv w → cf ∉ entries w → entry_ok w cf →
  files w !! cf = Some f →
  (∀ a fa, a ∈ entries w → files w !! a = Some fa → filename fa ≠ filename f) →
  cache_inv (register cf w).
Proof.
  intros [Hnd Hlive Hpaths Hcount] Hnew Hok Hf Hfresh.
  split; unfold entries, TAILQ_INSERT_TAIL in *; simpl.
  - apply NoDup_app. split_and!; [done| |apply NoDup_singleton].
    intros a Ha Hb%list_elem_of_singleton. congruence.
  - intros a [Ha|Ha%list_elem_of_singleton]%elem_of_app; [by apply Hlive|].
    by subst.
  - intros a b fa fb [Ha|Ha%list_elem_of_singleton]%elem_of_app
      [Hb|Hb%list_elem_of_singleton]%elem_of_app Hfa Hfb E; subst.
    + by apply (Hpaths a b fa fb).
    + rewrite Hf in Hfb. injection Hfb as <-. by destruct (Hfresh a fa).
    + rewrite Hf in Hfa. injection Hfa as <-. by destruct (Hfresh b fb).
    + done.
  - unfold TAILQ_INSERT_TAIL.
    rewrite Hcount, wrap32_succ, length_app. simpl. f_equal. lia.
Qed.

Lemma register_tail (w : World) (cf : addr) :
  last (entries (register cf w)) = Some cf.
Proof. unfold entries. simpl. apply last_snoc. Qed.

Lemma register_hint (w : World) (cf : addr) : hint_inv (register cf w).
Proof. intros cf' Hc. simpl in Hc. injection Hc as <-. apply register_tail. Qed.

(** ** [AlertPcapFileNew] *)

Lemma fresh_block (w : World) : files w !! fresh (dom (files w)) = None.
Proof. apply not_elem_of_dom, is_fresh. Qed.

Lemma store_fresh_other (w0 w : World) (o : AlertPcapFile) (a : addr) :
  files w = files w0 → is_Some (files w0 !! a) →
  files (store (fresh (dom (files w0))) o w) !! a = files w0 !! a.
Proof.
  intros Hw Ha. simpl. rewrite Hw. apply lookup_insert_ne. intros E.
  rewrite <- E, fresh_block in Ha. by destruct Ha.
Qed.

Lemma AlertPcapFileNew_frame env fname dir p w r w' :
  AlertPcapFileNew env fname dir p w = (r, w') →
  apl_data w' = apl_data w ∧ flows w' = flows w ∧
  (∀ a, is_Some (files w !! a) → files w' !! a = files w !! a) ∧
  ∃ evs, trace w' = trace w ++ evs ∧ Forall creation_event evs.
Proof.
  unfold AlertPcapFileNew. intros E.
  destruct (env_SCMalloc env) as [junk|];
    [|injection E as <- <-; split_and!; try done; exists []; by rewrite app_nil_r].
  destruct (env_SCCalloc env); simpl in E;
    [|injection E as <- <-; split_and!; try done;
      [intros ? ?; by apply store_fresh_other|exists []; simpl; by rewrite app_nil_r]].
  destruct (env_stat env =? 0), (env_MakePath env =? 0),
    (env_errno env =? EEXIST), (env_pcap_open_dead env),
    (env_pcap_dump_open env); simpl in E; injection E as <- <-;
    (split_and!; [done|done|intros ? ?; by apply store_fresh_other|]);
    simpl; rewrite <- ?app_assoc; eexists; (split; [done|]);
    repeat constructor.
Qed.

Lemma AlertPcapFileNew_success env fname dir p w cf w' :
  AlertPcapFileNew env fname dir p w = (Some cf, w') →
  files w !! cf = None ∧
  ∃ f, files w' !! cf = Some f ∧ filename f = fname ∧
       is_Some (pcap_file f) ∧ is_Some (pcap_writer f) ∧
       output_file f = pcap_writer f ∧
       opens (drop (length (trace w)) (trace w')) = [fname].
Proof.
  unfold AlertPcapFileNew. intros E.
  destruct (env_SCMalloc env) as [junk|]; [|done].
  destruct (env_SCCalloc env); simpl in E; [|done].
  destruct (env_stat env =? 0), (env_MakePath env =? 0),
    (env_errno env =? EEXIST), (env_pcap_open_dead env),
    (env_pcap_dump_open env); simpl in E; try done; injection E as <- <-;
    (split; [apply fresh_block|]); eexists; simpl;
    rewrite lookup_insert_eq; (split; [done|]); simpl;
    rewrite snprintf_copy, <- ?app_assoc, drop_app_length; auto.
Qed.

Lemma AlertPcapFileNew_failure env fname dir p w :
  fst (AlertPcapFileNew env fname dir p w) = None ↔ creation_fails env.
Proof.
  unfold AlertPcapFileNew, creation_fails.
  destruct (env_SCMalloc env) as [junk|]; [|simpl; tauto].
  destruct (env_SCCalloc env); simpl; [|tauto].
  destruct (Z.eqb_spec (env_stat env) 0), (Z.eqb_spec (env_MakePath env) 0),
    (Z.eqb_spec (env_errno env) EEXIST), (env_pcap_open_dead env),
    (env_pcap_dump_open env); simpl; split; intros; try done; try tauto;
    repeat match goal with H : _ ∨ _ |- _ => destruct H | H : _ ∧ _ |- _ => destruct H end;
    congruence.
Qed.

(** ** Lookup *)

Lemma find_output_file_spec (walk : list addr) (fname : string) (w : World) :
  (∀ a, a ∈ walk → is_Some (files w !! a)) →
  (find_output_file walk fname w = Some (None, w) ∧
   ∀ a f, a ∈ walk → files w !! a = Some f → filename f ≠ fname) ∨
  (∃ cf f, cf ∈ walk ∧ files w !! cf = Some f ∧ filename f = fname ∧
           find_output_file walk fname w = Some (Some cf, promote cf w)).
Proof.
  induction walk as [|a walk IH]; intros Hlive.
  - left. split; [done|]. intros a f Ha. by apply elem_of_nil in Ha.
  - destruct (Hlive a) as [f Hf]; [by left|].
    simpl. rewrite Hf. simpl.
    destruct (strcmp (filename f) fname =? 0) eqn:Hcmp.
    + right. exists a, f. apply strcmp_eq0 in Hcmp.
      split_and!; try done. by left.
    + apply strcmp_ne0 in Hcmp.
      destruct IH as [[-> Hmiss]|(cf & f' & Hin & Hf' & Hname & ->)].
      * intros b Hb. apply Hlive. by right.
      * left. split; [done|].
        intros b fb [->|Hb]%elem_of_cons Hfb; [congruence|by eapply Hmiss].
      * right. exists cf, f'. split_and!; try done. by right.
Qed.

(** The outcome of lines 259-271: either the hint is taken as it is, or an
    element is found and promoted, or there is none of that name. *)
Lemma lookup_output_file_spec (fname : string) (w : World) :
  cache_inv w → hint_inv w →
  (∃ cf f, current_file (apl_data w) = Some cf ∧ files w !! cf = Some f ∧
           filename f = fname ∧ last (entries w) = Some cf ∧
           lookup_output_file fname w = Some (Some cf, w)) ∨
  (∃ cf f, cf ∈ entries w ∧ files w !! cf = Some f ∧ filename f = fname ∧
           lookup_output_file fname w = Some (Some cf, promote cf w)) ∨
  (lookup_output_file fname w = Some (None, w) ∧
   ∀ a f, a ∈ entries w → files w !! a = Some f → filename f ≠ fname).
Proof.
  intros Hinv Hhint.
  assert (Hlive : ∀ a, a ∈ entries w → is_Some (files w !! a)).
  { intros a Ha. destruct (inv_live w Hinv a Ha) as (f & -> & _). by eexists. }
  pose proof (find_output_file_spec (entries w) fname w Hlive) as Hscan.
  unfold lookup_output_file.
  destruct (current_file (apl_data w)) as [cf|] eqn:Hcur.
  - destruct (Hlive cf) as [f Hf]; [by apply hint_in_entries|].
    rewrite Hf. simpl.
    destruct (strcmp (filename f) fname =? 0) eqn:Hcmp; simpl.
    + left. exists cf, f. apply strcmp_eq0 in Hcmp. split_and!; auto.
    + right. destruct Hscan as [[? ?]|?]; [by right|by left].
  - right. destruct Hscan as [[? ?]|?]; [by right|by left].
Qed.

(** ** [resolve_or_create] *)

Lemma entry_ok_intro (w : World) (a : addr) (f : AlertPcapFile) :
  files w !! a = Some f → is_Some (pcap_file f) → is_Some (pcap_writer f) →
  output_file f = pcap_writer f → entry_ok w a.
Proof. intros. by exists f. Qed.

(** The three ways through lines 259-286. *)
Lemma resolve_or_create_cases env fname dir p w :
  cache_inv w → hint_inv w →
  (∃ cf f, current_file (apl_data w) = Some cf ∧ files w !! cf = Some f ∧
           filename f = fname ∧ last (entries w) = Some cf ∧
           resolve_or_create env fname dir p w = Some (Some cf, w)) ∨
  (∃ cf f, cf ∈ entries w ∧ files w !! cf = Some f ∧ filename f = fname ∧
           resolve_or_create env fname dir p w = Some (Some cf, promote cf w)) ∨
  ((∀ a f, a ∈ entries w → files w !! a = Some f → filename f ≠ fname) ∧
   resolve_or_create env fname dir p w =
     Some (match AlertPcapFileNew env fname dir p w with
           | (Some cf, w1) => (Some cf, register cf w1)
           | (None, w1) => (None, w1)
           end)).
Proof.
  intros Hinv Hhint. unfold resolve_or_create.
  destruct (lookup_output_file_spec fname w Hinv Hhint)
    as [(cf & f & Hcur & Hf & Hname & Hlast & ->)
       |[(cf & f & Hin & Hf & Hname & ->)|[-> Hmiss]]]; simpl.
  - left. by exists cf, f.
  - right. left. by exists cf, f.
  - right. right. split; [done|].
    by destruct (AlertPcapFileNew env fname dir p w) as [[cf|] w1].
Qed.

Lemma resolve_or_create_spec env fname dir p w :
  cache_inv w → hint_inv w →
  ∃ r w', resolve_or_create env fname dir p w = Some (r, w') ∧
    cache_inv w' ∧ hint_inv w' ∧ flows w' = flows w ∧
    (∀ a, is_Some (files w !! a) → files w' !! a = files w !! a) ∧
    match r with
    | Some cf =>
      last (entries w') = Some cf ∧ current_file (apl_data w') = Some cf ∧
      ∃ f, files w' !! cf = Some f ∧ filename f = fname
    | None =>
      apl_data w' = apl_data w ∧
      ∀ a f, a ∈ entries w → files w !! a = Some f → filename f ≠ fname
    end.
Proof.
  intros Hinv Hhint. unfold resolve_or_create.
  destruct (lookup_output_file_spec fname w Hinv Hhint)
    as [(cf & f & Hcur & Hf & Hname & Hlast & ->)
       |[(cf & f & Hin & Hf & Hname & ->)|[-> Hmiss]]]; simpl.
  - exists (Some cf), w. split_and!; eauto.
  - exists (Some cf), (promote cf w).
    split_and!; eauto using promote_inv, promote_hint, promote_tail.
  - destruct (AlertPcapFileNew env fname dir p w) as [[cf|] w1] eqn:Hnew.
    + destruct (AlertPcapFileNew_frame _ _ _ _ _ _ _ Hnew)
        as (Hd & Hfl & Hfiles & _).
      destruct (AlertPcapFileNew_success _ _ _ _ _ _ _ Hnew)
        as (Hnone & f & Hf & Hname & Hpc & Hwr & Hout & _).
      assert (Hinv1 : cache_inv w1).
      { apply (cache_inv_frame w); [done| |done].
        intros a Ha. apply Hfiles.
        destruct (inv_live w Hinv a Ha) as (fa & -> & _). by eexists. }
      assert (He : entries w1 = entries w) by (unfold entries; by rewrite Hd).
      exists (Some cf), (register cf w1). split_and!; try done.
      * apply (register_inv w1 cf f); try done.
        -- rewrite He. intros Ha.
           destruct (inv_live w Hinv cf Ha) as (fa & Hfa & _). congruence.
        -- by apply (entry_ok_intro _ _ f).
        -- rewrite He. intros a fa Ha Hfa.
           destruct (inv_live w Hinv a Ha) as (fa' & Hfa' & _).
           rewrite Hfiles in Hfa by (rewrite Hfa'; by eexists).
           rewrite Hname. by eapply Hmiss.
      * apply register_hint.
      * apply register_tail.
      * by exists f.
    + destruct (AlertPcapFileNew_frame _ _ _ _ _ _ _ Hnew)
        as (Hd & Hfl & Hfiles & _).
      exists None, w1. split_and!; try done.
      * apply (cache_inv_frame w); [done| |done].
        intros a Ha. apply Hfiles.
        destruct (inv_live w Hinv a Ha) as (fa & -> & _). by eexists.
      * by apply (hint_inv_frame w).
Qed.

(** ** Removal of an element: the sweep and the teardown *)

Lemma cache_inv_remove (w w' : World) (a : addr) :
  cache_inv w → a ∈ entries w →
  entries w' = TAILQ_REMOVE (entries w) a →
  files w' = delete a (files w) →
  pcap_file_count (apl_data w') = wrap32 (pcap_file_count (apl_data w) - 1) →
  cache_inv w'.
Proof.
  intros [Hnd Hlive Hpaths Hcount] Hin He Hf Hc.
  assert (Hkeep : ∀ b, b ∈ entries w' → b ∈ entries w ∧ files w' !! b = files w !! b).
  { intros b Hb. rewrite He in Hb. apply elem_of_TAILQ_REMOVE in Hb as [Hb Hne].
    split; [done|]. rewrite Hf. by apply lookup_delete_ne. }
  split.
  - rewrite He. by apply NoDup_TAILQ_REMOVE.
  - intros b Hb. destruct (Hkeep b Hb) as [Hb' Hfb].
    by apply (entry_ok_frame w); [|apply Hlive].
  - intros b c fb fc Hb Hc'. destruct (Hkeep b Hb) as [Hb' ->].
    destruct (Hkeep c Hc') as [Hc'' ->]. by apply Hpaths.
  - rewrite Hc, Hcount, wrap32_pred, He. f_equal.
    pose proof (length_TAILQ_REMOVE (entries w) a Hnd Hin). lia.
Qed.

Lemma evict_entry_inv (w : World) (a : addr) (f : AlertPcapFile) :
  cache_inv w → a ∈ entries w → cache_inv (evict_entry a f w).
Proof. intros Hinv Hin. by apply (cache_inv_remove w _ a). Qed.

Lemma close_events_delete (fs : gmap addr AlertPcapFile) (a : addr)
    (gone : list addr) :
  a ∉ gone → close_events (delete a fs) gone = close_events fs gone.
Proof.
  induction gone as [|b gone IH]; intros Hne; [done|].
  apply not_elem_of_cons in Hne as [Hab Hg]. simpl.
  rewrite lookup_delete_ne by done. f_equal. auto.
Qed.

(** What the sweep does.  With an empty queue, or a head that is not
    idle, it returns and changes nothing.  With an idle head it removes
    the head and then reads the link in the block it has just freed. *)
Lemma evict_idle_cases (current_time : timeval) (w : World) :
  cache_inv w →
  (evict_idle current_time w = Some w ∧
   ∀ a f, head (entries w) = Some a → files w !! a = Some f →
          ¬ idle current_time w f) ∨
  (evict_idle current_time w = None ∧
   ∃ a f, head (entries w) = Some a ∧ files w !! a = Some f ∧
          idle current_time w f).
Proof.
  intros Hinv. unfold evict_idle. fold (entries w).
  destruct (entries w) as [|a rest] eqn:He; [by left|].
  destruct (inv_live w Hinv a) as (f & Hf & _); [rewrite He; by left|].
  simpl. rewrite Hf. simpl.
  destruct (Z.ltb_spec (tv_sec current_time - tv_sec (updated f))
              (timeout (apl_data w))) as [Hlt|Hge].
  - left. split; [done|]. intros b fb [= <-] Hfb.
    rewrite Hf in Hfb. injection Hfb as <-. unfold idle. lia.
  - right. rewrite lookup_delete_eq. split; [done|]. by exists a, f.
Qed.

Lemma evict_idle_returns (current_time : timeval) (w w' : World) :
  cache_inv w → evict_idle current_time w = Some w' →
  w' = w ∧
  ∀ a f, head (entries w) = Some a → files w !! a = Some f →
         ¬ idle current_time w f.
Proof.
  intros Hinv Hrun.
  destruct (evict_idle_cases current_time w Hinv) as [[E Hstop]|[E _]];
    rewrite E in Hrun; [|done].
  by injection Hrun as <-.
Qed.

Lemma evict_idle_inv (current_time : timeval) (w w' : World) :
  cache_inv w → hint_inv w → evict_idle current_time w = Some w' →
  cache_inv w' ∧ hint_inv w'.
Proof.
  intros Hinv Hhint Hrun.
  by destruct (evict_idle_returns _ _ _ Hinv Hrun) as [-> _].
Qed.

(** ** The flush of the TimeMachine packets *)

Lemma flush_tm_pkts_all (out : handle) (pkts : list TimeMachinePacket) :
  flush_tm_pkts out (Z.of_nat (length pkts)) pkts =
  Some (0, [], (λ packet, EvPcapDump out (header packet) (data packet)) <$> pkts).
Proof.
  induction pkts as [|packet pkts IH]; [done|].
  cbn [flush_tm_pkts length].
  destruct (Z.ltb_spec 0 (Z.of_nat (S (length pkts)))) as [_|Hle]; [|lia].
  replace (Z.of_nat (S (length pkts)) - 1) with (Z.of_nat (length pkts)) by lia.
  by rewrite IH.
Qed.

Lemma flush_tm_pkts_none (out : handle) (cnt : Z) (pkts : list TimeMachinePacket) :
  cnt ≤ 0 → flush_tm_pkts out cnt pkts = Some (cnt, pkts, []).
Proof.
  intros Hle. destruct pkts; simpl;
    by destruct (Z.ltb_spec 0 cnt) as [Hlt|_]; [lia|].
Qed.

Lemma flush_tm_pkts_total (out : handle) (pkts : list TimeMachinePacket) :
  ∀ cnt, cnt ≤ Z.of_nat (length pkts) →
  is_Some (flush_tm_pkts out cnt pkts).
Proof.
  induction pkts as [|packet pkts IH]; intros cnt Hle.
  - rewrite flush_tm_pkts_none by (simpl in Hle; lia). by eexists.
  - simpl. destruct (Z.ltb_spec 0 cnt) as [Hlt|_]; [|by eexists].
    destruct (IH (cnt - 1)) as [[[c q] e] ->]; [simpl in Hle; lia|].
    by eexists.
Qed.

Lemma flush_tm_pkts_events out cnt pkts cnt' pkts' evs :
  flush_tm_pkts out cnt pkts = Some (cnt', pkts', evs) →
  ∃ sent, evs = (λ packet, EvPcapDump out (header packet) (data packet)) <$> sent.
Proof.
  revert cnt cnt' pkts' evs.
  induction pkts as [|packet pkts IH]; intros cnt cnt' pkts' evs; simpl.
  - destruct (0 <? cnt); [done|]. intros [= <- <- <-]. by exists [].
  - destruct (0 <? cnt); [|intros [= <- <- <-]; by exists []].
    destruct (flush_tm_pkts out (cnt - 1) pkts) as [[[c q] e]|] eqn:Hrec; [|done].
    simpl. intros [= <- <- <-]. destruct (IH _ _ _ _ Hrec) as [sent ->].
    by exists (packet :: sent).
Qed.

(** ** Traces *)

Lemma dumps_app (t1 t2 : list event) : dumps (t1 ++ t2) = dumps t1 ++ dumps t2.
Proof. apply omap_app. Qed.

Lemma closes_app (t1 t2 : list event) : closes (t1 ++ t2) = closes t1 ++ closes t2.
Proof. apply omap_app. Qed.

Lemma dumps_of_flush (out : handle) (pkts : list TimeMachinePacket) :
  dumps ((λ packet, EvPcapDump out (header packet) (data packet)) <$> pkts) =
  tm_record out <$> pkts.
Proof.
  induction pkts as [|packet pkts IH]; [done|].
  rewrite !fmap_cons. change (dumps (?e :: ?t)) with (dumps [e] ++ dumps t).
  by rewrite IH.
Qed.

Lemma dumps_creation (evs : list event) :
  Forall creation_event evs → dumps evs = [].
Proof.
  induction 1 as [|e evs He _ IH]; [done|].
  destruct e; try done; simpl in *; by rewrite ?IH.
Qed.

Lemma locks_held_from_app held t1 t2 :
  locks_held_from held (t1 ++ t2) = locks_held_from (locks_held_from held t1) t2.
Proof. apply foldl_app. Qed.

Lemma locks_held_from_creation held evs :
  Forall creation_event evs → locks_held_from held evs = held.
Proof.
  induction 1 as [|e evs He _ IH]; [done|].
  destruct e; try done; simpl in *; by rewrite ?IH.
Qed.

(** ** Writing to the resolved file *)

Lemma touch_inv (w : World) (cf : addr) (f : AlertPcapFile) (t : timeval) :
  cache_inv w → files w !! cf = Some f →
  cache_inv (store cf (with_updated t f) w).
Proof.
  intros [Hnd Hlive Hpaths Hcount] Hf.
  assert (Hlook : ∀ a fa, files (store cf (with_updated t f) w) !! a = Some fa →
            ∃ fa', files w !! a = Some fa' ∧ filename fa' = filename fa ∧
                   pcap_file fa' = pcap_file fa ∧
                   pcap_writer fa' = pcap_writer fa ∧
                   output_file fa' = output_file fa).
  { intros a fa. simpl. destruct (decide (cf = a)) as [->|Hne].
    - rewrite lookup_insert_eq. intros [= <-]. by exists f.
    - rewrite lookup_insert_ne by done. intros Hfa. by exists fa. }
  split; try done.
  - intros a Ha. destruct (Hlive a Ha) as (fa & Hfa & Hpc & Hwr & Hout).
    destruct (decide (cf = a)) as [->|Hne].
    + exists (with_updated t f). simpl. rewrite lookup_insert_eq.
      rewrite Hf in Hfa. by injection Hfa as ->.
    + exists fa. simpl. by rewrite lookup_insert_ne.
  - intros a b fa fb Ha Hb Hfa Hfb E.
    destruct (Hlook a fa Hfa) as (fa' & Hfa' & Ea & _).
    destruct (Hlook b fb Hfb) as (fb' & Hfb' & Eb & _).
    apply (Hpaths a b fa' fb'); try done. congruence.
Qed.

Lemma drain_frame fp fl out w w' :
  drain fp fl out w = Some w' →
  apl_data w' = apl_data w ∧ files w' = files w.
Proof.
  unfold drain.
  destruct (flush_tm_pkts out (tm_pkt_cnt fl) (tm_pkts fl)) as [[[c q] e]|];
    [|done].
  simpl. by intros [= <-].
Qed.

Lemma resolve_hit env fname dir p w cf f :
  current_file (apl_data w) = Some cf → files w !! cf = Some f →
  filename f = fname →
  resolve_or_create env fname dir p w = Some (Some cf, w).
Proof.
  intros Hcur Hf Hname. unfold resolve_or_create, lookup_output_file.
  rewrite Hcur, Hf. simpl.
  by rewrite (proj2 (strcmp_eq0 (filename f) fname) Hname).
Qed.

Lemma entry_paths_length (w : World) :
  cache_inv w → length (entry_paths w) = length (entries w).
Proof.
  intros Hinv. unfold entry_paths.
  pose proof (inv_live w Hinv) as Hlive.
  induction (entries w) as [|a l IH]; [done|]. simpl.
  destruct (Hlive a) as (f & -> & _); [by left|]. simpl.
  f_equal. apply IH. intros b Hb. apply Hlive. by right.
Qed.

Lemma entry_paths_NoDup (w : World) : cache_inv w → NoDup (entry_paths w).
Proof.
  intros Hinv. unfold entry_paths.
  pose proof (inv_live w Hinv) as Hlive.
  pose proof (inv_paths w Hinv) as Hpaths.
  pose proof (inv_nodup w Hinv) as Hnd.
  induction (entries w) as [|a l IH]; [apply NoDup_nil_2|]. simpl.
  apply NoDup_cons in Hnd as [Ha Hnd].
  destruct (Hlive a) as (f & Hf & _); [by left|]. rewrite Hf. simpl.
  apply NoDup_cons. split.
  - intros Hin. apply list_elem_of_omap in Hin as (b & Hb & Hfb).
    destruct (files w !! b) as [fb|] eqn:Hfb'; [|done].
    simpl in Hfb. injection Hfb as Hname.
    apply Ha. rewrite (Hpaths a b f fb); try done; [by left|by right].
  - apply IH; try done.
    + intros b Hb. apply Hlive. by right.
    + intros b c fb fc Hb Hc. apply Hpaths; by right.
Qed.

Lemma substring_fits (s : string) (n : nat) :
  (String.length s ≤ n)%nat → String.substring 0 n s = s.
Proof.
  revert n. induction s as [|c s IH]; intros n Hle; [by destruct n|].
  destruct n as [|n]; [simpl in Hle; lia|]. simpl.
  by rewrite IH by (simpl in Hle; lia).
Qed.

Lemma snprintf_fits (buf s : string) (size : Z) :
  strlen s < size → snprintf buf size s = s.
Proof.
  unfold snprintf, strlen. intros Hfit.
  destruct (Z.eqb_spec size 0) as [->|_]; [lia|].
  apply substring_fits. lia.
Qed.

Section ProcessProperties.
Context `{Externals}.

(** ** [AlertPcapLogProcess] *)

Lemma emit_inv (evs : list event) (w : World) :
  cache_inv w → cache_inv (emit evs w).
Proof. by apply cache_inv_frame. Qed.

Lemma emit_hint (evs : list event) (w : World) :
  hint_inv w → hint_inv (emit evs w).
Proof. by apply hint_inv_frame. Qed.

(** Every result of a call comes from one of the two exits. *)
Lemma process_inversion env p w r w' :
  AlertPcapLogProcess env p w = Some (r, w') →
  ∃ fp fl found w1,
    flow p = Some fp ∧ flows w !! fp = Some fl ∧
    resolve_or_create env
      (flow_names (directory (apl_data w)) fl).2
      (flow_names (directory (apl_data w)) fl).1 p (locked fp w)
      = Some (found, w1) ∧
    match found with
    | None =>
      r = TM_ECODE_FAILED ∧
      w' = emit [EvUnlock apl_lock; EvUnlock (FLOWLOCK fp)] w1
    | Some cf =>
      ∃ f out w2 w3,
        files w1 !! cf = Some f ∧ output_file f = Some out ∧
        drain fp fl out w1 = Some w2 ∧
        evict_idle (env_TimeGet env) (written env p fp cf f out w2) = Some w3 ∧
        r = TM_ECODE_OK ∧ w' = emit [EvUnlock apl_lock] w3
    end.
Proof.
  unfold AlertPcapLogProcess. intros E.
  destruct (flow p) as [fp|]; [|done]. simpl in E.
  destruct (flows w !! fp) as [fl|] eqn:Hfl; [|done]. simpl in E.
  destruct (flow_names (directory (apl_data w)) fl) as [dir fname] eqn:Hnames.
  fold (locked fp w) in E.
  destruct (resolve_or_create env fname dir p (locked fp w))
    as [[found w1]|] eqn:Hres; [|done].
  simpl in E. exists fp, fl, found, w1. rewrite Hnames. split_and!; try done.
  destruct found as [cf|]; [|by injection E as <- <-].
  destruct (files w1 !! cf) as [f|] eqn:Hf; [|done]. simpl in E.
  destruct (output_file f) as [out|] eqn:Hout; [|done]. simpl in E.
  destruct (drain fp fl out w1) as [w2|] eqn:Hdrain; [|done]. simpl in E.
  fold (written env p fp cf f out w2) in E.
  destruct (evict_idle (env_TimeGet env) (written env p fp cf f out w2))
    as [w3|] eqn:Hev; [|done].
  simpl in E. injection E as <- <-. by exists f, out, w2, w3.
Qed.

(** The state in which the sweep of a call starts. *)
Lemma written_inv env p w fp fl cf w1 f out w2 :
  cache_inv w → hint_inv w →
  resolve_or_create env (flow_names (directory (apl_data w)) fl).2
    (flow_names (directory (apl_data w)) fl).1 p (locked fp w)
    = Some (Some cf, w1) →
  files w1 !! cf = Some f → drain fp fl out w1 = Some w2 →
  cache_inv (written env p fp cf f out w2) ∧
  hint_inv (written env p fp cf f out w2).
Proof.
  intros Hinv Hhint Hres Hf Hdrain.
  destruct (resolve_or_create_spec env
              (flow_names (directory (apl_data w)) fl).2
              (flow_names (directory (apl_data w)) fl).1 p (locked fp w))
    as (found' & w1' & Hres' & Hinv1 & Hhint1 & _);
    [by do 2 apply emit_inv|by do 2 apply emit_hint|].
  rewrite Hres in Hres'. injection Hres' as <- <-.
  destruct (drain_frame _ _ _ _ _ Hdrain) as [Hd2 Hf2].
  assert (Hinv2 : cache_inv w2).
  { apply (cache_inv_frame w1); [done| |done]. intros. by rewrite Hf2. }
  split.
  - apply touch_inv; [by do 2 apply emit_inv|]. simpl. by rewrite Hf2.
  - by apply (hint_inv_frame w1).
Qed.

Lemma process_inv env p w r w' :
  cache_inv w → hint_inv w → AlertPcapLogProcess env p w = Some (r, w') →
  cache_inv w' ∧ hint_inv w'.
Proof.
  intros Hinv Hhint Hrun.
  destruct (process_inversion _ _ _ _ _ Hrun)
    as (fp & fl & found & w1 & Hfp & Hfl & Hres & Hexit).
  destruct found as [cf|].
  - destruct Hexit as (f & out & w2 & w3 & Hf & Hout & Hdrain & Hev & -> & ->).
    destruct (written_inv _ _ _ _ _ _ _ _ _ _ Hinv Hhint Hres Hf Hdrain)
      as [Hinv3 Hhint3].
    destruct (evict_idle_inv _ _ _ Hinv3 Hhint3 Hev) as [Hinv4 Hhint4].
    split; [by apply emit_inv|by apply emit_hint].
  - destruct (resolve_or_create_spec env
                (flow_names (directory (apl_data w)) fl).2
                (flow_names (directory (apl_data w)) fl).1 p (locked fp w))
      as (found' & w1' & Hres' & Hinv1 & Hhint1 & _);
      [by do 2 apply emit_inv|by do 2 apply emit_hint|].
    rewrite Hres in Hres'. injection Hres' as <- <-.
    destruct Hexit as [-> ->]. split; [by apply emit_inv|by apply emit_hint].
Qed.

(** ** Construction *)

Lemma init_state apl_ok ctx_ok conf d :
  AlertPcapLogInitCtx apl_ok ctx_ok conf = Some d →
  current_file d = None ∧ pcap_file_count d = 0 ∧ pcap_files d = [] ∧
  directory d = init_directory conf ∧ init_timeout conf = Some (timeout d).
Proof.
  unfold AlertPcapLogInitCtx. destruct apl_ok; [|done]. simpl.
  destruct (init_timeout conf) as [t|]; [|done]. simpl.
  destruct ctx_ok; [|done]. simpl. by intros [= <-].
Qed.

Lemma init_inv apl_ok ctx_ok conf d fs fls tr :
  AlertPcapLogInitCtx apl_ok ctx_ok conf = Some d →
  cache_inv {| apl_data := d; files := fs; flows := fls; trace := tr |} ∧
  hint_inv {| apl_data := d; files := fs; flows := fls; trace := tr |}.
Proof.
  intros (Hcur & Hcnt & Hl & _)%init_state. split.
  - split; unfold entries; simpl; rewrite ?Hl, ?Hcnt; try done.
    + apply NoDup_nil_2.
    + intros a Ha. by apply elem_of_nil in Ha.
    + intros a b fa fb Ha. by apply elem_of_nil in Ha.
  - intros cf. simpl. by rewrite Hcur.
Qed.

(** ** The invariants hold in every reachable state *)

Lemma reachable_inv (w : World) : reachable w → cache_inv w ∧ hint_inv w.
Proof.
  induction 1 as [apl_ok ctx_ok conf d fls Hinit
                 |env p w r w' _ [Hinv Hhint] Hrun
                 |fls w _ [Hinv Hhint]
                 |fp w _ [Hinv Hhint]
                 |env p w fp fl cf w1 f out w2 _ [Hinv Hhint] Hfp Hfl Hres
                    Hf Hout Hdrain
                 |env fname dir p w r w' _ [Hinv Hhint] Hres
                 |current_time w output f _ [Hinv Hhint] Hhd Hf Hidle].
  - by eapply init_inv.
  - by eapply process_inv.
  - split; [by apply (cache_inv_frame w)|by apply (hint_inv_frame w)].
  - split; [by do 2 apply emit_inv|by do 2 apply emit_hint].
  - by eapply written_inv.
  - destruct (resolve_or_create_spec env fname dir p w Hinv Hhint)
      as (r' & w1 & Hres' & Hinv1 & Hhint1 & _).
    rewrite Hres in Hres'. by injection Hres' as <- <-.
  - split; [|done]. apply evict_entry_inv; [done|].
    unfold TAILQ_FIRST in Hhd. unfold entries.
    destruct (pcap_files (apl_data w)); [done|].
    injection Hhd as ->. by left.
Qed.

(** ** Teardown *)

Lemma deinit_step_inv (w w' : World) :
  cache_inv w → deinit_step w = Some w' → cache_inv w'.
Proof.
  intros Hinv. unfold deinit_step, TAILQ_FIRST.
  destruct (pcap_files (apl_data w)) as [|cf rest] eqn:Hl; [done|]. simpl.
  destruct (files w !! cf) as [f|]; [|done]. simpl. intros [= <-].
  apply (cache_inv_remove w _ cf); try done.
  unfold entries. rewrite Hl. by left.
Qed.

Lemma shutting_down_inv (w : World) : shutting_down w → cache_inv w.
Proof.
  induction 1 as [w Hr|w w' _ Hinv _ Hstep].
  - by apply reachable_inv.
  - by eapply deinit_step_inv.
Qed.

End ProcessProperties.

(** ** The queue after a lookup *)

Lemma NoDup_snoc_not_in (l : list addr) (a : addr) : NoDup (l ++ [a]) → a ∉ l.
Proof.
  intros Hnd%NoDup_app Hin. destruct Hnd as (_ & Hdisj & _).
  apply (Hdisj a Hin). by left.
Qed.

(** A lookup keeps the configuration; the element it returns ends the
    queue, and the elements before it are those of the queue it started
    from, in their order.  The element was linked, and then the trace is
    as before, or it is new. *)
Lemma resolve_or_create_queue env fname dir p w cf w' :
  cache_inv w → hint_inv w →
  resolve_or_create env fname dir p w = Some (Some cf, w') →
  directory (apl_data w') = directory (apl_data w) ∧
  timeout (apl_data w') = timeout (apl_data w) ∧
  ∃ l', entries w' = l' ++ [cf] ∧ sublist l' (entries w) ∧ (cf ∉ l') ∧
        (∀ a, a ∈ l' → a ∈ entries w) ∧
        ((cf ∈ entries w ∧ trace w' = trace w ∧ files w' = files w) ∨
         (files w !! cf = None ∧ opens (new_events w w') = [fname] ∧
          l' = entries w)).
Proof.
  intros Hinv Hhint Hres.
  destruct (resolve_or_create_cases env fname dir p w Hinv Hhint)
    as [(cf' & f & Hcur & Hf & Hname & Hlast & E)
       |[(cf' & f & Hin & Hf & Hname & E)|[Hmiss E]]];
    rewrite E in Hres.
  - injection Hres as <- <-. split; [done|]. split; [done|].
    destruct (proj1 (last_Some _ _) Hlast) as [l' Hl].
    pose proof (inv_nodup w Hinv) as Hnd. rewrite Hl in Hnd.
    exists l'. split_and!; try done.
    + rewrite Hl. by apply sublist_inserts_r.
    + by apply NoDup_snoc_not_in.
    + intros a Ha. rewrite Hl. apply elem_of_app. by left.
    + left. split; [|done]. rewrite Hl. apply elem_of_app. right. by left.
  - injection Hres as <- <-. split; [done|]. split; [done|].
    exists (TAILQ_REMOVE (entries w) cf'). split_and!; try done.
    + apply sublist_filter.
    + intros Hc%elem_of_TAILQ_REMOVE. by destruct Hc.
    + intros a Ha%elem_of_TAILQ_REMOVE. by destruct Ha.
    + by left.
  - destruct (AlertPcapFileNew env fname dir p w) as [[cf'|] w1] eqn:Hnew;
      [|done].
    injection Hres as <- <-.
    destruct (AlertPcapFileNew_frame _ _ _ _ _ _ _ Hnew) as (Hd & _ & _ & _).
    destruct (AlertPcapFileNew_success _ _ _ _ _ _ _ Hnew)
      as (Hnone & f & _ & _ & _ & _ & _ & Hopen).
    simpl. rewrite Hd. split; [done|]. split; [done|].
    assert (Hnew' : cf' ∉ entries w).
    { intros Hin. destruct (inv_live w Hinv cf' Hin) as (f' & Hf' & _).
      congruence. }
    exists (entries w). split_and!; try done.
    + unfold entries. simpl. by rewrite Hd.
    + right. split_and!; try done.
Qed.

Lemma resolve_or_create_conf env fname dir p w r w' :
  cache_inv w → hint_inv w →
  resolve_or_create env fname dir p w = Some (r, w') →
  directory (apl_data w') = directory (apl_data w) ∧
  timeout (apl_data w') = timeout (apl_data w).
Proof.
  intros Hinv Hhint Hres. destruct r as [cf|].
  - destruct (resolve_or_create_queue _ _ _ _ _ _ _ Hinv Hhint Hres)
      as (? & ? & _). done.
  - destruct (resolve_or_create_spec env fname dir p w Hinv Hhint)
      as (r' & w1 & Hres' & _ & _ & _ & _ & Hfound).
    rewrite Hres in Hres'. injection Hres' as <- <-.
    destruct Hfound as [-> _]. done.
Qed.

Lemma resolve_or_create_post env fname dir p w r w' :
  cache_inv w → hint_inv w →
  resolve_or_create env fname dir p w = Some (r, w') →
  cache_inv w' ∧ hint_inv w' ∧ flows w' = flows w ∧
  (∀ a, is_Some (files w !! a) → files w' !! a = files w !! a) ∧
  match r with
  | Some cf =>
    last (entries w') = Some cf ∧ current_file (apl_data w') = Some cf ∧
    ∃ f, files w' !! cf = Some f ∧ filename f = fname
  | None =>
    apl_data w' = apl_data w ∧
    ∀ a f, a ∈ entries w → files w !! a = Some f → filename f ≠ fname
  end.
Proof.
  intros Hinv Hhint Hres.
  destruct (resolve_or_create_spec env fname dir p w Hinv Hhint)
    as (r' & w1 & Hres' & Hrest).
  rewrite Hres in Hres'. by injection Hres' as <- <-.
Qed.

Section Claims.
Context `{Externals}.

Lemma new_events_app (w w' : World) (evs : list event) :
  trace w' = trace w ++ evs → new_events w w' = evs.
Proof. unfold new_events. intros ->. apply drop_app_length. Qed.

Lemma written_lookup env p fp cf f out w2 a :
  files (written env p fp cf f out w2) !! a =
  if decide (cf = a) then Some (with_updated (env_TimeGet env) f)
  else files w2 !! a.
Proof. simpl. apply lookup_insert. Qed.

Lemma process_failed env p w fp fl w1 :
  flow p = Some fp → flows w !! fp = Some fl →
  resolve_or_create env (flow_names (directory (apl_data w)) fl).2
    (flow_names (directory (apl_data w)) fl).1 p (locked fp w) = Some (None, w1) →
  AlertPcapLogProcess env p w =
    Some (TM_ECODE_FAILED, emit [EvUnlock apl_lock; EvUnlock (FLOWLOCK fp)] w1).
Proof.
  intros Hfp Hfl Hres. unfold AlertPcapLogProcess. rewrite Hfp. simpl.
  rewrite Hfl. simpl.
  destruct (flow_names (directory (apl_data w)) fl) as [dir fname].
  fold (locked fp w). simpl in Hres. by rewrite Hres.
Qed.

Lemma process_ok env p w fp fl cf w1 f out w2 w3 :
  flow p = Some fp → flows w !! fp = Some fl →
  resolve_or_create env (flow_names (directory (apl_data w)) fl).2
    (flow_names (directory (apl_data w)) fl).1 p (locked fp w)
    = Some (Some cf, w1) →
  files w1 !! cf = Some f → output_file f = Some out →
  drain fp fl out w1 = Some w2 →
  evict_idle (env_TimeGet env) (written env p fp cf f out w2) = Some w3 →
  AlertPcapLogProcess env p w = Some (TM_ECODE_OK, emit [EvUnlock apl_lock] w3).
Proof.
  intros Hfp Hfl Hres Hf Hout Hdrain Hev. unfold AlertPcapLogProcess.
  rewrite Hfp. simpl. rewrite Hfl. simpl.
  destruct (flow_names (directory (apl_data w)) fl) as [dir fname].
  fold (locked fp w). simpl in Hres. rewrite Hres. simpl.
  rewrite Hf. simpl. rewrite Hout. simpl. rewrite Hdrain. simpl.
  fold (written env p fp cf f out w2). by rewrite Hev.
Qed.

Lemma resolve_or_create_trace env fname dir p w r w' :
  cache_inv w → hint_inv w →
  resolve_or_create env fname dir p w = Some (r, w') →
  ∃ evs, trace w' = trace w ++ evs ∧ Forall creation_event evs.
Proof.
  intros Hinv Hhint Hres.
  destruct (resolve_or_create_cases env fname dir p w Hinv Hhint)
    as [(cf & f & _ & _ & _ & _ & E)|[(cf & f & _ & _ & _ & E)|[_ E]]];
    rewrite E in Hres.
  - injection Hres as <- <-. exists []. by rewrite app_nil_r.
  - injection Hres as <- <-. exists []. simpl. by rewrite app_nil_r.
  - destruct (AlertPcapFileNew env fname dir p w) as [[cf|] w1] eqn:Hnew;
      injection Hres as <- <-;
      by destruct (AlertPcapFileNew_frame _ _ _ _ _ _ _ Hnew) as (_ & _ & _ & ?).
Qed.

Lemma resolve_or_create_failure env fname dir p w w' :
  cache_inv w → hint_inv w →
  resolve_or_create env fname dir p w = Some (None, w') →
  creation_fails env.
Proof.
  intros Hinv Hhint Hres.
  destruct (resolve_or_create_cases env fname dir p w Hinv Hhint)
    as [(cf & f & _ & _ & _ & _ & E)|[(cf & f & _ & _ & _ & E)|[_ E]]];
    rewrite E in Hres; try done.
  apply (AlertPcapFileNew_failure env fname dir p w).
  by destruct (AlertPcapFileNew env fname dir p w) as [[cf|] w1].
Qed.

Lemma drain_spec fp fl out w :
  tm_pkt_cnt fl = Z.of_nat (length (tm_pkts fl)) →
  drain fp fl out w =
    Some (emit [EvUnlock (tm_m fp)]
            (set_flows (insert fp (with_tm 0 [] fl))
               (emit ((λ packet, EvPcapDump out (header packet) (data packet))
                        <$> tm_pkts fl)
                  (emit [EvLock (tm_m fp)] w)))).
Proof. intros Hcnt. unfold drain. by rewrite Hcnt, flush_tm_pkts_all. Qed.

(** With no idle file in the cache, the sweep of a call finds the head of
    the queue below the threshold: it is a file that was linked before
    the call, or the file the call has just written. *)
Lemma written_quiet env p w fp fl cf w1 f out w2 :
  cache_inv w → hint_inv w → quiet (env_TimeGet env) w →
  resolve_or_create env (flow_names (directory (apl_data w)) fl).2
    (flow_names (directory (apl_data w)) fl).1 p (locked fp w)
    = Some (Some cf, w1) →
  files w1 !! cf = Some f → drain fp fl out w1 = Some w2 →
  evict_idle (env_TimeGet env) (written env p fp cf f out w2)
    = Some (written env p fp cf f out w2).
Proof.
  intros Hinv Hhint [Hpos Hquiet] Hres Hf Hdrain.
  destruct (written_inv _ _ _ _ _ _ _ _ _ _ Hinv Hhint Hres Hf Hdrain)
    as [Hinv3 _].
  destruct (evict_idle_cases (env_TimeGet env) _ Hinv3)
    as [[E _]|[_ (a & fa & Hhd & Hfa & Hidle)]]; [done|].
  exfalso.
  assert (Hinv0 : cache_inv (locked fp w)) by by do 2 apply emit_inv.
  assert (Hhint0 : hint_inv (locked fp w)) by by do 2 apply emit_hint.
  destruct (drain_frame _ _ _ _ _ Hdrain) as [Hd2 Hf2].
  destruct (resolve_or_create_queue _ _ _ _ _ _ _ Hinv0 Hhint0 Hres)
    as (_ & Hto & l' & Hl' & _ & _ & Hold & _).
  destruct (resolve_or_create_post _ _ _ _ _ _ _ Hinv0 Hhint0 Hres)
    as (_ & _ & _ & Hkeep & _).
  assert (Hto3 : timeout (apl_data (written env p fp cf f out w2))
                 = timeout (apl_data w)) by (simpl; by rewrite Hd2, Hto).
  unfold idle in Hidle. rewrite Hto3 in Hidle.
  rewrite written_lookup in Hfa.
  destruct (decide (cf = a)) as [->|Hne].
  - injection Hfa as <-. simpl in Hidle. lia.
  - assert (Ha : a ∈ l').
    { apply head_Some_elem_of in Hhd. unfold entries in Hhd, Hl'.
      simpl in Hhd. rewrite Hd2, Hl' in Hhd.
      apply elem_of_app in Hhd as [?|Hhd]; [done|].
      apply list_elem_of_singleton in Hhd. by subst. }
    destruct (inv_live w Hinv a (Hold a Ha)) as (fa' & Hfa' & _).
    rewrite Hf2, (Hkeep a) in Hfa by (simpl; rewrite Hfa'; by eexists).
    simpl in Hfa. apply (Hquiet a fa (Hold a Ha) Hfa). unfold idle. lia.
Qed.

(** ** The call returns

    From a reachable state, a call for a packet of a live flow whose
    counter does not exceed its queue, made when no linked file is idle,
    returns. *)
Lemma process_returns env p w fp fl :
  cache_inv w → hint_inv w → flow p = Some fp → flows w !! fp = Some fl →
  tm_pkt_cnt fl ≤ Z.of_nat (length (tm_pkts fl)) →
  quiet (env_TimeGet env) w →
  ∃ r w', AlertPcapLogProcess env p w = Some (r, w').
Proof.
  intros Hinv Hhint Hfp Hfl Hcnt Hquiet.
  assert (Hinv0 : cache_inv (locked fp w)) by by do 2 apply emit_inv.
  assert (Hhint0 : hint_inv (locked fp w)) by by do 2 apply emit_hint.
  destruct (resolve_or_create_spec env
              (flow_names (directory (apl_data w)) fl).2
              (flow_names (directory (apl_data w)) fl).1 p (locked fp w)
              Hinv0 Hhint0)
    as (found & w1 & Hres & Hinv1 & _ & _ & _ & Hfound).
  destruct found as [cf|];
    [|do 2 eexists; by apply (process_failed _ _ _ fp fl)].
  destruct Hfound as (Hlast & _ & f & Hf & _).
  destruct (inv_live w1 Hinv1 cf (last_Some_elem_of _ _ Hlast))
    as (f' & Hf' & _ & [out Hwr] & Hout).
  rewrite Hf in Hf'. injection Hf' as <-. rewrite Hwr in Hout.
  assert (Hdrain : is_Some (drain fp fl out w1)).
  { unfold drain.
    destruct (flush_tm_pkts_total out (tm_pkts fl) (tm_pkt_cnt fl) Hcnt)
      as [[[c q] e] ->]. by eexists. }
  destruct Hdrain as [w2 Hdrain].
  pose proof (written_quiet _ _ _ _ _ _ _ _ _ _ Hinv Hhint Hquiet Hres Hf Hdrain)
    as Hev.
  do 2 eexists. by eapply process_ok.
Qed.

(** C1 (as the code has it).  For a flow whose counter agrees with its
    queue of [N] buffered packets, every call of [AlertPcapLogProcess]
    that resolves a file, newly created or already open, dumps exactly
    those [N] packets to the file's stream, in queue order and each once,
    ahead of the packet itself, and leaves the flow's queue empty.  The
    flush is not tied to the creation of the file: it runs in every call,
    and adds nothing only when the queue is empty.  A call fails only when
    the creation of the file does.  This holds of every result a call
    returns; and a call made when no linked file is idle, so that its
    sweep removes nothing, does return. *)
Theorem flush_precedes_packet env p w fp fl :
  reachable w → flow p = Some fp → flows w !! fp = Some fl →
  tm_pkt_cnt fl = Z.of_nat (length (tm_pkts fl)) →
  (quiet (env_TimeGet env) w →
   ∃ r w', AlertPcapLogProcess env p w = Some (r, w')) ∧
  ∀ r w', AlertPcapLogProcess env p w = Some (r, w') →
    (r = TM_ECODE_FAILED → creation_fails env) ∧
    (r = TM_ECODE_OK →
     ∃ cf w1 f out,
       resolve_or_create env (flow_names (directory (apl_data w)) fl).2
         (flow_names (directory (apl_data w)) fl).1 p (locked fp w)
         = Some (Some cf, w1) ∧
       files w1 !! cf = Some f ∧ output_file f = Some out ∧
       dumps (new_events w w') =
         (tm_record out <$> tm_pkts fl) ++
         [(out, packet_header p, GET_PKT_DATA p)] ∧
       flows w' !! fp = Some (with_tm 0 [] fl)).
Proof.
  intros [Hinv Hhint]%reachable_inv Hfp Hfl Hcnt.
  split; [intros Hquiet; apply (process_returns _ _ _ fp fl); auto; lia|].
  intros r w' Hrun.
  assert (Hinv0 : cache_inv (locked fp w)) by by do 2 apply emit_inv.
  assert (Hhint0 : hint_inv (locked fp w)) by by do 2 apply emit_hint.
  destruct (process_inversion _ _ _ _ _ Hrun)
    as (fp' & fl' & found & w1 & Hfp' & Hfl' & Hres & Hexit).
  rewrite Hfp in Hfp'. injection Hfp' as <-.
  rewrite Hfl in Hfl'. injection Hfl' as <-.
  destruct found as [cf|].
  - destruct Hexit as (f & out & w2 & w3 & Hf & Hout & Hdrain & Hev & -> & ->).
    split; [done|]. intros _.
    destruct (written_inv _ _ _ _ _ _ _ _ _ _ Hinv Hhint Hres Hf Hdrain)
      as [Hinv3 _].
    destruct (evict_idle_returns _ _ _ Hinv3 Hev) as [-> _].
    rewrite (drain_spec fp fl out w1 Hcnt) in Hdrain. injection Hdrain as <-.
    exists cf, w1, f, out. split_and!; try done.
    + destruct (resolve_or_create_trace _ _ _ _ _ _ _ Hinv0 Hhint0 Hres)
        as (evs & Htr1 & Hevs).
      rewrite (new_events_app w _
        ([EvLock (FLOWLOCK fp); EvLock apl_lock] ++ evs ++
         [EvLock (tm_m fp)] ++
         ((λ packet, EvPcapDump out (header packet) (data packet))
            <$> tm_pkts fl) ++
         [EvUnlock (tm_m fp); EvUnlock (FLOWLOCK fp);
          EvPcapDump out (packet_header p) (GET_PKT_DATA p); EvFflush out;
          EvUnlock apl_lock])).
      * rewrite !dumps_app, dumps_of_flush, (dumps_creation evs Hevs). done.
      * simpl. rewrite Htr1. simpl. by rewrite <- !app_assoc.
    + simpl. by rewrite lookup_insert_eq.
  - destruct Hexit as [-> ->]. split; [|done]. intros _.
    apply (resolve_or_create_failure _ _ _ _ _ _ Hinv0 Hhint0 Hres).
Qed.

(** C2.  After [resolve_or_create] returns an element for the name
    [fname], by the hint, by a promoted hit of the scan or by creation,
    that element is the tail of the queue and carries that name; resolving
    [fname] again at once returns the same element and changes nothing:
    the block, hence its writer, is the same, and the trace has no new
    [pcap_dump_open]. *)
Theorem resolved_is_tail env fname dir p w cf w1 :
  reachable w → resolve_or_create env fname dir p w = Some (Some cf, w1) →
  last (entries w1) = Some cf ∧
  (∃ f, files w1 !! cf = Some f ∧ filename f = fname) ∧
  ∀ env' dir' p', resolve_or_create env' fname dir' p' w1 = Some (Some cf, w1).
Proof.
  intros [Hinv Hhint]%reachable_inv Hres.
  destruct (resolve_or_create_spec env fname dir p w Hinv Hhint)
    as (r & w' & Hres' & _ & _ & _ & _ & Hfound).
  rewrite Hres in Hres'. injection Hres' as <- <-.
  destruct Hfound as (Hlast & Hcur & f & Hf & Hname).
  split_and!; [done|by exists f|].
  intros env' dir' p'. by apply (resolve_hit _ _ _ _ _ _ f).
Qed.

(** C3 (the code against the claim).  The sweep starts at the head of
    the queue.  With an empty queue, or a head below the threshold, it
    stops at once and removes nothing.  With an idle head it unlinks,
    closes and frees that element (lines 324-326) and then steps the loop
    by reading the link in the block it has just freed (line 318): the
    sweep does not go on to the next element by any defined behaviour.
    So a sweep that returns has removed nothing; the idle elements are not
    removed up to the first one below the threshold, as the claim has
    it. *)
Theorem evict_idle_sweep current_time w :
  reachable w →
  (∀ output f, head (entries w) = Some output → files w !! output = Some f →
     idle current_time w f → evict_idle current_time w = None) ∧
  (∀ output f, head (entries w) = Some output → files w !! output = Some f →
     tv_sec current_time - tv_sec (updated f) < timeout (apl_data w) →
     evict_idle current_time w = Some w) ∧
  (entries w = [] → evict_idle current_time w = Some w) ∧
  (∀ w', evict_idle current_time w = Some w' → w' = w).
Proof.
  intros [Hinv _]%reachable_inv.
  destruct (evict_idle_cases current_time w Hinv)
    as [[E Hstop]|[E (a & fa & Hhd & Hfa & Hidle)]]; rewrite E; split_and!.
  - intros output f Hout Hf Hi. by destruct (Hstop output f Hout Hf).
  - done.
  - done.
  - by intros w' [= <-].
  - done.
  - intros output f Hout Hf Hlt. rewrite Hhd in Hout. injection Hout as <-.
    rewrite Hfa in Hf. injection Hf as <-. unfold idle in Hidle. lia.
  - intros He. by rewrite He in Hhd.
  - done.
Qed.

(** C4 (as the code has it).  A sweep that returns has removed no element
    and leaves the hint as it was.  A turn of the sweep that removes an
    element (lines 324-329) sets the hint to [NULL], whether the element
    removed is the hinted one or any other: after the turn the element is
    unlinked, the others are linked as before, and there is no hint. *)
Theorem evict_idle_hint current_time w :
  reachable w →
  (∀ w', evict_idle current_time w = Some w' →
     entries w' = entries w ∧
     current_file (apl_data w') = current_file (apl_data w)) ∧
  (∀ output f,
     TAILQ_FIRST (pcap_files (apl_data w)) = Some output →
     files w !! output = Some f → idle current_time w f →
     current_file (apl_data (evict_entry output f w)) = None ∧
     (output ∉ entries (evict_entry output f w)) ∧
     ∀ a, a ∈ entries w → a ≠ output → a ∈ entries (evict_entry output f w)).
Proof.
  intros [Hinv _]%reachable_inv. split.
  - intros w' Hrun. by destruct (evict_idle_returns _ _ _ Hinv Hrun) as [-> _].
  - intros output f Hhd Hf Hidle. split; [done|].
    unfold entries. simpl. split.
    + intros Hin%elem_of_TAILQ_REMOVE. by destruct Hin.
    + intros a Ha Hne. by apply elem_of_TAILQ_REMOVE.
Qed.

(** C5.  When no open file has the name of the packet's flow and the
    creation of the file fails at any stage, the call returns
    [TM_ECODE_FAILED] with no lock held, and the cache is as before: the
    same hint, counter and queue, and every linked block untouched. *)
Theorem creation_failure_leaves_cache env p w fp fl :
  reachable w → flow p = Some fp → flows w !! fp = Some fl →
  (∀ a f, a ∈ entries w → files w !! a = Some f →
          filename f ≠ (flow_names (directory (apl_data w)) fl).2) →
  creation_fails env →
  ∃ w', AlertPcapLogProcess env p w = Some (TM_ECODE_FAILED, w') ∧
    locks_held (new_events w w') = [] ∧
    apl_data w' = apl_data w ∧
    (∀ a, a ∈ entries w → files w' !! a = files w !! a) ∧
    flows w' = flows w.
Proof.
  intros [Hinv Hhint]%reachable_inv Hfp Hfl Hmiss Hfail.
  set (fname := (flow_names (directory (apl_data w)) fl).2) in *.
  set (dir := (flow_names (directory (apl_data w)) fl).1).
  assert (Hinv0 : cache_inv (locked fp w)) by by do 2 apply emit_inv.
  assert (Hhint0 : hint_inv (locked fp w)) by by do 2 apply emit_hint.
  assert (Hres : ∃ w1, resolve_or_create env fname dir p (locked fp w)
                         = Some (None, w1) ∧
                       AlertPcapFileNew env fname dir p (locked fp w) = (None, w1)).
  { apply (AlertPcapFileNew_failure env fname dir p (locked fp w)) in Hfail.
    destruct (AlertPcapFileNew env fname dir p (locked fp w)) as [r w1] eqn:Hnew.
    simpl in Hfail. subst r. exists w1. split; [|done].
    destruct (resolve_or_create_cases env fname dir p (locked fp w) Hinv0 Hhint0)
      as [(cf & f & Hcur & Hf & Hname & _)|[(cf & f & Hin & Hf & Hname & _)|[_ E]]].
    - destruct (Hmiss cf f); try done. by apply hint_in_entries.
    - by destruct (Hmiss cf f).
    - by rewrite E, Hnew. }
  destruct Hres as (w1 & Hres & Hnew).
  destruct (AlertPcapFileNew_frame _ _ _ _ _ _ _ Hnew)
    as (Hd & Hflows & Hfiles & evs & Htr & Hevs).
  exists (emit [EvUnlock apl_lock; EvUnlock (FLOWLOCK fp)] w1).
  split_and!; try done.
  - by apply (process_failed _ _ _ _ fl).
  - rewrite (new_events_app w _
      ([EvLock (FLOWLOCK fp); EvLock apl_lock] ++ evs ++
       [EvUnlock apl_lock; EvUnlock (FLOWLOCK fp)])).
    + unfold locks_held. rewrite !locks_held_from_app.
      rewrite (locks_held_from_creation _ evs Hevs). simpl.
      rewrite (filter_cons_False _ apl_lock) by (intros E; by apply E).
      rewrite (filter_cons_True _ (FLOWLOCK fp)), filter_nil by done.
      by rewrite (filter_cons_False _ (FLOWLOCK fp)) by (intros E; by apply E).
    + simpl. rewrite Htr. simpl. by rewrite <- !app_assoc.
  - intros a Ha. simpl. apply Hfiles. simpl.
    destruct (inv_live w Hinv a Ha) as (f & -> & _). by eexists.
Qed.

(** C6.  In every reachable state the linked elements have pairwise
    different file names, and [resolve_or_create] links an element that
    was not linked before only when no linked element has the name it
    resolves. *)
Theorem paths_unique w :
  reachable w →
  NoDup (entry_paths w) ∧ length (entry_paths w) = length (entries w) ∧
  ∀ env fname dir p r w' a,
    resolve_or_create env fname dir p w = Some (r, w') →
    a ∈ entries w' → a ∉ entries w →
    ∀ b f, b ∈ entries w → files w !! b = Some f → filename f ≠ fname.
Proof.
  intros [Hinv Hhint]%reachable_inv.
  split; [by apply entry_paths_NoDup|]. split; [by apply entry_paths_length|].
  intros env fname dir p r w' a Hres Ha Hnew.
  destruct (resolve_or_create_cases env fname dir p w Hinv Hhint)
    as [(cf & f & _ & _ & _ & _ & E)|[(cf & f & Hin & _ & _ & E)|[Hmiss _]]];
    [rewrite E in Hres; injection Hres as <- <-; by destruct Hnew
    |rewrite E in Hres; injection Hres as <- <-|done].
  destruct Hnew. unfold entries in Ha. simpl in Ha.
  by apply elem_of_promote in Ha.
Qed.

(** C7.  From the construction on, through calls of
    [AlertPcapLogProcess], lookups with or without creation, the turns of
    the sweep that remove an element and the turns of the teardown loop,
    the counter is the number of linked elements: as a [uint32_t] it is that number modulo [2^32], hence the
    number itself whenever the number fits the 32 bits of the counter. *)
Theorem count_is_length w :
  shutting_down w →
  pcap_file_count (apl_data w) = wrap32 (Z.of_nat (length (entries w))) ∧
  (Z.of_nat (length (entries w)) < 2 ^ 32 →
   pcap_file_count (apl_data w) = Z.of_nat (length (entries w))).
Proof.
  intros Hinv%shutting_down_inv. split; [apply (inv_count w Hinv)|].
  intros Hfit. rewrite (inv_count w Hinv). apply wrap32_small. lia.
Qed.

(** C8, what the code does.  With an absolute directory configured, the
    copy of line 396 is bounded by the length of the cleared buffer, which
    is zero: the directory of the cache stays empty. *)
Theorem init_directory_absolute_lost apl_ok ctx_ok conf s d :
  ConfNodeLookupChildValue conf "directory" = Some s →
  PathIsAbsolute s = true →
  AlertPcapLogInitCtx apl_ok ctx_ok (Some conf) = Some d →
  directory d = "".
Proof.
  intros Hs Habs (_ & _ & _ & -> & _)%init_state.
  unfold init_directory. by rewrite Hs, Habs.
Qed.

(** X24.  The other branch (line 402) does join the log directory and the
    configured name, up to the size of the buffer. *)
Lemma init_directory_relative apl_ok ctx_ok conf d :
  let s_dir := default DEFAULT_DIRECTORY_NAME
                 (ConfNodeLookupChildValue conf "directory") in
  PathIsAbsolute s_dir = false →
  strlen (ConfigGetLogDirectory +:+ "/" +:+ s_dir) < PATH_MAX →
  AlertPcapLogInitCtx apl_ok ctx_ok (Some conf) = Some d →
  directory d = ConfigGetLogDirectory +:+ "/" +:+ s_dir.
Proof.
  intros s_dir Hrel Hfit (_ & _ & _ & -> & _)%init_state.
  unfold init_directory. fold s_dir.
  replace (match ConfNodeLookupChildValue conf "directory" with
           | Some s => s | None => DEFAULT_DIRECTORY_NAME end) with s_dir
    by (unfold s_dir; by destruct (ConfNodeLookupChildValue conf "directory")).
  rewrite Hrel. by apply snprintf_fits.
Qed.

(** C10.  In every reachable state the hint is [NULL] or the tail of the
    queue; so a lookup that takes the hint returns the tail and leaves
    the queue, and the whole state, as it is. *)
Theorem hint_is_tail w :
  reachable w →
  (current_file (apl_data w) = None ∨
   current_file (apl_data w) = last (entries w)) ∧
  ∀ env fname dir p cf f,
    current_file (apl_data w) = Some cf → files w !! cf = Some f →
    filename f = fname →
    resolve_or_create env fname dir p w = Some (Some cf, w) ∧
    last (entries w) = Some cf.
Proof.
  intros [_ Hhint]%reachable_inv. split.
  - destruct (current_file (apl_data w)) as [cf|] eqn:Hcur; [right|by left].
    symmetry. by apply Hhint.
  - intros env fname dir p cf f Hcur Hf Hname.
    split; [by apply (resolve_hit _ _ _ _ _ _ f)|by apply Hhint].
Qed.

(** ** The locks of one call

    A call takes the flow lock, then the lock of the cache, then, with
    both held, the lock of the flow's TimeMachine queue; it leaves with
    none of them. *)

Lemma lock_events_app (t1 t2 : list event) :
  lock_events (t1 ++ t2) = lock_events t1 ++ lock_events t2.
Proof. apply omap_app. Qed.

Lemma lock_events_creation (evs : list event) :
  Forall creation_event evs → lock_events evs = [].
Proof.
  induction 1 as [|e evs He _ IH]; [done|].
  change (e :: evs) with ([e] ++ evs).
  rewrite lock_events_app, IH. by destruct e.
Qed.

Lemma lock_events_flush (out : handle) (sent : list TimeMachinePacket) :
  lock_events ((λ packet, EvPcapDump out (header packet) (data packet))
                 <$> sent) = [].
Proof.
  induction sent as [|packet sent IH]; [done|]. rewrite fmap_cons.
  match goal with |- lock_events (?e :: ?t) = _ =>
    change (e :: t) with ([e] ++ t) end.
  by rewrite lock_events_app, IH.
Qed.

Lemma drain_trace fp fl out w w' :
  drain fp fl out w = Some w' →
  ∃ sent, trace w' = trace w ++ [EvLock (tm_m fp)] ++
            ((λ packet, EvPcapDump out (header packet) (data packet)) <$> sent)
            ++ [EvUnlock (tm_m fp)].
Proof.
  unfold drain.
  destruct (flush_tm_pkts out (tm_pkt_cnt fl) (tm_pkts fl))
    as [[[c q] e]|] eqn:Hflush; [|done].
  destruct (flush_tm_pkts_events _ _ _ _ _ _ Hflush) as [sent ->].
  simpl. intros [= <-]. exists sent. simpl. by rewrite <- !app_assoc.
Qed.

(** X22.  Within one call the locks are taken in a fixed order: the flow
    lock, the lock of the cache, then the lock of the flow's buffer; a
    successful call releases the buffer lock, the flow lock and the cache
    lock, in that order, a failed one the cache lock and then the flow
    lock. *)
Lemma lock_order env p w r w' :
  reachable w → AlertPcapLogProcess env p w = Some (r, w') →
  ∃ fp, flow p = Some fp ∧
    lock_events (new_events w w') =
      match r with
      | TM_ECODE_OK =>
        [EvLock (FLOWLOCK fp); EvLock apl_lock; EvLock (tm_m fp);
         EvUnlock (tm_m fp); EvUnlock (FLOWLOCK fp); EvUnlock apl_lock]
      | TM_ECODE_FAILED =>
        [EvLock (FLOWLOCK fp); EvLock apl_lock;
         EvUnlock apl_lock; EvUnlock (FLOWLOCK fp)]
      end.
Proof.
  intros [Hinv Hhint]%reachable_inv Hrun.
  destruct (process_inversion _ _ _ _ _ Hrun)
    as (fp & fl & found & w1 & Hfp & Hfl & Hres & Hexit).
  assert (Hinv0 : cache_inv (locked fp w)) by by do 2 apply emit_inv.
  assert (Hhint0 : hint_inv (locked fp w)) by by do 2 apply emit_hint.
  destruct (resolve_or_create_trace _ _ _ _ _ _ _ Hinv0 Hhint0 Hres)
    as (evs & Htr1 & Hevs).
  destruct (resolve_or_create_spec env
              (flow_names (directory (apl_data w)) fl).2
              (flow_names (directory (apl_data w)) fl).1 p (locked fp w)
              Hinv0 Hhint0) as (found' & w1' & Hres' & Hinv1 & _).
  rewrite Hres in Hres'. injection Hres' as <- <-.
  exists fp. split; [done|]. destruct found as [cf|].
  - destruct Hexit as (f & out & w2 & w3 & Hf & Hout & Hdrain & Hev & -> & ->).
    destruct (drain_frame _ _ _ _ _ Hdrain) as [Hd2 Hf2].
    destruct (drain_trace _ _ _ _ _ Hdrain) as [sent Htr2].
    assert (Hinv3 : cache_inv (written env p fp cf f out w2)).
    { apply touch_inv; [|simpl; by rewrite Hf2]. do 2 apply emit_inv.
      apply (cache_inv_frame w1); [done| |done]. intros. by rewrite Hf2. }
    destruct (evict_idle_returns _ _ _ Hinv3 Hev) as [-> _].
    rewrite (new_events_app w _
      ([EvLock (FLOWLOCK fp); EvLock apl_lock] ++ evs ++
       [EvLock (tm_m fp)] ++
       ((λ packet, EvPcapDump out (header packet) (data packet)) <$> sent) ++
       [EvUnlock (tm_m fp); EvUnlock (FLOWLOCK fp);
        EvPcapDump out (packet_header p) (GET_PKT_DATA p); EvFflush out;
        EvUnlock apl_lock])).
    + rewrite !lock_events_app, lock_events_flush,
        (lock_events_creation evs Hevs). done.
    + simpl. rewrite Htr2, Htr1. simpl.
      by repeat (rewrite <- !app_assoc; simpl).
  - destruct Hexit as [-> ->].
    rewrite (new_events_app w _
      ([EvLock (FLOWLOCK fp); EvLock apl_lock] ++ evs ++
       [EvUnlock apl_lock; EvUnlock (FLOWLOCK fp)])).
    + by rewrite !lock_events_app, (lock_events_creation evs Hevs).
    + simpl. rewrite Htr1. simpl. by rewrite <- !app_assoc.
Qed.

(** ** The model does not get stuck *)

(** X23.  From a reachable state, a call for a packet of a live flow
    whose counter does not exceed its queue, made when no linked file is
    idle, returns: its sweep removes nothing and so reads no block that
    has been freed. *)
Lemma process_total env p w fp fl :
  reachable w → flow p = Some fp → flows w !! fp = Some fl →
  tm_pkt_cnt fl ≤ Z.of_nat (length (tm_pkts fl)) →
  quiet (env_TimeGet env) w →
  is_Some (AlertPcapLogProcess env p w).
Proof.
  intros [Hinv Hhint]%reachable_inv Hfp Hfl Hcnt Hquiet.
  destruct (process_returns env p w fp fl Hinv Hhint Hfp Hfl Hcnt Hquiet)
    as (r & w' & ->).
  by eexists.
Qed.

End Claims.

(** * Further properties of the code *)

(** ** [AlertPcapFileNew] *)

(** X1.  [AlertPcapFileNew] returns [NULL] exactly when an allocation
    fails, or [stat] and [MakePath] both fail and [errno] is not
    [EEXIST], or [pcap_open_dead] or [pcap_dump_open] fails; a failure of
    [MakePath] with [EEXIST] is let through. *)
Theorem AlertPcapFileNew_null_iff env fname dir p w :
  (AlertPcapFileNew env fname dir p w).1 = None ↔
  env_SCMalloc env = None ∨ env_SCCalloc env = false ∨
  (env_stat env ≠ 0 ∧ env_MakePath env ≠ 0 ∧ env_errno env ≠ EEXIST) ∨
  env_pcap_open_dead env = None ∨ env_pcap_dump_open env = None.
Proof. apply AlertPcapFileNew_failure. Qed.

Lemma AlertPcapFileNew_fields env fname dir p w cf w' :
  AlertPcapFileNew env fname dir p w = (Some cf, w') →
  files w !! cf = None ∧
  (∃ f, files w' = <[cf := f]> (files w) ∧ filename f = fname ∧
        is_Some (pcap_file f) ∧ pcap_file f = env_pcap_open_dead env ∧
        is_Some (pcap_writer f) ∧ pcap_writer f = env_pcap_dump_open env ∧
        output_file f = pcap_writer f) ∧
  apl_data w' = apl_data w ∧ flows w' = flows w ∧
  opens (new_events w w') = [fname].
Proof.
  intros E.
  destruct (AlertPcapFileNew_frame _ _ _ _ _ _ _ E) as (Hd & Hfl & _ & _).
  split_and!; try done; revert E; unfold AlertPcapFileNew, new_events;
    destruct (env_SCMalloc env) as [junk|]; try done;
    destruct (env_SCCalloc env); simpl; try done;
    destruct (env_stat env =? 0), (env_MakePath env =? 0),
      (env_errno env =? EEXIST), (env_pcap_open_dead env),
      (env_pcap_dump_open env); simpl; try done; intros [= <- <-]; simpl;
    rewrite ?snprintf_copy, <- ?app_assoc, ?drop_app_length;
    first [ apply fresh_block | done
          | eexists; split_and!; try done; by rewrite snprintf_copy ].
Qed.

(** X2.  On success the block returned is a new one; it holds a copy of
    the file name, the two handles libpcap returned and the stream of the
    dumper; no other block, no field of the cache and no flow changes, and
    the trace gains one [pcap_dump_open], of that file name. *)
Theorem AlertPcapFileNew_block env fname dir p w cf w' :
  AlertPcapFileNew env fname dir p w = (Some cf, w') →
  files w !! cf = None ∧
  (∃ f, files w' = <[cf := f]> (files w) ∧ filename f = fname ∧
        is_Some (pcap_file f) ∧ pcap_file f = env_pcap_open_dead env ∧
        is_Some (pcap_writer f) ∧ pcap_writer f = env_pcap_dump_open env ∧
        output_file f = pcap_writer f) ∧
  apl_data w' = apl_data w ∧ flows w' = flows w ∧
  opens (new_events w w') = [fname].
Proof. apply AlertPcapFileNew_fields. Qed.

(** X3.  A failure after the first allocation never frees the block: the
    store gains the new block, every other block and the cache are as
    before, and the new block is not in the queue (whose elements were all
    live before the call). *)
Theorem AlertPcapFileNew_leak env fname dir p w w' :
  is_Some (env_SCMalloc env) →
  AlertPcapFileNew env fname dir p w = (None, w') →
  files w !! fresh (dom (files w)) = None ∧
  is_Some (files w' !! fresh (dom (files w))) ∧
  size (files w') = S (size (files w)) ∧
  (∀ a, is_Some (files w !! a) → files w' !! a = files w !! a) ∧
  apl_data w' = apl_data w ∧
  ((∀ a, a ∈ entries w → is_Some (files w !! a)) →
   fresh (dom (files w)) ∉ entries w').
Proof.
  intros [junk Hm] E.
  destruct (AlertPcapFileNew_frame _ _ _ _ _ _ _ E) as (Hd & _ & Hfr & _).
  pose proof (fresh_block w) as Hfresh.
  assert (Hnew : ∃ o, files w' = <[fresh (dom (files w)) := o]> (files w)).
  { revert E. unfold AlertPcapFileNew. rewrite Hm.
    destruct (env_SCCalloc env); simpl; [|intros [= <-]; by eexists].
    destruct (env_stat env =? 0), (env_MakePath env =? 0),
      (env_errno env =? EEXIST), (env_pcap_open_dead env),
      (env_pcap_dump_open env); simpl; try done; intros [= <-]; by eexists. }
  destruct Hnew as [o Hnew]. split_and!; try done.
  - rewrite Hnew, lookup_insert_eq. by eexists.
  - rewrite Hnew. by apply map_size_insert_None.
  - intros Hlive Hin. unfold entries in Hin. rewrite Hd in Hin.
    destruct (Hlive _ Hin) as [f Hf]. congruence.
Qed.

Section Construction.
Context `{Externals}.

(** ** [AlertPcapLogInitCtx] *)

(** X4.  A cache built from a configuration node has a timeout of at
    least one second that fits 32 bits: 300 when no timeout is
    configured, else the configured number. *)
Theorem init_timeout_range apl_ok ctx_ok c d :
  AlertPcapLogInitCtx apl_ok ctx_ok (Some c) = Some d →
  1 ≤ timeout d < 2 ^ 32 ∧
  (ConfNodeLookupChildValue c "timeout" = None →
   timeout d = DEFAULT_FILE_TIMEOUT) ∧
  (∀ s v, ConfNodeLookupChildValue c "timeout" = Some s →
          ByteExtractStringUint32 s = Some v → timeout d = wrap32 v).
Proof.
  intros (_ & _ & _ & _ & Ht)%init_state. revert Ht.
  unfold init_timeout.
  destruct (ConfNodeLookupChildValue c "timeout") as [s|].
  - destruct (ByteExtractStringUint32 s) as [v|] eqn:Hv; [|done].
    destruct (Z.ltb_spec (wrap32 v) 1) as [|Hge]; [done|]. intros [= <-].
    split_and!; [done|apply Z.mod_pos_bound; lia|done|].
    intros s' v' [= <-] Hv'. rewrite Hv in Hv'. by injection Hv' as <-.
  - intros [= <-]. unfold DEFAULT_FILE_TIMEOUT. split_and!; try done; lia.
Qed.

(** X5.  A configured timeout that does not parse, or that is zero, ends
    the process: no cache is built. *)
Theorem init_rejects_timeout apl_ok ctx_ok c s :
  ConfNodeLookupChildValue c "timeout" = Some s →
  (ByteExtractStringUint32 s = None ∨
   ∃ v, ByteExtractStringUint32 s = Some v ∧ wrap32 v = 0) →
  AlertPcapLogInitCtx apl_ok ctx_ok (Some c) = None.
Proof.
  intros Hs Hbad. unfold AlertPcapLogInitCtx, init_timeout. rewrite Hs.
  destruct apl_ok; [simpl|done].
  destruct Hbad as [->|(v & -> & Hv)]; [done|]. by rewrite Hv.
Qed.

(** X6.  Built without a configuration node, the cache has the empty
    string as directory and a timeout of zero. *)
Theorem init_without_conf apl_ok ctx_ok d :
  AlertPcapLogInitCtx apl_ok ctx_ok None = Some d →
  directory d = "" ∧ timeout d = 0 ∧ pcap_files d = [] ∧
  pcap_file_count d = 0 ∧ current_file d = None.
Proof.
  intros (Hc & Hn & Hl & Hd & Ht)%init_state.
  simpl in Hd, Ht. injection Ht as Ht. by rewrite Hd, <- Ht.
Qed.

(** ** The names of a flow *)

Lemma length_substring_le (s : string) (n : nat) :
  (String.length (String.substring 0 n s) ≤ n)%nat.
Proof.
  revert n. induction s as [|c s IH]; intros [|n]; simpl; try lia.
  specialize (IH n). lia.
Qed.

Lemma strlen_snprintf (buf s : string) (size : Z) :
  0 < size → strlen (snprintf buf size s) < size.
Proof.
  intros Hpos. unfold snprintf, strlen.
  destruct (Z.eqb_spec size 0) as [->|_]; [lia|].
  pose proof (length_substring_le s (Z.to_nat (size - 1))). lia.
Qed.

Lemma substring_app (a b : string) (n : nat) :
  (String.length a ≤ n)%nat →
  String.substring 0 n (a +:+ b) =
  a +:+ String.substring 0 (n - String.length a) b.
Proof.
  revert n. induction a as [|c a IH]; intros n Hle; simpl.
  - by rewrite Nat.sub_0_r.
  - destruct n as [|n]; [simpl in Hle; lia|]. simpl.
    by rewrite IH by (simpl in Hle; lia).
Qed.

Lemma prefix_app (a b : string) : String.prefix a (a +:+ b) = true.
Proof.
  induction a as [|c a IH]; simpl; [by destruct b|].
  by destruct (ascii_dec c c).
Qed.

Lemma substring_app_short (a b : string) (n : nat) :
  (n ≤ String.length a)%nat →
  String.substring 0 n (a +:+ b) = String.substring 0 n a.
Proof.
  revert n. induction a as [|c a IH]; intros n Hle; simpl in *.
  - assert (n = 0%nat) as -> by lia. by destruct b.
  - destruct n as [|n]; [done|]. simpl. by rewrite IH by lia.
Qed.

Lemma length_substring (a : string) (n : nat) :
  (n ≤ String.length a)%nat → String.length (String.substring 0 n a) = n.
Proof.
  revert n. induction a as [|c a IH]; intros n Hle; simpl in *.
  - by assert (n = 0%nat) as -> by lia.
  - destruct n as [|n]; [done|]. simpl. by rewrite IH by lia.
Qed.

(** X7.  The directory and the file name of a flow always fit their
    buffers of [PATH_MAX] bytes, and the file name starts with the
    directory, whatever is cut off. *)
Theorem flow_names_fit (root : string) (fl : Flow) :
  strlen (flow_names root fl).1 < PATH_MAX ∧
  strlen (flow_names root fl).2 < PATH_MAX ∧
  String.prefix (flow_names root fl).1 (flow_names root fl).2 = true.
Proof.
  unfold flow_names.
  destruct (match flow_ip fl with
            | IPV4 => _ | IPV6 => _ | IP_OTHER => _ end) as [srcip dstip].
  set (dir := snprintf "" PATH_MAX _).
  assert (Hdir : strlen dir < PATH_MAX) by (by apply strlen_snprintf).
  assert (Hpre : ∀ rest,
    String.prefix dir (snprintf "" PATH_MAX (dir +:+ rest)) = true).
  { intros rest. unfold snprintf at 1.
    change (PATH_MAX =? 0) with false. cbv iota.
    rewrite substring_app by (unfold strlen, PATH_MAX in *; lia).
    apply prefix_app. }
  destruct (proto fl =? IPPROTO_ICMP); simpl;
    (split_and!; [done|by apply strlen_snprintf|apply Hpre]).
Qed.

(** X19.  A root directory that fills its buffer leaves no room for the
    rest of the names: the directory and the file name of every flow are
    then the root itself, cut to [PATH_MAX - 1] characters, so that all
    flows share one file name. *)
Theorem long_root_one_file (root : string) (fl fl' : Flow) :
  PATH_MAX - 1 ≤ strlen root →
  (flow_names root fl).1 = snprintf "" PATH_MAX root ∧
  (flow_names root fl).2 = snprintf "" PATH_MAX root ∧
  (flow_names root fl).2 = (flow_names root fl').2.
Proof.
  intros Hlong.
  assert (Hcut : ∀ rest, snprintf "" PATH_MAX (root +:+ rest)
                         = snprintf "" PATH_MAX root).
  { intros rest. unfold snprintf. change (PATH_MAX =? 0) with false. cbv iota.
    apply substring_app_short. unfold strlen, PATH_MAX in *. lia. }
  assert (Hlen : String.length (snprintf "" PATH_MAX root)
                 = Z.to_nat (PATH_MAX - 1)).
  { unfold snprintf. change (PATH_MAX =? 0) with false. cbv iota.
    apply length_substring. unfold strlen, PATH_MAX in *. lia. }
  assert (Hfull : ∀ rest,
    snprintf "" PATH_MAX (snprintf "" PATH_MAX root +:+ rest)
    = snprintf "" PATH_MAX root).
  { intros rest. unfold snprintf at 1. change (PATH_MAX =? 0) with false.
    cbv iota. rewrite substring_app_short by lia.
    apply substring_fits. lia. }
  assert (Hnames : ∀ g, flow_names root g
            = (snprintf "" PATH_MAX root, snprintf "" PATH_MAX root)).
  { intros g. unfold flow_names.
    destruct (match flow_ip g with
              | IPV4 => _ | IPV6 => _ | IP_OTHER => _ end) as [srcip dstip].
    rewrite !Hcut. destruct (proto g =? IPPROTO_ICMP); by rewrite Hfull. }
  by rewrite !Hnames.
Qed.

End Construction.

(** ** The events of a call *)

Lemma opens_app (t1 t2 : list event) : opens (t1 ++ t2) = opens t1 ++ opens t2.
Proof. apply omap_app. Qed.

Lemma opens_flush (out : handle) (sent : list TimeMachinePacket) :
  opens ((λ packet, EvPcapDump out (header packet) (data packet)) <$> sent)
  = [].
Proof.
  induction sent as [|packet sent IH]; [done|]. rewrite fmap_cons.
  match goal with |- opens (?e :: ?t) = _ =>
    change (e :: t) with ([e] ++ t) end.
  by rewrite opens_app, IH.
Qed.

Lemma drain_flows fp fl out w w' :
  drain fp fl out w = Some w' →
  ∃ cnt pkts, flows w' = <[fp := with_tm cnt pkts fl]> (flows w).
Proof.
  unfold drain.
  destruct (flush_tm_pkts out (tm_pkt_cnt fl) (tm_pkts fl))
    as [[[c q] e]|]; [|done].
  simpl. intros [= <-]. by exists c, q.
Qed.

(** ** The flush, whatever the counter *)

Lemma flush_tm_pkts_prefix (out : handle) (pkts : list TimeMachinePacket) :
  ∀ cnt, cnt ≤ Z.of_nat (length pkts) →
  flush_tm_pkts out cnt pkts =
  Some (Z.min cnt 0, drop (Z.to_nat cnt) pkts,
        (λ packet, EvPcapDump out (header packet) (data packet))
          <$> take (Z.to_nat cnt) pkts).
Proof.
  induction pkts as [|packet pkts IH]; intros cnt Hle.
  - rewrite flush_tm_pkts_none by (simpl in Hle; lia).
    simpl in Hle. rewrite Z.min_l by lia. by rewrite drop_nil, take_nil.
  - cbn [flush_tm_pkts]. destruct (Z.ltb_spec 0 cnt) as [Hpos|Hneg].
    + rewrite IH by (simpl in Hle; lia). simpl.
      replace (Z.to_nat cnt) with (S (Z.to_nat (cnt - 1))) by lia.
      simpl. do 3 f_equal. lia.
    + rewrite Z.min_l by lia.
      replace (Z.to_nat cnt) with 0%nat by lia. done.
Qed.

Lemma flush_tm_pkts_overrun (out : handle) (pkts : list TimeMachinePacket) :
  ∀ cnt, Z.of_nat (length pkts) < cnt → flush_tm_pkts out cnt pkts = None.
Proof.
  induction pkts as [|packet pkts IH]; intros cnt Hlt; cbn [flush_tm_pkts];
    destruct (Z.ltb_spec 0 cnt) as [Hpos|Hneg]; try (simpl in Hlt; lia);
    [done|].
  by rewrite IH by (simpl in Hlt; lia).
Qed.

(** ** Time stamps in queue order *)

Lemma StronglySorted_sublist {A} (R : relation A) (l1 l2 : list A) :
  sublist l1 l2 → StronglySorted R l2 → StronglySorted R l1.
Proof.
  induction 1 as [|x l1 l2 Hs IH|x l1 l2 Hs IH]; intros Hsorted.
  - constructor.
  - apply StronglySorted_cons in Hsorted as [Hall Hsorted].
    apply StronglySorted_cons. split; [|auto].
    apply Forall_forall. intros y Hy.
    apply (proj1 (Forall_forall _ _) Hall). by eapply elem_of_sublist.
  - apply StronglySorted_cons in Hsorted as [_ Hsorted]. auto.
Qed.

Lemma StronglySorted_impl_in {A} (R R' : relation A) (l : list A) :
  (∀ a b, a ∈ l → b ∈ l → R a b → R' a b) →
  StronglySorted R l → StronglySorted R' l.
Proof.
  induction l as [|x l IH]; intros Himpl Hsorted; [constructor|].
  apply StronglySorted_cons in Hsorted as [Hall Hsorted].
  apply StronglySorted_cons. split.
  - apply Forall_forall. intros y Hy. apply Himpl; [by left|by right|].
    by apply (proj1 (Forall_forall _ _) Hall).
  - apply IH; [|done]. intros a b Ha Hb. apply Himpl; by right.
Qed.

Lemma foldr_delete_comm (fs : gmap addr AlertPcapFile) (a : addr)
    (l : list addr) :
  foldr delete (delete a fs) l = delete a (foldr delete fs l).
Proof.
  induction l as [|b l IH]; [done|]. simpl. rewrite IH. apply delete_delete.
Qed.

Section Calls.
Context `{Externals}.

(** ** The parts of a successful call *)

Lemma process_ok_view env p w w' :
  cache_inv w → hint_inv w →
  AlertPcapLogProcess env p w = Some (TM_ECODE_OK, w') →
  ∃ fp fl cf f out w1 w2,
    let fname := (flow_names (directory (apl_data w)) fl).2 in
    let dir := (flow_names (directory (apl_data w)) fl).1 in
    let ww := written env p fp cf f out w2 in
    flow p = Some fp ∧ flows w !! fp = Some fl ∧
    resolve_or_create env fname dir p (locked fp w) = Some (Some cf, w1) ∧
    cache_inv w1 ∧ files w1 !! cf = Some f ∧ filename f = fname ∧
    output_file f = Some out ∧ pcap_writer f = Some out ∧
    drain fp fl out w1 = Some w2 ∧
    apl_data w2 = apl_data w1 ∧ files w2 = files w1 ∧
    cache_inv ww ∧
    (∀ a fa, head (entries ww) = Some a → files ww !! a = Some fa →
             ¬ idle (env_TimeGet env) ww fa) ∧
    w' = emit [EvUnlock apl_lock] ww.
Proof.
  intros Hinv Hhint Hrun.
  destruct (process_inversion _ _ _ _ _ Hrun)
    as (fp & fl & found & w1 & Hfp & Hfl & Hres & Hexit).
  destruct found as [cf|]; [|by destruct Hexit].
  destruct Hexit as (f & out & w2 & w3 & Hf & Hout & Hdrain & Hev & _ & ->).
  assert (Hinv0 : cache_inv (locked fp w)) by by do 2 apply emit_inv.
  assert (Hhint0 : hint_inv (locked fp w)) by by do 2 apply emit_hint.
  destruct (resolve_or_create_spec env
              (flow_names (directory (apl_data w)) fl).2
              (flow_names (directory (apl_data w)) fl).1 p (locked fp w)
              Hinv0 Hhint0)
    as (found' & w1' & Hres' & Hinv1 & _ & _ & _ & Hfound).
  rewrite Hres in Hres'. injection Hres' as <- <-.
  destruct Hfound as (Hlast & _ & f' & Hf' & Hname).
  rewrite Hf in Hf'. injection Hf' as <-.
  destruct (inv_live w1 Hinv1 cf (last_Some_elem_of _ _ Hlast))
    as (f' & Hf' & _ & _ & Hwr).
  rewrite Hf in Hf'. injection Hf' as <-. rewrite Hout in Hwr.
  destruct (drain_frame _ _ _ _ _ Hdrain) as [Hd2 Hf2].
  destruct (written_inv _ _ _ _ _ _ _ _ _ _ Hinv Hhint Hres Hf Hdrain)
    as [Hinv3 _].
  destruct (evict_idle_returns _ _ _ Hinv3 Hev) as [-> Hstop].
  exists fp, fl, cf, f, out, w1, w2. simpl.
  split_and!; done.
Qed.

Lemma foldr_delete_kept (fs : gmap addr AlertPcapFile) (gone : list addr)
    (a : addr) :
  a ∉ gone → foldr delete fs gone !! a = fs !! a.
Proof. apply lookup_foldr_delete_not_elem_of. Qed.

(** X8.  With a timeout of at least one second, a successful call leaves
    the file of the packet's flow open: it is the last element of the
    queue, it carries the flow's file name, and its time stamp is the time
    of the call. *)
Theorem written_file_stays env p w w' :
  reachable w → 0 < timeout (apl_data w) →
  AlertPcapLogProcess env p w = Some (TM_ECODE_OK, w') →
  ∃ fp fl cf f,
    flow p = Some fp ∧ flows w !! fp = Some fl ∧
    last (entries w') = Some cf ∧ files w' !! cf = Some f ∧
    filename f = (flow_names (directory (apl_data w)) fl).2 ∧
    updated f = env_TimeGet env.
Proof.
  intros [Hinv Hhint]%reachable_inv Hto Hrun.
  destruct (process_ok_view _ _ _ _ Hinv Hhint Hrun)
    as (fp & fl & cf & f & out & w1 & w2 & Hv).
  cbv zeta in Hv.
  destruct Hv as (Hfp & Hfl & Hres & Hinv1 & Hf & Hname & Hout & Hwr & Hdrain
    & Hd2 & Hf2 & Hinvw & Hstop & ->).
  assert (Hinv0 : cache_inv (locked fp w)) by by do 2 apply emit_inv.
  assert (Hhint0 : hint_inv (locked fp w)) by by do 2 apply emit_hint.
  destruct (resolve_or_create_queue _ _ _ _ _ _ _ Hinv0 Hhint0 Hres)
    as (_ & _ & l' & Hl' & _).
  exists fp, fl, cf, (with_updated (env_TimeGet env) f).
  split_and!; try done.
  - unfold entries in *. simpl. rewrite Hd2, Hl'. apply last_snoc.
  - simpl. apply lookup_insert_eq.
Qed.

(** X9.  With a timeout of zero, which is what a cache built without a
    configuration node has, no call made when no linked file has a time
    stamp in the future returns [TM_ECODE_OK].  Whatever file its sweep
    finds at the head of the queue is idle, the one just written
    included: the sweep removes it and then reads the link in the block
    it has freed.  Either the call fails because the creation of the file
    does, or it does not return. *)
Theorem zero_timeout_never_ok env p w :
  reachable w → timeout (apl_data w) = 0 →
  (∀ a f, a ∈ entries w → files w !! a = Some f →
          tv_sec (updated f) ≤ tv_sec (env_TimeGet env)) →
  AlertPcapLogProcess env p w = None ∨
  ∃ w', AlertPcapLogProcess env p w = Some (TM_ECODE_FAILED, w') ∧
        creation_fails env.
Proof.
  intros [Hinv Hhint]%reachable_inv Hto Hpast.
  destruct (AlertPcapLogProcess env p w) as [[r w']|] eqn:Hrun; [|by left].
  destruct r.
  - exfalso.
    destruct (process_ok_view _ _ _ _ Hinv Hhint Hrun)
      as (fp & fl & cf & f & out & w1 & w2 & Hv).
    cbv zeta in Hv.
    destruct Hv as (Hfp & Hfl & Hres & Hinv1 & Hf & Hname & Hout & Hwr
      & Hdrain & Hd2 & Hf2 & Hinvw & Hstop & ->).
    assert (Hinv0 : cache_inv (locked fp w)) by by do 2 apply emit_inv.
    assert (Hhint0 : hint_inv (locked fp w)) by by do 2 apply emit_hint.
    destruct (resolve_or_create_queue _ _ _ _ _ _ _ Hinv0 Hhint0 Hres)
      as (_ & Hto1 & l' & Hl' & _ & _ & Hold & _).
    destruct (resolve_or_create_post _ _ _ _ _ _ _ Hinv0 Hhint0 Hres)
      as (_ & _ & _ & Hkeep & _).
    set (ww := written env p fp cf f out w2) in *.
    assert (Hww : entries ww = l' ++ [cf]).
    { unfold entries in *. simpl. by rewrite Hd2. }
    assert (Htoww : timeout (apl_data ww) = 0).
    { simpl. rewrite Hd2, Hto1. done. }
    destruct (entries ww) as [|a rest] eqn:He; [by destruct l'|].
    assert (Ha : a ∈ l' ++ [cf]) by (rewrite <- Hww; by left).
    destruct (inv_live ww Hinvw a) as (fa & Hfa & _); [rewrite He; by left|].
    apply (Hstop a fa eq_refl Hfa). unfold idle. rewrite Htoww.
    unfold ww in Hfa. rewrite written_lookup in Hfa.
    destruct (decide (cf = a)) as [->|Hne].
    + injection Hfa as <-. simpl. lia.
    + apply elem_of_app in Ha as [Ha|Ha%list_elem_of_singleton];
        [|congruence].
      rewrite Hf2 in Hfa.
      destruct (inv_live w Hinv a (Hold a Ha)) as (fa' & Hfa' & _).
      rewrite (Hkeep a) in Hfa by (simpl; rewrite Hfa'; by eexists).
      simpl in Hfa. specialize (Hpast a fa (Hold a Ha) Hfa). lia.
  - right. exists w'. split; [done|].
    destruct (process_inversion _ _ _ _ _ Hrun)
      as (fp & fl & found & w1 & Hfp & Hfl & Hres & Hexit).
    destruct found as [cf|];
      [by destruct Hexit as (? & ? & ? & ? & _ & _ & _ & _ & ? & _)|].
    assert (Hinv0 : cache_inv (locked fp w)) by by do 2 apply emit_inv.
    assert (Hhint0 : hint_inv (locked fp w)) by by do 2 apply emit_hint.
    apply (resolve_or_create_failure _ _ _ _ _ _ Hinv0 Hhint0 Hres).
Qed.

(** The events of a successful call: the two locks, the events [evs] of the
    lookup, the flush of the packets [sent] under the lock of the queue,
    the packet and the release of the cache. *)
Lemma process_ok_events env p w w' :
  cache_inv w → hint_inv w →
  AlertPcapLogProcess env p w = Some (TM_ECODE_OK, w') →
  ∃ fp fl cf f out w1 evs sent,
    flow p = Some fp ∧ flows w !! fp = Some fl ∧
    resolve_or_create env (flow_names (directory (apl_data w)) fl).2
      (flow_names (directory (apl_data w)) fl).1 p (locked fp w)
      = Some (Some cf, w1) ∧
    files w1 !! cf = Some f ∧ output_file f = Some out ∧
    trace w1 = trace (locked fp w) ++ evs ∧ Forall creation_event evs ∧
    new_events w w' =
      [EvLock (FLOWLOCK fp); EvLock apl_lock] ++ evs ++
      [EvLock (tm_m fp)] ++
      ((λ packet, EvPcapDump out (header packet) (data packet)) <$> sent) ++
      [EvUnlock (tm_m fp); EvUnlock (FLOWLOCK fp);
       EvPcapDump out (packet_header p) (GET_PKT_DATA p); EvFflush out;
       EvUnlock apl_lock].
Proof.
  intros Hinv Hhint Hrun.
  destruct (process_ok_view _ _ _ _ Hinv Hhint Hrun)
    as (fp & fl & cf & f & out & w1 & w2 & Hv).
  cbv zeta in Hv.
  destruct Hv as (Hfp & Hfl & Hres & Hinv1 & Hf & Hname & Hout & Hwr & Hdrain
    & Hd2 & Hf2 & Hinvw & Hstop & ->).
  assert (Hinv0 : cache_inv (locked fp w)) by by do 2 apply emit_inv.
  assert (Hhint0 : hint_inv (locked fp w)) by by do 2 apply emit_hint.
  destruct (resolve_or_create_trace _ _ _ _ _ _ _ Hinv0 Hhint0 Hres)
    as (evs & Htr1 & Hevs).
  destruct (drain_trace _ _ _ _ _ Hdrain) as [sent Htr2].
  exists fp, fl, cf, f, out, w1, evs, sent.
  split_and!; try done.
  apply new_events_app. simpl. rewrite Htr2, Htr1.
  simpl. by repeat (rewrite <- !app_assoc; simpl).
Qed.

(** X10.  When a linked file has the name of the packet's flow, the call
    succeeds without opening anything: the trace gains no
    [pcap_dump_open], and every record the call dumps goes to the stream
    of that file. *)
Theorem open_file_is_reused env p w fp fl a f out r w' :
  reachable w → flow p = Some fp → flows w !! fp = Some fl →
  a ∈ entries w → files w !! a = Some f →
  filename f = (flow_names (directory (apl_data w)) fl).2 →
  output_file f = Some out →
  AlertPcapLogProcess env p w = Some (r, w') →
  r = TM_ECODE_OK ∧ opens (new_events w w') = [] ∧
  Forall (λ d, d.1.1 = out) (dumps (new_events w w')).
Proof.
  intros [Hinv Hhint]%reachable_inv Hfp Hfl Ha Hf Hname Hout Hrun.
  assert (Hinv0 : cache_inv (locked fp w)) by by do 2 apply emit_inv.
  assert (Hhint0 : hint_inv (locked fp w)) by by do 2 apply emit_hint.
  set (fname := (flow_names (directory (apl_data w)) fl).2) in *.
  set (dir := (flow_names (directory (apl_data w)) fl).1) in *.
  destruct r.
  - split; [done|].
    destruct (process_ok_events _ _ _ _ Hinv Hhint Hrun)
      as (fp' & fl' & cf & f' & out' & w1 & evs & sent & Hfp' & Hfl'
          & Hres & Hf' & Hout' & Htr1 & Hevs & ->).
    rewrite Hfp in Hfp'. injection Hfp' as <-.
    rewrite Hfl in Hfl'. injection Hfl' as <-.
    fold fname dir in Hres.
    destruct (resolve_or_create_queue _ _ _ _ _ _ _ Hinv0 Hhint0 Hres)
      as (_ & _ & l' & Hl' & _ & _ & _ & Hcase).
    destruct (resolve_or_create_spec env fname dir p (locked fp w) Hinv0 Hhint0)
      as (r' & w1' & Hres' & Hinv1 & _ & _ & Hkeep & Hfound).
    rewrite Hres in Hres'. injection Hres' as <- <-.
    destruct Hfound as (_ & _ & f'' & Hf'' & Hname').
    rewrite Hf' in Hf''. injection Hf'' as <-.
    destruct Hcase as [(Hin & Htr & Hfs)|(Hnone & _ & _)].
    + (* the element resolved is linked in [w]: it is [a] *)
      assert (Hevs0 : evs = []).
      { apply (app_inv_head (trace (locked fp w))).
        by rewrite app_nil_r, <- Htr1, Htr. }
      rewrite Hfs in Hf'. simpl in Hf'.
      assert (cf = a) as -> by (apply (inv_paths w Hinv cf a f' f);
                                 try done; congruence).
      rewrite Hf in Hf'. injection Hf' as <-.
      rewrite Hout in Hout'. injection Hout' as <-.
      subst evs. split.
      * rewrite !opens_app, opens_flush. done.
      * rewrite !dumps_app, dumps_of_flush. simpl.
        apply Forall_app. split; [|by repeat constructor].
        apply Forall_fmap. by apply Forall_true.
    + (* a new element would share its name with [a] *)
      exfalso.
      destruct (resolve_or_create_cases env fname dir p (locked fp w)
                  Hinv0 Hhint0)
        as [(c & fc & _ & Hfc & _ & _ & E)|[(c & fc & Hc & Hfc & _ & E)|[Hmiss _]]].
      * rewrite E in Hres. injection Hres as <- <-. congruence.
      * rewrite E in Hres. injection Hres as <- <-. congruence.
      * by apply (Hmiss a f).
  - exfalso.
    destruct (process_inversion _ _ _ _ _ Hrun)
      as (fp' & fl' & found & w1 & Hfp' & Hfl' & Hres & Hexit).
    rewrite Hfp in Hfp'. injection Hfp' as <-.
    rewrite Hfl in Hfl'. injection Hfl' as <-.
    destruct found as [cf|];
      [by destruct Hexit as (? & ? & ? & ? & _ & _ & _ & _ & ? & _)|].
    fold fname dir in Hres.
    destruct (resolve_or_create_spec env fname dir p (locked fp w) Hinv0 Hhint0)
      as (r' & w1' & Hres' & _ & _ & _ & _ & Hfound).
    rewrite Hres in Hres'. injection Hres' as <- <-.
    destruct Hfound as [_ Hmiss]. by apply (Hmiss a f).
Qed.

(** X11.  When no linked file has the name of the packet's flow, a
    successful call opens exactly one file, of that name, and every record
    it dumps goes to the stream [pcap_dump_open] has just returned. *)
Theorem missing_file_is_opened env p w fp fl w' :
  reachable w → flow p = Some fp → flows w !! fp = Some fl →
  (∀ a f, a ∈ entries w → files w !! a = Some f →
          filename f ≠ (flow_names (directory (apl_data w)) fl).2) →
  AlertPcapLogProcess env p w = Some (TM_ECODE_OK, w') →
  opens (new_events w w') = [(flow_names (directory (apl_data w)) fl).2] ∧
  ∃ out, env_pcap_dump_open env = Some out ∧
         Forall (λ d, d.1.1 = out) (dumps (new_events w w')).
Proof.
  intros [Hinv Hhint]%reachable_inv Hfp Hfl Hmiss Hrun.
  assert (Hinv0 : cache_inv (locked fp w)) by by do 2 apply emit_inv.
  assert (Hhint0 : hint_inv (locked fp w)) by by do 2 apply emit_hint.
  set (fname := (flow_names (directory (apl_data w)) fl).2) in *.
  set (dir := (flow_names (directory (apl_data w)) fl).1) in *.
  destruct (process_ok_events _ _ _ _ Hinv Hhint Hrun)
    as (fp' & fl' & cf & f' & out' & w1 & evs & sent & Hfp' & Hfl'
        & Hres & Hf' & Hout' & Htr1 & Hevs & ->).
  rewrite Hfp in Hfp'. injection Hfp' as <-.
  rewrite Hfl in Hfl'. injection Hfl' as <-.
  fold fname dir in Hres.
  destruct (resolve_or_create_cases env fname dir p (locked fp w) Hinv0 Hhint0)
    as [(c & fc & Hcur & Hfc & Hn & _ & E)|[(c & fc & Hc & Hfc & Hn & E)|[_ E]]].
  - destruct (Hmiss c fc); try done. by apply (hint_in_entries _ _ Hhint0).
  - by destruct (Hmiss c fc).
  - rewrite E in Hres.
    destruct (AlertPcapFileNew env fname dir p (locked fp w))
      as [[c|] wn] eqn:Hnew; [|done].
    injection Hres as <- <-.
    destruct (AlertPcapFileNew_fields _ _ _ _ _ _ _ Hnew)
      as (_ & (f & Hfs & _ & _ & _ & _ & Hwr & Hof) & _ & _ & Hopen).
    simpl in Hf'. rewrite Hfs, lookup_insert_eq in Hf'. injection Hf' as <-.
    rewrite Hof, Hwr in Hout'.
    assert (Hevs' : opens evs = [fname]).
    { rewrite <- Hopen. f_equal. symmetry. by apply new_events_app. }
    split.
    + rewrite !opens_app, opens_flush, Hevs'. done.
    + exists out'. split; [done|].
      rewrite !dumps_app, dumps_of_flush, (dumps_creation evs Hevs).
      simpl. apply Forall_app. split; [|by repeat constructor].
      apply Forall_fmap. by apply Forall_true.
Qed.

(** X12.  A call never changes the configuration of the cache: the
    directory and the timeout are after the call what they were before,
    whatever the call returns. *)
Theorem configuration_is_kept env p w r w' :
  reachable w → AlertPcapLogProcess env p w = Some (r, w') →
  directory (apl_data w') = directory (apl_data w) ∧
  timeout (apl_data w') = timeout (apl_data w).
Proof.
  intros [Hinv Hhint]%reachable_inv Hrun.
  destruct (process_inversion _ _ _ _ _ Hrun)
    as (fp & fl & found & w1 & Hfp & Hfl & Hres & Hexit).
  assert (Hinv0 : cache_inv (locked fp w)) by by do 2 apply emit_inv.
  assert (Hhint0 : hint_inv (locked fp w)) by by do 2 apply emit_hint.
  destruct (resolve_or_create_conf _ _ _ _ _ _ _ Hinv0 Hhint0 Hres)
    as [Hd1 Ht1].
  destruct found as [cf|]; [|by destruct Hexit as [_ ->]].
  destruct (process_ok_view env p w w' Hinv Hhint)
    as (fp' & fl' & cf' & f & out & w1' & w2 & Hv).
  { by destruct Hexit as (? & ? & ? & ? & _ & _ & _ & _ & -> & _). }
  cbv zeta in Hv.
  destruct Hv as (Hfp' & Hfl' & Hres' & _ & _ & _ & _ & _ & _
    & Hd2 & _ & _ & _ & ->).
  rewrite Hfp in Hfp'. injection Hfp' as <-.
  rewrite Hfl in Hfl'. injection Hfl' as <-.
  rewrite Hres in Hres'. injection Hres' as <- <-.
  simpl in *. rewrite Hd2. done.
Qed.

(** X13.  A call touches no flow but the packet's own, and of that flow
    only the queue of buffered packets and its counter. *)
Theorem other_flows_untouched env p w r w' :
  reachable w → AlertPcapLogProcess env p w = Some (r, w') →
  ∃ fp fl cnt pkts,
    flow p = Some fp ∧ flows w !! fp = Some fl ∧
    flows w' !! fp = Some (with_tm cnt pkts fl) ∧
    ∀ fp', fp' ≠ fp → flows w' !! fp' = flows w !! fp'.
Proof.
  intros [Hinv Hhint]%reachable_inv Hrun.
  destruct (process_inversion _ _ _ _ _ Hrun)
    as (fp & fl & found & w1 & Hfp & Hfl & Hres & Hexit).
  assert (Hinv0 : cache_inv (locked fp w)) by by do 2 apply emit_inv.
  assert (Hhint0 : hint_inv (locked fp w)) by by do 2 apply emit_hint.
  destruct (resolve_or_create_post _ _ _ _ _ _ _ Hinv0 Hhint0 Hres)
    as (_ & _ & Hfl1 & _).
  simpl in Hfl1.
  destruct found as [cf|].
  - destruct Hexit as (f & out & w2 & w3 & Hf & Hout & Hdrain & Hev & -> & ->).
    destruct (drain_flows _ _ _ _ _ Hdrain) as (cnt & pkts & Hfl2).
    destruct (written_inv _ _ _ _ _ _ _ _ _ _ Hinv Hhint Hres Hf Hdrain)
      as [Hinv3 _].
    destruct (evict_idle_returns _ _ _ Hinv3 Hev) as [-> _].
    exists fp, fl, cnt, pkts. simpl.
    rewrite Hfl2, Hfl1. split_and!; try done.
    + apply lookup_insert_eq.
    + intros fp' Hne. by apply lookup_insert_ne.
  - destruct Hexit as [-> ->].
    exists fp, fl, (tm_pkt_cnt fl), (tm_pkts fl). simpl. rewrite Hfl1.
    split_and!; try done. rewrite Hfl. by destruct fl.
Qed.

(** X14.  A call changes no file but the flow's own: every element still
    linked after the call whose name is not that of the packet's flow was
    linked before it, and its block is as it was. *)
Theorem other_files_untouched env p w fp fl r w' :
  reachable w → flow p = Some fp → flows w !! fp = Some fl →
  AlertPcapLogProcess env p w = Some (r, w') →
  ∀ a f, a ∈ entries w' → files w' !! a = Some f →
         filename f ≠ (flow_names (directory (apl_data w)) fl).2 →
         a ∈ entries w ∧ files w !! a = Some f.
Proof.
  intros [Hinv Hhint]%reachable_inv Hfp Hfl Hrun a fa Ha Hfa Hne.
  assert (Hinv0 : cache_inv (locked fp w)) by by do 2 apply emit_inv.
  assert (Hhint0 : hint_inv (locked fp w)) by by do 2 apply emit_hint.
  set (fname := (flow_names (directory (apl_data w)) fl).2) in *.
  set (dir := (flow_names (directory (apl_data w)) fl).1) in *.
  destruct r.
  - destruct (process_ok_view _ _ _ _ Hinv Hhint Hrun)
      as (fp' & fl' & cf & f & out & w1 & w2 & Hv).
    cbv zeta in Hv.
    destruct Hv as (Hfp' & Hfl' & Hres & Hinv1 & Hf & Hname & Hout & Hwr
      & Hdrain & Hd2 & Hf2 & Hinvw & Hstop & ->).
    rewrite Hfp in Hfp'. injection Hfp' as <-.
    rewrite Hfl in Hfl'. injection Hfl' as <-.
    fold fname dir in Hres, Hname.
    destruct (resolve_or_create_queue _ _ _ _ _ _ _ Hinv0 Hhint0 Hres)
      as (_ & _ & l' & Hl' & _ & _ & Hold & _).
    destruct (resolve_or_create_spec env fname dir p (locked fp w) Hinv0 Hhint0)
      as (r' & w1' & Hres' & _ & _ & _ & Hkeep & _).
    rewrite Hres in Hres'. injection Hres' as <- <-.
    change (files (emit [EvUnlock apl_lock] (written env p fp cf f out w2)))
      with (files (written env p fp cf f out w2)) in Hfa.
    rewrite written_lookup in Hfa.
    destruct (decide (cf = a)) as [->|Hca].
    { injection Hfa as <-. simpl in Hne. congruence. }
    assert (Hin : a ∈ entries w).
    { apply Hold. unfold entries in Ha. simpl in Ha. rewrite Hd2 in Ha.
      fold (entries w1) in Ha. rewrite Hl' in Ha.
      apply elem_of_app in Ha as [?|?%list_elem_of_singleton]; [done|congruence]. }
    split; [done|].
    destruct (inv_live w Hinv a Hin) as (fa' & Hfa' & _).
    rewrite Hf2, (Hkeep a) in Hfa by (simpl; rewrite Hfa'; by eexists).
    done.
  - destruct (process_inversion _ _ _ _ _ Hrun)
      as (fp' & fl' & found & w1 & Hfp' & Hfl' & Hres & Hexit).
    destruct found as [cf|];
      [by destruct Hexit as (? & ? & ? & ? & _ & _ & _ & _ & ? & _)|].
    destruct Hexit as [_ ->].
    rewrite Hfp in Hfp'. injection Hfp' as <-.
    destruct (resolve_or_create_post _ _ _ _ _ _ _ Hinv0 Hhint0 Hres)
      as (_ & _ & _ & Hkeep & Hfound).
    destruct Hfound as [Hd _].
    unfold entries in Ha. simpl in Ha, Hfa. rewrite Hd in Ha.
    split; [done|].
    destruct (inv_live w Hinv a Ha) as (fa' & Hfa' & _).
    rewrite (Hkeep a) in Hfa by (simpl; rewrite Hfa'; by eexists).
    done.
Qed.

(** X15.  A counter that exceeds the queue makes the flush loop
    dereference the [NULL] head of the emptied queue: such a call never
    returns [TM_ECODE_OK]; either the creation of the file has failed
    before the loop, or the call does not return. *)
Theorem counter_beyond_queue env p w fp fl :
  reachable w → flow p = Some fp → flows w !! fp = Some fl →
  Z.of_nat (length (tm_pkts fl)) < tm_pkt_cnt fl →
  AlertPcapLogProcess env p w = None ∨
  ∃ w', AlertPcapLogProcess env p w = Some (TM_ECODE_FAILED, w') ∧
        creation_fails env.
Proof.
  intros [Hinv Hhint]%reachable_inv Hfp Hfl Hcnt.
  assert (Hinv0 : cache_inv (locked fp w)) by by do 2 apply emit_inv.
  assert (Hhint0 : hint_inv (locked fp w)) by by do 2 apply emit_hint.
  destruct (resolve_or_create_spec env
              (flow_names (directory (apl_data w)) fl).2
              (flow_names (directory (apl_data w)) fl).1 p (locked fp w)
              Hinv0 Hhint0)
    as (found & w1 & Hres & Hinv1 & _ & _ & _ & Hfound).
  destruct found as [cf|].
  - left. destruct Hfound as (Hlast & _ & f & Hf & _).
    destruct (inv_live w1 Hinv1 cf (last_Some_elem_of _ _ Hlast))
      as (f' & Hf' & _ & [out Hwr] & Hout).
    rewrite Hf in Hf'. injection Hf' as <-. rewrite Hwr in Hout.
    unfold AlertPcapLogProcess. rewrite Hfp. simpl. rewrite Hfl. simpl.
    destruct (flow_names (directory (apl_data w)) fl) as [dir fname].
    fold (locked fp w). simpl in Hres. rewrite Hres. simpl.
    rewrite Hf. simpl. rewrite Hout. simpl.
    unfold drain. by rewrite flush_tm_pkts_overrun.
  - right. eexists. split; [by apply (process_failed _ _ _ fp fl)|].
    apply (resolve_or_create_failure _ _ _ _ _ _ Hinv0 Hhint0 Hres).
Qed.

(** X16.  When the counter [n] of the flow does not exceed its queue, a
    successful call dumps the first [n] buffered packets, in queue order,
    then the packet itself, all to one stream; the packets beyond [n]
    stay queued and the counter is left at zero (a negative counter is
    left as it is). *)
Theorem flush_follows_counter env p w fp fl w' :
  reachable w → flow p = Some fp → flows w !! fp = Some fl →
  tm_pkt_cnt fl ≤ Z.of_nat (length (tm_pkts fl)) →
  AlertPcapLogProcess env p w = Some (TM_ECODE_OK, w') →
  ∃ out,
    dumps (new_events w w') =
      (tm_record out <$> take (Z.to_nat (tm_pkt_cnt fl)) (tm_pkts fl)) ++
      [(out, packet_header p, GET_PKT_DATA p)] ∧
    flows w' !! fp =
      Some (with_tm (Z.min (tm_pkt_cnt fl) 0)
              (drop (Z.to_nat (tm_pkt_cnt fl)) (tm_pkts fl)) fl).
Proof.
  intros [Hinv Hhint]%reachable_inv Hfp Hfl Hcnt Hrun.
  destruct (process_ok_view _ _ _ _ Hinv Hhint Hrun)
    as (fp' & fl' & cf & f & out & w1 & w2 & Hv).
  cbv zeta in Hv.
  destruct Hv as (Hfp' & Hfl' & Hres & Hinv1 & Hf & Hname & Hout & Hwr & Hdrain
    & Hd2 & Hf2 & Hinvw & Hstop & ->).
  rewrite Hfp in Hfp'. injection Hfp' as <-.
  rewrite Hfl in Hfl'. injection Hfl' as <-.
  assert (Hinv0 : cache_inv (locked fp w)) by by do 2 apply emit_inv.
  assert (Hhint0 : hint_inv (locked fp w)) by by do 2 apply emit_hint.
  destruct (resolve_or_create_trace _ _ _ _ _ _ _ Hinv0 Hhint0 Hres)
    as (evs & Htr1 & Hevs).
  revert Hdrain. unfold drain. rewrite flush_tm_pkts_prefix by done.
  simpl. intros [= <-]. exists out. split.
  - rewrite (new_events_app w _
      ([EvLock (FLOWLOCK fp); EvLock apl_lock] ++ evs ++
       [EvLock (tm_m fp)] ++
       ((λ packet, EvPcapDump out (header packet) (data packet))
          <$> take (Z.to_nat (tm_pkt_cnt fl)) (tm_pkts fl)) ++
       [EvUnlock (tm_m fp); EvUnlock (FLOWLOCK fp);
        EvPcapDump out (packet_header p) (GET_PKT_DATA p); EvFflush out;
        EvUnlock apl_lock])).
    + rewrite !dumps_app, dumps_of_flush, (dumps_creation evs Hevs). done.
    + simpl. rewrite Htr1. simpl.
      by repeat (rewrite <- !app_assoc; simpl).
  - simpl. by rewrite lookup_insert_eq.
Qed.

(** X17.  With a clock that does not run backwards, stopping the sweep
    at the first file below the threshold loses nothing.  If the time
    stamps of the linked files do not decrease along the queue and none
    is later than the time of the call, then after a call that returns
    [TM_ECODE_OK] they still do not decrease along the queue, none is
    later than the time of the call, and no linked file is idle. *)
Theorem monotone_clock_sweeps_all env p w w' :
  reachable w → stamps_sorted w → stamps_before (env_TimeGet env) w →
  AlertPcapLogProcess env p w = Some (TM_ECODE_OK, w') →
  stamps_sorted w' ∧ stamps_before (env_TimeGet env) w' ∧
  ∀ a f, a ∈ entries w' → files w' !! a = Some f →
         tv_sec (env_TimeGet env) - tv_sec (updated f)
           < timeout (apl_data w').
Proof.
  intros [Hinv Hhint]%reachable_inv Hsorted Hbefore Hrun.
  destruct (process_ok_view _ _ _ _ Hinv Hhint Hrun)
    as (fp & fl & cf & f & out & w1 & w2 & Hv).
  cbv zeta in Hv.
  destruct Hv as (Hfp & Hfl & Hres & Hinv1 & Hf & Hname & Hout & Hwr & Hdrain
    & Hd2 & Hf2 & Hinvw & Hstop & ->).
  assert (Hinv0 : cache_inv (locked fp w)) by by do 2 apply emit_inv.
  assert (Hhint0 : hint_inv (locked fp w)) by by do 2 apply emit_hint.
  destruct (resolve_or_create_queue _ _ _ _ _ _ _ Hinv0 Hhint0 Hres)
    as (_ & _ & l' & Hl' & Hsub & Hnot & Hold & _).
  destruct (resolve_or_create_post _ _ _ _ _ _ _ Hinv0 Hhint0 Hres)
    as (_ & _ & _ & Hkeep & _).
  set (now := env_TimeGet env) in *.
  set (ww := written env p fp cf f out w2) in *.
  assert (Hww : entries ww = l' ++ [cf]).
  { unfold entries in *. simpl. by rewrite Hd2. }
  (* the blocks of the elements before [cf] are those of [w] *)
  assert (Hsame : ∀ a, a ∈ l' → files ww !! a = files w !! a).
  { intros a Ha. unfold ww. rewrite written_lookup.
    destruct (decide (cf = a)) as [->|_]; [done|].
    destruct (inv_live w Hinv a (Hold a Ha)) as (fa & Hfa & _).
    rewrite Hf2. apply (Hkeep a). simpl. rewrite Hfa. by eexists. }
  assert (Hcf : files ww !! cf = Some (with_updated now f)).
  { unfold ww. by rewrite written_lookup, decide_True. }
  assert (Hbefore' : ∀ a fa, a ∈ entries ww → files ww !! a = Some fa →
                     tv_sec (updated fa) ≤ tv_sec now).
  { intros a fa Ha Hfa. rewrite Hww in Ha.
    apply elem_of_app in Ha as [Ha|Ha];
      [|apply list_elem_of_singleton in Ha; subst a].
    - rewrite Hsame in Hfa by done. by apply (Hbefore a fa (Hold a Ha)).
    - rewrite Hcf in Hfa. injection Hfa as <-. simpl. lia. }
  assert (Hsorted' : StronglySorted (stamp_le ww) (entries ww)).
  { rewrite Hww. apply StronglySorted_app_2.
    - intros a b Ha Hb fa fb Hfa Hfb.
      apply list_elem_of_singleton in Hb. subst b.
      rewrite Hcf in Hfb. injection Hfb as <-. simpl.
      apply (Hbefore' a fa); [|done]. rewrite Hww. apply elem_of_app. by left.
    - apply (StronglySorted_impl_in (stamp_le w)).
      + intros a b Ha Hb Hab fa fb. rewrite !Hsame by done. apply Hab.
      + by apply (StronglySorted_sublist _ l' (entries w)).
    - repeat constructor. }
  (* the sweep has stopped at the head of the queue *)
  change (stamps_sorted ww ∧ stamps_before now ww ∧
          ∀ a fa, a ∈ entries ww → files ww !! a = Some fa →
                  tv_sec now - tv_sec (updated fa) < timeout (apl_data ww)).
  split_and!; [done|done|].
  intros a fa Ha Hfa.
  destruct (entries ww) as [|h rest] eqn:He; [by apply elem_of_nil in Ha|].
  destruct (inv_live ww Hinvw h) as (fh & Hfh & _); [rewrite He; by left|].
  pose proof (Hstop h fh eq_refl Hfh) as Hh. unfold idle in Hh.
  assert (Hle : tv_sec (updated fh) ≤ tv_sec (updated fa)).
  { apply elem_of_cons in Ha as [->|Ha].
    - rewrite Hfh in Hfa. injection Hfa as <-. lia.
    - apply StronglySorted_cons in Hsorted' as [Hall _].
      by apply (proj1 (Forall_forall _ _) Hall a Ha fh fa). }
  lia.
Qed.

(** ** Teardown *)

Lemma deinit_step_view (w : World) (cf : addr) (rest : list addr) :
  cache_inv w → entries w = cf :: rest →
  ∃ f w1, files w !! cf = Some f ∧ deinit_step w = Some w1 ∧
          entries w1 = rest ∧ trace w1 = trace w ++ AlertPcapFileClose f ∧
          files w1 = delete cf (files w) ∧ flows w1 = flows w ∧
          directory (apl_data w1) = directory (apl_data w) ∧
          timeout (apl_data w1) = timeout (apl_data w).
Proof.
  intros Hinv He.
  destruct (inv_live w Hinv cf) as (f & Hf & _); [rewrite He; by left|].
  exists f. eexists. split; [done|].
  unfold deinit_step, TAILQ_FIRST. unfold entries in He. rewrite He.
  simpl. rewrite Hf. simpl. split; [done|]. split_and!; try done.
  unfold entries. simpl. rewrite He. apply TAILQ_REMOVE_head.
  pose proof (inv_nodup w Hinv) as Hnd. unfold entries in Hnd.
  rewrite He in Hnd. by apply NoDup_cons in Hnd as [? _].
Qed.

Lemma deinit_loop_run (fuel : nat) :
  ∀ w, cache_inv w → Z.of_nat (length (entries w)) < 2 ^ 32 →
       (length (entries w) ≤ fuel)%nat →
  ∃ w', deinit_loop fuel w = Some w' ∧ entries w' = [] ∧
        pcap_file_count (apl_data w') = 0 ∧
        trace w' = trace w ++ close_events (files w) (entries w) ∧
        files w' = foldr delete (files w) (entries w) ∧
        flows w' = flows w ∧
        directory (apl_data w') = directory (apl_data w) ∧
        timeout (apl_data w') = timeout (apl_data w).
Proof.
  induction fuel as [|fuel IH]; intros w Hinv Hfit Hfuel.
  - assert (Hnil : entries w = []) by (apply nil_length_inv; lia).
    assert (Hc : pcap_file_count (apl_data w) = 0)
      by by rewrite (inv_count w Hinv), Hnil.
    exists w. simpl. rewrite Hc, Hnil. simpl. by rewrite app_nil_r.
  - assert (Hc : pcap_file_count (apl_data w) = Z.of_nat (length (entries w))).
    { rewrite (inv_count w Hinv). apply wrap32_small. lia. }
    simpl. destruct (Z.ltb_spec 0 (pcap_file_count (apl_data w))) as [Hpos|Hle].
    + destruct (entries w) as [|cf rest] eqn:He; [simpl in Hc; lia|].
      destruct (deinit_step_view w cf rest Hinv He)
        as (f & w1 & Hf & Hstep & He1 & Htr1 & Hf1 & Hfl1 & Hd1 & Ht1).
      rewrite Hstep. simpl.
      pose proof (deinit_step_inv w w1 Hinv Hstep) as Hinv1.
      destruct (IH w1 Hinv1) as (w' & Hrun & Hnil & Hz & Htr & Hfs & Hfl & Hd & Ht);
        [rewrite He1; simpl in *; lia..|].
      exists w'. split_and!; try done; try congruence.
      * rewrite Htr, Htr1, He1, Hf1, Hf, <- app_assoc. f_equal. f_equal.
        apply close_events_delete.
        pose proof (inv_nodup w Hinv) as Hnd. rewrite He in Hnd.
        by apply NoDup_cons in Hnd as [? _].
      * rewrite Hfs, He1, Hf1. apply foldr_delete_comm.
    + exists w. split; [done|].
      assert (Hnil : entries w = []) by (apply nil_length_inv; lia).
      rewrite Hc, Hnil. simpl. by rewrite app_nil_r.
Qed.

Lemma closes_close_events_all (fs : gmap addr AlertPcapFile)
    (gone : list addr) :
  closes (close_events fs gone) =
  omap (λ a, f ← fs !! a; pcap_writer f) gone.
Proof.
  induction gone as [|a gone IH]; [done|].
  change (close_events fs (a :: gone))
    with (match fs !! a with Some f => AlertPcapFileClose f | None => [] end
          ++ close_events fs gone).
  rewrite closes_app, IH. simpl.
  destruct (fs !! a) as [f|]; [|done]. simpl. unfold AlertPcapFileClose.
  by destruct (pcap_writer f), (pcap_file f).
Qed.

(** X18.  Teardown of a cache whose queue length fits the 32-bit counter
    ends with an empty queue and a counter of zero.  Its events are the
    closing of the linked files, from the head of the queue to its tail,
    each writer closed once; the blocks of the linked files are freed,
    and every other block, such as one left behind by a failed creation,
    is not. *)
Theorem teardown_closes_linked (w : World) :
  reachable w → Z.of_nat (length (entries w)) < 2 ^ 32 →
  ∃ w', AlertPcapLogDeInitCtx w = Some w' ∧
        entries w' = [] ∧ pcap_file_count (apl_data w') = 0 ∧
        new_events w w' = close_events (files w) (entries w) ∧
        closes (new_events w w') =
          omap (λ a, f ← files w !! a; pcap_writer f) (entries w) ∧
        (∀ a, a ∈ entries w → files w' !! a = None) ∧
        (∀ a, a ∉ entries w → files w' !! a = files w !! a).
Proof.
  intros [Hinv _]%reachable_inv Hfit.
  destruct (deinit_loop_run (length (entries w)) w Hinv Hfit (le_n _))
    as (w' & Hrun & Hnil & Hz & Htr & Hfs & _).
  exists w'.
  assert (Hnew : new_events w w' = close_events (files w) (entries w)).
  { unfold new_events. rewrite Htr. by rewrite drop_app_length. }
  split_and!; try done.
  - rewrite Hnew. apply closes_close_events_all.
  - intros a Ha. rewrite Hfs. by apply lookup_foldr_delete.
  - intros a Ha. rewrite Hfs. by apply foldr_delete_kept.
Qed.

(** ** The order of the queue *)

(** X20.  A lookup that ends with a file moves it to the tail of the queue
    and keeps the other elements in their order: a file found is unlinked
    and linked again at the tail with the counter unchanged, a file
    created is linked at the tail and counted; either way it becomes the
    hint. *)
Theorem resolved_moves_to_tail env fname dir p w cf w' :
  reachable w →
  resolve_or_create env fname dir p w = Some (Some cf, w') →
  entries w' = TAILQ_REMOVE (entries w) cf ++ [cf] ∧
  current_file (apl_data w') = Some cf ∧
  (cf ∈ entries w →
   pcap_file_count (apl_data w') = pcap_file_count (apl_data w)) ∧
  (cf ∉ entries w →
   entries w' = entries w ++ [cf] ∧
   pcap_file_count (apl_data w')
     = wrap32 (pcap_file_count (apl_data w) + 1)).
Proof.
  intros [Hinv Hhint]%reachable_inv Hres.
  pose proof (inv_nodup w Hinv) as Hnd.
  destruct (resolve_or_create_cases env fname dir p w Hinv Hhint)
    as [(c & f & Hcur & Hf & Hname & Hlast & Heq)
       |[(c & f & Hin & Hf & Hname & Heq)|[Hmiss Heq]]];
    rewrite Heq in Hres.
  - injection Hres as -> <-.
    apply last_Some in Hlast as [l' Hl'].
    assert (Hnot : cf ∉ l') by (apply NoDup_snoc_not_in; by rewrite <- Hl').
    assert (Hin : cf ∈ entries w)
      by (rewrite Hl'; apply elem_of_app; right; by left).
    split_and!; [|done|done|done].
    rewrite Hl'. unfold TAILQ_REMOVE.
    rewrite filter_app, filter_cons_False, filter_nil, app_nil_r by naive_solver.
    f_equal. symmetry. by apply TAILQ_REMOVE_absent.
  - injection Hres as -> <-. by split_and!.
  - destruct (AlertPcapFileNew env fname dir p w) as [[c|] w1] eqn:Hnew;
      [|done].
    injection Hres as -> <-.
    destruct (AlertPcapFileNew_fields _ _ _ _ _ _ _ Hnew)
      as (Hfresh & _ & Hapl & _).
    assert (Hnot : cf ∉ entries w).
    { intros Hin. destruct (inv_live w Hinv cf Hin) as (f & Hf & _).
      by rewrite Hfresh in Hf. }
    unfold entries in *. simpl. rewrite Hapl.
    rewrite (TAILQ_REMOVE_absent _ _ Hnot). by split_and!.
Qed.

End Calls.

(** * The properties on the sample run *)

#[local] Existing Instance Sample.ext.

(** ** The sample run, step by step

    The first packet of [F] creates its file and writes the three buffered
    packets and the packet itself; the second packet of [F] reuses the
    file; a packet of [G] at time 301 finds the file of [F], idle since
    time 0, at the head of the queue, and its sweep reads the block it
    has freed; a failed creation leaves the cache empty. *)
Example first_packet_of_F :
  (λ w, (pcap_file_count (apl_data w), length (entries w),
         length (dumps (trace w)), opens (trace w))) Sample.w1
  = (1, 1%nat, 4%nat, [Sample.nameF]).
Proof. vm_compute. reflexivity. Qed.

Example second_packet_of_F :
  (λ w, (pcap_file_count (apl_data w), length (entries w),
         length (dumps (trace w)), opens (trace w)))
    (Sample.after Sample.envF1 Sample.pF1 Sample.w1)
  = (1, 1%nat, 5%nat, [Sample.nameF]).
Proof. vm_compute. reflexivity. Qed.

Example packet_of_G_after_timeout :
  AlertPcapLogProcess (Sample.env_ok 301 20%positive)
    (Sample.pkt Sample.fG 301) Sample.w1 = None.
Proof. vm_compute. reflexivity. Qed.

Example failed_creation :
  (λ r, match r with
        | Some (e, w) => Some (e, pcap_file_count (apl_data w), entries w)
        | None => None
        end)
    (AlertPcapLogProcess (Sample.env_eacces 0) Sample.pF0 Sample.w0)
  = Some (TM_ECODE_FAILED, 0, []).
Proof. vm_compute. reflexivity. Qed.

(** The states of the sample run are reachable. *)
Lemma sample_w0_reachable : reachable Sample.w0.
Proof.
  apply (reach_init true true (Some Sample.conf_default)).
  vm_compute. reflexivity.
Defined.

Lemma sample_w1_reachable : reachable Sample.w1.
Proof.
  apply (reach_process Sample.envF0 Sample.pF0
           Sample.w0 TM_ECODE_OK); [apply sample_w0_reachable|].
  vm_compute. reflexivity.
Defined.

Lemma sample_w2_reachable : reachable Sample.w2.
Proof.
  apply (reach_process Sample.envG250 Sample.pG250 Sample.w1 TM_ECODE_OK);
    [apply sample_w1_reachable|].
  vm_compute. reflexivity.
Defined.

Lemma sample_w2_before_sweep_reachable : reachable Sample.w2_before_sweep.
Proof.
  apply (reach_write Sample.envG300 Sample.pG300 Sample.w2 Sample.fG Sample.G
           Sample.cfG Sample.w2_resolved Sample.fileG Sample.outG
           Sample.w2_drained);
    [apply sample_w2_reachable|..]; vm_compute; reflexivity.
Defined.

(** ** Instances of the theorems, and the two counterexamples *)

(** C1 at the first packet of [F]. *)
Lemma flush_precedes_packet_witness :
  reachable Sample.w0 ∧ flow Sample.pF0 = Some Sample.fF ∧
  flows Sample.w0 !! Sample.fF = Some Sample.F ∧
  tm_pkt_cnt Sample.F = Z.of_nat (length (tm_pkts Sample.F)) ∧
  quiet (env_TimeGet Sample.envF0) Sample.w0 ∧
  (∃ r w', AlertPcapLogProcess Sample.envF0 Sample.pF0 Sample.w0
             = Some (r, w')) ∧
  ∀ r w', AlertPcapLogProcess Sample.envF0 Sample.pF0 Sample.w0
            = Some (r, w') →
    (r = TM_ECODE_FAILED → creation_fails Sample.envF0) ∧
    (r = TM_ECODE_OK →
     ∃ cf w1 f out,
       resolve_or_create Sample.envF0
         (flow_names (directory (apl_data Sample.w0)) Sample.F).2
         (flow_names (directory (apl_data Sample.w0)) Sample.F).1
         Sample.pF0 (locked Sample.fF Sample.w0)
         = Some (Some cf, w1) ∧
       files w1 !! cf = Some f ∧ output_file f = Some out ∧
       dumps (new_events Sample.w0 w') =
         (tm_record out <$> tm_pkts Sample.F) ++
         [(out, packet_header Sample.pF0,
           GET_PKT_DATA Sample.pF0)] ∧
       flows w' !! Sample.fF = Some (with_tm 0 [] Sample.F)).
Proof.
  assert (Hr : reachable Sample.w0) by apply sample_w0_reachable.
  assert (Hfl : flows Sample.w0 !! Sample.fF = Some Sample.F)
    by (vm_compute; reflexivity).
  assert (Hquiet : quiet (env_TimeGet Sample.envF0) Sample.w0).
  { split; [simpl; lia|]. intros a f Ha. by apply elem_of_nil in Ha. }
  split_and!; [done|reflexivity|done|reflexivity|done|..].
  - apply (flush_precedes_packet Sample.envF0 Sample.pF0
             Sample.w0 Sample.fF Sample.F Hr eq_refl Hfl eq_refl), Hquiet.
  - apply (flush_precedes_packet Sample.envF0 Sample.pF0
             Sample.w0 Sample.fF Sample.F Hr eq_refl Hfl eq_refl).
Defined.

(** C1, counterexample.  The file of [F] is open and is the hint; [F] has
    one buffered packet again.  The next call for [F] opens no file and
    still dumps two records: the buffered packet and the packet itself. *)
Lemma drain_not_tied_to_creation :
  reachable Sample.w1_refilled ∧
  ¬ drain_only_after_creation Sample.envF1 Sample.pF1
      Sample.w1_refilled.
Proof.
  split; [apply reach_flows, sample_w1_reachable|].
  intros Hc.
  specialize (Hc (Sample.after Sample.envF1 Sample.pF1
                    Sample.w1_refilled)).
  assert (Hlen : length (dumps (new_events Sample.w1_refilled
            (Sample.after Sample.envF1 Sample.pF1
               Sample.w1_refilled))) = 2%nat) by (vm_compute; reflexivity).
  rewrite Hc in Hlen; [discriminate| |]; vm_compute; reflexivity.
Qed.

(** C2 at the lookup of the first packet of [F], in the empty cache. *)
Lemma resolved_is_tail_witness :
  reachable (locked Sample.fF Sample.w0) ∧
  resolve_or_create Sample.envF0 Sample.nameF Sample.dirF Sample.pF0
    (locked Sample.fF Sample.w0)
    = Some (Some 1%positive, Sample.w0_resolved) ∧
  last (entries Sample.w0_resolved) = Some 1%positive ∧
  (∃ f, files Sample.w0_resolved !! 1%positive = Some f ∧
        filename f = Sample.nameF) ∧
  ∀ env' dir' p',
    resolve_or_create env' Sample.nameF dir' p' Sample.w0_resolved
      = Some (Some 1%positive, Sample.w0_resolved).
Proof.
  assert (Hr : reachable (locked Sample.fF Sample.w0))
    by apply reach_lock, sample_w0_reachable.
  assert (Hres : resolve_or_create Sample.envF0 Sample.nameF Sample.dirF
                   Sample.pF0 (locked Sample.fF Sample.w0)
                 = Some (Some 1%positive, Sample.w0_resolved))
    by (vm_compute; reflexivity).
  split; [done|]. split; [done|].
  apply (resolved_is_tail Sample.envF0 Sample.nameF Sample.dirF Sample.pF0
           (locked Sample.fF Sample.w0) 1%positive Sample.w0_resolved Hr Hres).
Defined.

(** C3 at the sweep of the second packet of [G], at time 300: the file of
    [F], last written at 0, is the head of the queue and is idle; that of
    [G] has just been written. *)
Lemma evict_idle_sweep_witness :
  reachable Sample.w2_before_sweep ∧
  head (entries Sample.w2_before_sweep) = Some Sample.cfF ∧
  files Sample.w2_before_sweep !! Sample.cfF = Some Sample.fileF_idle ∧
  idle (Sample.tv 300) Sample.w2_before_sweep Sample.fileF_idle ∧
  evict_idle (Sample.tv 300) Sample.w2_before_sweep = None.
Proof.
  assert (Hhd : head (entries Sample.w2_before_sweep) = Some Sample.cfF)
    by (vm_compute; reflexivity).
  assert (Hf : files Sample.w2_before_sweep !! Sample.cfF
               = Some Sample.fileF_idle) by (vm_compute; reflexivity).
  assert (Hidle : idle (Sample.tv 300) Sample.w2_before_sweep
                    Sample.fileF_idle) by (vm_compute; discriminate).
  split; [apply sample_w2_before_sweep_reachable|].
  do 3 (split; [done|]).
  apply (proj1 (evict_idle_sweep (Sample.tv 300) Sample.w2_before_sweep
                  sample_w2_before_sweep_reachable)
           Sample.cfF Sample.fileF_idle Hhd Hf Hidle).
Defined.

(** C4 at the same sweep: the turn that removes the file of [F]. *)
Lemma evict_idle_hint_witness :
  reachable Sample.w2_before_sweep ∧
  TAILQ_FIRST (pcap_files (apl_data Sample.w2_before_sweep))
    = Some Sample.cfF ∧
  files Sample.w2_before_sweep !! Sample.cfF = Some Sample.fileF_idle ∧
  idle (Sample.tv 300) Sample.w2_before_sweep Sample.fileF_idle ∧
  current_file (apl_data Sample.w2_turn) = None ∧
  (Sample.cfF ∉ entries Sample.w2_turn) ∧
  ∀ a, a ∈ entries Sample.w2_before_sweep → a ≠ Sample.cfF →
       a ∈ entries Sample.w2_turn.
Proof.
  assert (Hhd : TAILQ_FIRST (pcap_files (apl_data Sample.w2_before_sweep))
                = Some Sample.cfF) by (vm_compute; reflexivity).
  assert (Hf : files Sample.w2_before_sweep !! Sample.cfF
               = Some Sample.fileF_idle) by (vm_compute; reflexivity).
  assert (Hidle : idle (Sample.tv 300) Sample.w2_before_sweep
                    Sample.fileF_idle) by (vm_compute; discriminate).
  split; [apply sample_w2_before_sweep_reachable|].
  do 3 (split; [done|]).
  apply (proj2 (evict_idle_hint (Sample.tv 300) Sample.w2_before_sweep
                  sample_w2_before_sweep_reachable)
           Sample.cfF Sample.fileF_idle Hhd Hf Hidle).
Defined.

(** C4, counterexample.  A second packet of [G] arrives at time 300.  When
    its sweep starts the queue holds the file of [F], idle since time 0,
    then the file of [G], which is the hint and has just been written.
    The first turn of the sweep removes the file of [F]; the file of [G]
    stays linked, and the hint is cleared. *)
Lemma hint_cleared_by_other_eviction :
  reachable Sample.w2_before_sweep ∧
  ¬ hint_kept_unless_evicted (Sample.tv 300) Sample.w2_before_sweep.
Proof.
  split; [apply sample_w2_before_sweep_reachable|].
  intros Hc.
  specialize (Hc Sample.cfF Sample.fileF_idle Sample.cfG).
  assert (Hnone : current_file (apl_data (evict_entry Sample.cfF
            Sample.fileF_idle Sample.w2_before_sweep)) = None)
    by reflexivity.
  rewrite Hc in Hnone; [discriminate| | | | |].
  - vm_compute. reflexivity.
  - vm_compute. reflexivity.
  - vm_compute. discriminate.
  - vm_compute. reflexivity.
  - vm_compute. apply list_elem_of_here.
Qed.

(** C5 at the first packet of [F] when the directory cannot be made. *)
Lemma creation_failure_leaves_cache_witness :
  reachable Sample.w0 ∧ flow Sample.pF0 = Some Sample.fF ∧
  flows Sample.w0 !! Sample.fF = Some Sample.F ∧
  (∀ a f, a ∈ entries Sample.w0 → files Sample.w0 !! a = Some f →
          filename f ≠ (flow_names (directory (apl_data Sample.w0)) Sample.F).2) ∧
  creation_fails (Sample.env_eacces 0) ∧
  ∃ w', AlertPcapLogProcess (Sample.env_eacces 0) Sample.pF0 Sample.w0
          = Some (TM_ECODE_FAILED, w') ∧
    locks_held (new_events Sample.w0 w') = [] ∧
    apl_data w' = apl_data Sample.w0 ∧
    (∀ a, a ∈ entries Sample.w0 → files w' !! a = files Sample.w0 !! a) ∧
    flows w' = flows Sample.w0.
Proof.
  assert (Hr : reachable Sample.w0) by apply sample_w0_reachable.
  assert (Hfl : flows Sample.w0 !! Sample.fF = Some Sample.F)
    by (vm_compute; reflexivity).
  assert (Hmiss : ∀ a f, a ∈ entries Sample.w0 →
            files Sample.w0 !! a = Some f →
            filename f ≠ (flow_names (directory (apl_data Sample.w0)) Sample.F).2).
  { intros a f Ha. by apply elem_of_nil in Ha. }
  assert (Hfail : creation_fails (Sample.env_eacces 0)).
  { right. right. left. simpl. unfold EEXIST. lia. }
  split_and!; [done|reflexivity|done|done|done|].
  apply (creation_failure_leaves_cache (Sample.env_eacces 0) Sample.pF0
           Sample.w0 Sample.fF Sample.F Hr eq_refl Hfl Hmiss Hfail).
Defined.

(** C6 in [w2], where two files are open. *)
Lemma paths_unique_witness :
  reachable Sample.w2 ∧
  NoDup (entry_paths Sample.w2) ∧
  length (entry_paths Sample.w2) = length (entries Sample.w2) ∧
  ∀ env fname dir p r w' a,
    resolve_or_create env fname dir p Sample.w2 = Some (r, w') →
    a ∈ entries w' → a ∉ entries Sample.w2 →
    ∀ b f, b ∈ entries Sample.w2 → files Sample.w2 !! b = Some f →
           filename f ≠ fname.
Proof.
  split; [apply sample_w2_reachable|].
  apply (paths_unique Sample.w2 sample_w2_reachable).
Defined.

(** C7 after one turn of the teardown loop in [w2]. *)
Lemma count_is_length_witness :
  shutting_down Sample.w2_down ∧
  pcap_file_count (apl_data Sample.w2_down)
    = wrap32 (Z.of_nat (length (entries Sample.w2_down))) ∧
  (Z.of_nat (length (entries Sample.w2_down)) < 2 ^ 32 →
   pcap_file_count (apl_data Sample.w2_down)
     = Z.of_nat (length (entries Sample.w2_down))).
Proof.
  assert (Hs : shutting_down Sample.w2_down).
  { apply (down_step Sample.w2);
      [apply down_start, sample_w2_reachable| |]; vm_compute; reflexivity. }
  split; [done|]. apply (count_is_length Sample.w2_down Hs).
Defined.

(** C8 with the directory [/data/pcaps] configured. *)
Lemma init_directory_absolute_lost_witness :
  ConfNodeLookupChildValue Sample.conf_absolute "directory"
    = Some "/data/pcaps" ∧
  PathIsAbsolute "/data/pcaps" = true ∧
  AlertPcapLogInitCtx true true (Some Sample.conf_absolute)
    = Some Sample.apl_absolute ∧
  directory Sample.apl_absolute = "".
Proof.
  assert (Hs : ConfNodeLookupChildValue Sample.conf_absolute "directory"
                 = Some "/data/pcaps") by reflexivity.
  assert (Habs : PathIsAbsolute "/data/pcaps" = true) by reflexivity.
  assert (Hinit : AlertPcapLogInitCtx true true (Some Sample.conf_absolute)
                    = Some Sample.apl_absolute) by (vm_compute; reflexivity).
  split_and!; [done|done|done|].
  apply (init_directory_absolute_lost true true Sample.conf_absolute
           "/data/pcaps" Sample.apl_absolute Hs Habs Hinit).
Defined.

(** C10 in [w1], where the hint is the file of [F]. *)
Lemma hint_is_tail_witness :
  reachable Sample.w1 ∧
  (current_file (apl_data Sample.w1) = None ∨
   current_file (apl_data Sample.w1) = last (entries Sample.w1)) ∧
  ∀ env fname dir p cf f,
    current_file (apl_data Sample.w1) = Some cf →
    files Sample.w1 !! cf = Some f → filename f = fname →
    resolve_or_create env fname dir p Sample.w1 = Some (Some cf, Sample.w1) ∧
    last (entries Sample.w1) = Some cf.
Proof.
  split; [apply sample_w1_reachable|].
  apply (hint_is_tail Sample.w1 sample_w1_reachable).
Defined.

(** ** Instances of the further properties *)

Lemma sample_w0_null_reachable : reachable Sample.w0_null.
Proof.
  apply (reach_init true true None). vm_compute. reflexivity.
Defined.

(** X2 at the creation of the file of [F] in the empty cache. *)
Lemma AlertPcapFileNew_block_witness :
  AlertPcapFileNew Sample.envF0 Sample.nameF Sample.dirF Sample.pF0 Sample.w0
    = (Some 1%positive, Sample.created.2) ∧
  files Sample.w0 !! 1%positive = None ∧
  (∃ f, files Sample.created.2 = <[1%positive := f]> (files Sample.w0) ∧
        filename f = Sample.nameF ∧
        is_Some (pcap_file f) ∧
        pcap_file f = env_pcap_open_dead Sample.envF0 ∧
        is_Some (pcap_writer f) ∧
        pcap_writer f = env_pcap_dump_open Sample.envF0 ∧
        output_file f = pcap_writer f) ∧
  apl_data Sample.created.2 = apl_data Sample.w0 ∧
  flows Sample.created.2 = flows Sample.w0 ∧
  opens (new_events Sample.w0 Sample.created.2) = [Sample.nameF].
Proof.
  assert (Hnew : AlertPcapFileNew Sample.envF0 Sample.nameF Sample.dirF
                   Sample.pF0 Sample.w0 = (Some 1%positive, Sample.created.2))
    by (vm_compute; reflexivity).
  split; [done|].
  apply (AlertPcapFileNew_block Sample.envF0 Sample.nameF Sample.dirF
           Sample.pF0 Sample.w0 1%positive Sample.created.2 Hnew).
Defined.

(** X3 at the same creation when the directory cannot be made. *)
Lemma AlertPcapFileNew_leak_witness :
  is_Some (env_SCMalloc (Sample.env_eacces 0)) ∧
  AlertPcapFileNew (Sample.env_eacces 0) Sample.nameF Sample.dirF Sample.pF0
    Sample.w0 = (None, Sample.not_created.2) ∧
  files Sample.w0 !! fresh (dom (files Sample.w0)) = None ∧
  is_Some (files Sample.not_created.2 !! fresh (dom (files Sample.w0))) ∧
  size (files Sample.not_created.2) = S (size (files Sample.w0)) ∧
  (∀ a, is_Some (files Sample.w0 !! a) →
        files Sample.not_created.2 !! a = files Sample.w0 !! a) ∧
  apl_data Sample.not_created.2 = apl_data Sample.w0 ∧
  ((∀ a, a ∈ entries Sample.w0 → is_Some (files Sample.w0 !! a)) →
   fresh (dom (files Sample.w0)) ∉ entries Sample.not_created.2).
Proof.
  assert (Hm : is_Some (env_SCMalloc (Sample.env_eacces 0)))
    by (simpl; by eexists).
  assert (Hnew : AlertPcapFileNew (Sample.env_eacces 0) Sample.nameF
                   Sample.dirF Sample.pF0 Sample.w0
                 = (None, Sample.not_created.2))
    by (vm_compute; reflexivity).
  split; [done|]. split; [done|].
  apply (AlertPcapFileNew_leak (Sample.env_eacces 0) Sample.nameF Sample.dirF
           Sample.pF0 Sample.w0 Sample.not_created.2 Hm Hnew).
Defined.

(** X4 with no timeout configured. *)
Lemma init_timeout_range_witness :
  AlertPcapLogInitCtx true true (Some Sample.conf_default) = Some Sample.apl0 ∧
  1 ≤ timeout Sample.apl0 < 2 ^ 32 ∧
  (ConfNodeLookupChildValue Sample.conf_default "timeout" = None →
   timeout Sample.apl0 = DEFAULT_FILE_TIMEOUT) ∧
  (∀ s v, ConfNodeLookupChildValue Sample.conf_default "timeout" = Some s →
          ByteExtractStringUint32 s = Some v →
          timeout Sample.apl0 = wrap32 v).
Proof.
  assert (Hinit : AlertPcapLogInitCtx true true (Some Sample.conf_default)
                  = Some Sample.apl0) by (vm_compute; reflexivity).
  split; [done|].
  apply (init_timeout_range true true Sample.conf_default Sample.apl0 Hinit).
Defined.

(** X5 with a timeout of [0] configured. *)
Lemma init_rejects_timeout_witness :
  ConfNodeLookupChildValue (Sample.conf_timeout "0") "timeout" = Some "0" ∧
  (@ByteExtractStringUint32 Sample.ext_zero "0" = None ∨
   ∃ v, @ByteExtractStringUint32 Sample.ext_zero "0" = Some v ∧
        wrap32 v = 0) ∧
  @AlertPcapLogInitCtx Sample.ext_zero true true
    (Some (Sample.conf_timeout "0")) = None.
Proof.
  assert (Hs : ConfNodeLookupChildValue (Sample.conf_timeout "0") "timeout"
               = Some "0") by reflexivity.
  assert (Hv : @ByteExtractStringUint32 Sample.ext_zero "0" = None ∨
               ∃ v, @ByteExtractStringUint32 Sample.ext_zero "0" = Some v ∧
                    wrap32 v = 0).
  { right. exists 0. split; reflexivity. }
  split; [done|]. split; [done|].
  apply (@init_rejects_timeout Sample.ext_zero true true
           (Sample.conf_timeout "0") "0" Hs Hv).
Defined.

(** X6 with both allocations successful. *)
Lemma init_without_conf_witness :
  AlertPcapLogInitCtx true true None = Some Sample.apl_null ∧
  directory Sample.apl_null = "" ∧ timeout Sample.apl_null = 0 ∧
  pcap_files Sample.apl_null = [] ∧ pcap_file_count Sample.apl_null = 0 ∧
  current_file Sample.apl_null = None.
Proof.
  assert (Hinit : AlertPcapLogInitCtx true true None = Some Sample.apl_null)
    by (vm_compute; reflexivity).
  split; [done|].
  apply (init_without_conf true true Sample.apl_null Hinit).
Defined.

(** X8 at the first packet of [F]. *)
Lemma written_file_stays_witness :
  reachable Sample.w0 ∧ 0 < timeout (apl_data Sample.w0) ∧
  AlertPcapLogProcess Sample.envF0 Sample.pF0 Sample.w0
    = Some (TM_ECODE_OK, Sample.w1) ∧
  ∃ fp fl cf f,
    flow Sample.pF0 = Some fp ∧ flows Sample.w0 !! fp = Some fl ∧
    last (entries Sample.w1) = Some cf ∧ files Sample.w1 !! cf = Some f ∧
    filename f = (flow_names (directory (apl_data Sample.w0)) fl).2 ∧
    updated f = env_TimeGet Sample.envF0.
Proof.
  assert (Hto : 0 < timeout (apl_data Sample.w0)) by (simpl; lia).
  assert (Hrun : AlertPcapLogProcess Sample.envF0 Sample.pF0 Sample.w0
                 = Some (TM_ECODE_OK, Sample.w1)) by (vm_compute; reflexivity).
  split; [apply sample_w0_reachable|]. split; [done|]. split; [done|].
  apply (written_file_stays Sample.envF0 Sample.pF0 Sample.w0 Sample.w1
           sample_w0_reachable Hto Hrun).
Defined.

(** X9 at the first packet of [F] in the cache built without a
    configuration node. *)
Lemma zero_timeout_never_ok_witness :
  reachable Sample.w0_null ∧ timeout (apl_data Sample.w0_null) = 0 ∧
  (∀ a f, a ∈ entries Sample.w0_null → files Sample.w0_null !! a = Some f →
          tv_sec (updated f) ≤ tv_sec (env_TimeGet Sample.envF0)) ∧
  (AlertPcapLogProcess Sample.envF0 Sample.pF0 Sample.w0_null = None ∨
   ∃ w', AlertPcapLogProcess Sample.envF0 Sample.pF0 Sample.w0_null
           = Some (TM_ECODE_FAILED, w') ∧
         creation_fails Sample.envF0).
Proof.
  assert (Hto : timeout (apl_data Sample.w0_null) = 0) by reflexivity.
  assert (Hpast : ∀ a f, a ∈ entries Sample.w0_null →
            files Sample.w0_null !! a = Some f →
            tv_sec (updated f) ≤ tv_sec (env_TimeGet Sample.envF0)).
  { intros a f Ha. by apply elem_of_nil in Ha. }
  split; [apply sample_w0_null_reachable|]. split; [done|]. split; [done|].
  apply (zero_timeout_never_ok Sample.envF0 Sample.pF0 Sample.w0_null
           sample_w0_null_reachable Hto Hpast).
Defined.

(** X10 at the second packet of [F], whose file is open. *)
Lemma open_file_is_reused_witness :
  reachable Sample.w1 ∧ flow Sample.pF1 = Some Sample.fF ∧
  flows Sample.w1 !! Sample.fF = Some (with_tm 0 [] Sample.F) ∧
  1%positive ∈ entries Sample.w1 ∧
  files Sample.w1 !! 1%positive = Some Sample.fileF ∧
  filename Sample.fileF
    = (flow_names (directory (apl_data Sample.w1)) (with_tm 0 [] Sample.F)).2 ∧
  output_file Sample.fileF = Some Sample.outF ∧
  AlertPcapLogProcess Sample.envF1 Sample.pF1 Sample.w1
    = Some (TM_ECODE_OK, Sample.w1_again) ∧
  TM_ECODE_OK = TM_ECODE_OK ∧
  opens (new_events Sample.w1 Sample.w1_again) = [] ∧
  Forall (λ d, d.1.1 = Sample.outF)
    (dumps (new_events Sample.w1 Sample.w1_again)).
Proof.
  assert (Hfl : flows Sample.w1 !! Sample.fF = Some (with_tm 0 [] Sample.F))
    by (vm_compute; reflexivity).
  assert (Ha : 1%positive ∈ entries Sample.w1)
    by (vm_compute; apply list_elem_of_here).
  assert (Hf : files Sample.w1 !! 1%positive = Some Sample.fileF)
    by (vm_compute; reflexivity).
  assert (Hname : filename Sample.fileF
            = (flow_names (directory (apl_data Sample.w1))
                 (with_tm 0 [] Sample.F)).2) by (vm_compute; reflexivity).
  assert (Hout : output_file Sample.fileF = Some Sample.outF)
    by (vm_compute; reflexivity).
  assert (Hrun : AlertPcapLogProcess Sample.envF1 Sample.pF1 Sample.w1
                 = Some (TM_ECODE_OK, Sample.w1_again))
    by (vm_compute; reflexivity).
  split; [apply sample_w1_reachable|]. split; [reflexivity|].
  do 6 (split; [done|]).
  apply (open_file_is_reused Sample.envF1 Sample.pF1 Sample.w1 Sample.fF
           (with_tm 0 [] Sample.F) 1%positive Sample.fileF Sample.outF
           TM_ECODE_OK Sample.w1_again sample_w1_reachable eq_refl Hfl Ha Hf
           Hname Hout Hrun).
Defined.

(** X11 at the packet of [G], when only the file of [F] is open. *)
Lemma missing_file_is_opened_witness :
  reachable Sample.w1 ∧ flow Sample.pG250 = Some Sample.fG ∧
  flows Sample.w1 !! Sample.fG = Some Sample.G ∧
  (∀ a f, a ∈ entries Sample.w1 → files Sample.w1 !! a = Some f →
          filename f ≠ (flow_names (directory (apl_data Sample.w1)) Sample.G).2) ∧
  AlertPcapLogProcess Sample.envG250 Sample.pG250 Sample.w1
    = Some (TM_ECODE_OK, Sample.w2) ∧
  opens (new_events Sample.w1 Sample.w2)
    = [(flow_names (directory (apl_data Sample.w1)) Sample.G).2] ∧
  ∃ out, env_pcap_dump_open Sample.envG250 = Some out ∧
         Forall (λ d, d.1.1 = out) (dumps (new_events Sample.w1 Sample.w2)).
Proof.
  assert (Hfl : flows Sample.w1 !! Sample.fG = Some Sample.G)
    by (vm_compute; reflexivity).
  assert (Hmiss : ∀ a f, a ∈ entries Sample.w1 →
            files Sample.w1 !! a = Some f →
            filename f
              ≠ (flow_names (directory (apl_data Sample.w1)) Sample.G).2).
  { assert (He : entries Sample.w1 = [1%positive]) by (vm_compute; reflexivity).
    assert (Hf1 : files Sample.w1 !! 1%positive = Some Sample.fileF)
      by (vm_compute; reflexivity).
    intros a f Ha Hf. rewrite He in Ha. apply list_elem_of_singleton in Ha.
    subst a. injection (eq_trans (eq_sym Hf1) Hf) as <-.
    vm_compute. discriminate. }
  assert (Hrun : AlertPcapLogProcess Sample.envG250 Sample.pG250 Sample.w1
                 = Some (TM_ECODE_OK, Sample.w2)) by (vm_compute; reflexivity).
  split; [apply sample_w1_reachable|]. split; [reflexivity|].
  do 3 (split; [done|]).
  apply (missing_file_is_opened Sample.envG250 Sample.pG250 Sample.w1
           Sample.fG Sample.G Sample.w2 sample_w1_reachable eq_refl Hfl Hmiss
           Hrun).
Defined.

(** X12 at the first packet of [F]. *)
Lemma configuration_is_kept_witness :
  reachable Sample.w0 ∧
  AlertPcapLogProcess Sample.envF0 Sample.pF0 Sample.w0
    = Some (TM_ECODE_OK, Sample.w1) ∧
  directory (apl_data Sample.w1) = directory (apl_data Sample.w0) ∧
  timeout (apl_data Sample.w1) = timeout (apl_data Sample.w0).
Proof.
  assert (Hrun : AlertPcapLogProcess Sample.envF0 Sample.pF0 Sample.w0
                 = Some (TM_ECODE_OK, Sample.w1)) by (vm_compute; reflexivity).
  split; [apply sample_w0_reachable|]. split; [done|].
  apply (configuration_is_kept Sample.envF0 Sample.pF0 Sample.w0 TM_ECODE_OK
           Sample.w1 sample_w0_reachable Hrun).
Defined.

(** X13 at the first packet of [F]: the flow [G] is as it was. *)
Lemma other_flows_untouched_witness :
  reachable Sample.w0 ∧
  AlertPcapLogProcess Sample.envF0 Sample.pF0 Sample.w0
    = Some (TM_ECODE_OK, Sample.w1) ∧
  ∃ fp fl cnt pkts,
    flow Sample.pF0 = Some fp ∧ flows Sample.w0 !! fp = Some fl ∧
    flows Sample.w1 !! fp = Some (with_tm cnt pkts fl) ∧
    ∀ fp', fp' ≠ fp → flows Sample.w1 !! fp' = flows Sample.w0 !! fp'.
Proof.
  assert (Hrun : AlertPcapLogProcess Sample.envF0 Sample.pF0 Sample.w0
                 = Some (TM_ECODE_OK, Sample.w1)) by (vm_compute; reflexivity).
  split; [apply sample_w0_reachable|]. split; [done|].
  apply (other_flows_untouched Sample.envF0 Sample.pF0 Sample.w0 TM_ECODE_OK
           Sample.w1 sample_w0_reachable Hrun).
Defined.

(** X14 at the packet of [G] at time 250: the file of [F] is as it was. *)
Lemma other_files_untouched_witness :
  reachable Sample.w1 ∧ flow Sample.pG250 = Some Sample.fG ∧
  flows Sample.w1 !! Sample.fG = Some Sample.G ∧
  AlertPcapLogProcess Sample.envG250 Sample.pG250 Sample.w1
    = Some (TM_ECODE_OK, Sample.w2) ∧
  ∀ a f, a ∈ entries Sample.w2 → files Sample.w2 !! a = Some f →
         filename f ≠ (flow_names (directory (apl_data Sample.w1)) Sample.G).2 →
         a ∈ entries Sample.w1 ∧ files Sample.w1 !! a = Some f.
Proof.
  assert (Hfl : flows Sample.w1 !! Sample.fG = Some Sample.G)
    by (vm_compute; reflexivity).
  assert (Hrun : AlertPcapLogProcess Sample.envG250 Sample.pG250 Sample.w1
                 = Some (TM_ECODE_OK, Sample.w2)) by (vm_compute; reflexivity).
  split; [apply sample_w1_reachable|]. split; [reflexivity|].
  do 2 (split; [done|]).
  apply (other_files_untouched Sample.envG250 Sample.pG250 Sample.w1 Sample.fG
           Sample.G TM_ECODE_OK Sample.w2 sample_w1_reachable eq_refl Hfl Hrun).
Defined.

(** X15 for [F] with a counter of 2 and one buffered packet. *)
Lemma counter_beyond_queue_witness :
  reachable Sample.w0_over ∧ flow Sample.pF0 = Some Sample.fF ∧
  flows Sample.w0_over !! Sample.fF = Some Sample.F_over ∧
  Z.of_nat (length (tm_pkts Sample.F_over)) < tm_pkt_cnt Sample.F_over ∧
  (AlertPcapLogProcess Sample.envF0 Sample.pF0 Sample.w0_over = None ∨
   ∃ w', AlertPcapLogProcess Sample.envF0 Sample.pF0 Sample.w0_over
           = Some (TM_ECODE_FAILED, w') ∧
         creation_fails Sample.envF0).
Proof.
  assert (Hr : reachable Sample.w0_over)
    by apply reach_flows, sample_w0_reachable.
  assert (Hfl : flows Sample.w0_over !! Sample.fF = Some Sample.F_over)
    by (vm_compute; reflexivity).
  assert (Hcnt : Z.of_nat (length (tm_pkts Sample.F_over))
                 < tm_pkt_cnt Sample.F_over) by (simpl; lia).
  split; [done|]. split; [reflexivity|]. do 2 (split; [done|]).
  apply (counter_beyond_queue Sample.envF0 Sample.pF0 Sample.w0_over
           Sample.fF Sample.F_over Hr eq_refl Hfl Hcnt).
Defined.

(** X16 for [F] with a counter of 1 and two buffered packets, its file
    open. *)
Lemma flush_follows_counter_witness :
  reachable Sample.w1_part ∧ flow Sample.pF1 = Some Sample.fF ∧
  flows Sample.w1_part !! Sample.fF = Some Sample.F_part ∧
  tm_pkt_cnt Sample.F_part ≤ Z.of_nat (length (tm_pkts Sample.F_part)) ∧
  AlertPcapLogProcess Sample.envF1 Sample.pF1 Sample.w1_part
    = Some (TM_ECODE_OK, Sample.w1_part_after) ∧
  ∃ out,
    dumps (new_events Sample.w1_part Sample.w1_part_after) =
      (tm_record out <$> take (Z.to_nat (tm_pkt_cnt Sample.F_part))
                           (tm_pkts Sample.F_part)) ++
      [(out, packet_header Sample.pF1, GET_PKT_DATA Sample.pF1)] ∧
    flows Sample.w1_part_after !! Sample.fF =
      Some (with_tm (Z.min (tm_pkt_cnt Sample.F_part) 0)
              (drop (Z.to_nat (tm_pkt_cnt Sample.F_part))
                 (tm_pkts Sample.F_part)) Sample.F_part).
Proof.
  assert (Hr : reachable Sample.w1_part)
    by apply reach_flows, sample_w1_reachable.
  assert (Hfl : flows Sample.w1_part !! Sample.fF = Some Sample.F_part)
    by (vm_compute; reflexivity).
  assert (Hcnt : tm_pkt_cnt Sample.F_part
                 ≤ Z.of_nat (length (tm_pkts Sample.F_part))) by (simpl; lia).
  assert (Hrun : AlertPcapLogProcess Sample.envF1 Sample.pF1 Sample.w1_part
                 = Some (TM_ECODE_OK, Sample.w1_part_after))
    by (vm_compute; reflexivity).
  split; [done|]. split; [reflexivity|]. do 3 (split; [done|]).
  apply (flush_follows_counter Sample.envF1 Sample.pF1 Sample.w1_part
           Sample.fF Sample.F_part Sample.w1_part_after Hr eq_refl Hfl Hcnt
           Hrun).
Defined.

(** X17 at the packet of [G] at time 250, when the file of [F] carries
    the time stamp 0. *)
Lemma monotone_clock_sweeps_all_witness :
  reachable Sample.w1 ∧ stamps_sorted Sample.w1 ∧
  stamps_before (env_TimeGet Sample.envG250) Sample.w1 ∧
  AlertPcapLogProcess Sample.envG250 Sample.pG250 Sample.w1
    = Some (TM_ECODE_OK, Sample.w2) ∧
  stamps_sorted Sample.w2 ∧
  stamps_before (env_TimeGet Sample.envG250) Sample.w2 ∧
  ∀ a f, a ∈ entries Sample.w2 → files Sample.w2 !! a = Some f →
         tv_sec (env_TimeGet Sample.envG250) - tv_sec (updated f)
           < timeout (apl_data Sample.w2).
Proof.
  assert (He : entries Sample.w1 = [1%positive])
    by (vm_compute; reflexivity).
  assert (H1 : ∀ f, files Sample.w1 !! 1%positive = Some f →
                    tv_sec (updated f) = 0).
  { intros f Hf. vm_compute in Hf. by injection Hf as <-. }
  assert (Hsorted : stamps_sorted Sample.w1).
  { unfold stamps_sorted. rewrite He. repeat constructor. }
  assert (Hbefore : stamps_before (env_TimeGet Sample.envG250) Sample.w1).
  { intros a f Ha Hf. rewrite He in Ha.
    apply list_elem_of_singleton in Ha. subst a.
    rewrite (H1 f Hf). simpl. lia. }
  assert (Hrun : AlertPcapLogProcess Sample.envG250 Sample.pG250 Sample.w1
                 = Some (TM_ECODE_OK, Sample.w2)) by (vm_compute; reflexivity).
  split; [apply sample_w1_reachable|]. do 3 (split; [done|]).
  apply (monotone_clock_sweeps_all Sample.envG250 Sample.pG250 Sample.w1
           Sample.w2 sample_w1_reachable Hsorted Hbefore Hrun).
Defined.

(** X18 in [w2], where two files are open. *)
Lemma teardown_closes_linked_witness :
  reachable Sample.w2 ∧ Z.of_nat (length (entries Sample.w2)) < 2 ^ 32 ∧
  ∃ w', AlertPcapLogDeInitCtx Sample.w2 = Some w' ∧
        entries w' = [] ∧ pcap_file_count (apl_data w') = 0 ∧
        new_events Sample.w2 w'
          = close_events (files Sample.w2) (entries Sample.w2) ∧
        closes (new_events Sample.w2 w') =
          omap (λ a, f ← files Sample.w2 !! a; pcap_writer f)
            (entries Sample.w2) ∧
        (∀ a, a ∈ entries Sample.w2 → files w' !! a = None) ∧
        (∀ a, a ∉ entries Sample.w2 → files w' !! a = files Sample.w2 !! a).
Proof.
  assert (Hfit : Z.of_nat (length (entries Sample.w2)) < 2 ^ 32)
    by (vm_compute; reflexivity).
  split; [apply sample_w2_reachable|]. split; [done|].
  apply (teardown_closes_linked Sample.w2 sample_w2_reachable Hfit).
Defined.

(** X19 with a root directory of 4095 characters, for [F] and [G]. *)
Lemma long_root_one_file_witness :
  PATH_MAX - 1 ≤ strlen Sample.long_root ∧
  (flow_names Sample.long_root Sample.F).1
    = snprintf "" PATH_MAX Sample.long_root ∧
  (flow_names Sample.long_root Sample.F).2
    = snprintf "" PATH_MAX Sample.long_root ∧
  (flow_names Sample.long_root Sample.F).2
    = (flow_names Sample.long_root Sample.G).2.
Proof.
  assert (Hlong : PATH_MAX - 1 ≤ strlen Sample.long_root)
    by (apply Z.leb_le; vm_compute; reflexivity).
  split; [done|].
  apply (long_root_one_file Sample.long_root Sample.F Sample.G Hlong).
Defined.

(** X20 at the lookup of the file of [F] in [w2]: it is the head of the
    queue and becomes its tail. *)
Lemma resolved_moves_to_tail_witness :
  reachable (locked Sample.fF Sample.w2) ∧
  resolve_or_create Sample.envF1 Sample.nameF Sample.dirF Sample.pF1
    (locked Sample.fF Sample.w2)
    = Some (Some 1%positive, Sample.w2_promoted) ∧
  entries Sample.w2_promoted
    = TAILQ_REMOVE (entries (locked Sample.fF Sample.w2)) 1%positive
      ++ [1%positive] ∧
  current_file (apl_data Sample.w2_promoted) = Some 1%positive ∧
  (1%positive ∈ entries (locked Sample.fF Sample.w2) →
   pcap_file_count (apl_data Sample.w2_promoted)
     = pcap_file_count (apl_data (locked Sample.fF Sample.w2))) ∧
  (1%positive ∉ entries (locked Sample.fF Sample.w2) →
   entries Sample.w2_promoted
     = entries (locked Sample.fF Sample.w2) ++ [1%positive] ∧
   pcap_file_count (apl_data Sample.w2_promoted)
     = wrap32 (pcap_file_count (apl_data (locked Sample.fF Sample.w2)) + 1)).
Proof.
  assert (Hr : reachable (locked Sample.fF Sample.w2))
    by apply reach_lock, sample_w2_reachable.
  assert (Hres : resolve_or_create Sample.envF1 Sample.nameF Sample.dirF
                   Sample.pF1 (locked Sample.fF Sample.w2)
                 = Some (Some 1%positive, Sample.w2_promoted))
    by (vm_compute; reflexivity).
  split; [done|]. split; [done|].
  apply (resolved_moves_to_tail Sample.envF1 Sample.nameF Sample.dirF
           Sample.pF1 (locked Sample.fF Sample.w2) 1%positive
           Sample.w2_promoted Hr Hres).
Defined.

(** X22 at the first packet of [F]. *)
Lemma lock_order_witness :
  reachable Sample.w0 ∧
  AlertPcapLogProcess Sample.envF0 Sample.pF0 Sample.w0
    = Some (TM_ECODE_OK, Sample.w1) ∧
  ∃ fp, flow Sample.pF0 = Some fp ∧
    lock_events (new_events Sample.w0 Sample.w1) =
      [EvLock (FLOWLOCK fp); EvLock apl_lock; EvLock (tm_m fp);
       EvUnlock (tm_m fp); EvUnlock (FLOWLOCK fp); EvUnlock apl_lock].
Proof.
  assert (Hrun : AlertPcapLogProcess Sample.envF0 Sample.pF0 Sample.w0
                 = Some (TM_ECODE_OK, Sample.w1)) by (vm_compute; reflexivity).
  split; [apply sample_w0_reachable|]. split; [done|].
  apply (lock_order Sample.envF0 Sample.pF0 Sample.w0 TM_ECODE_OK Sample.w1
           sample_w0_reachable Hrun).
Defined.

(** X23 at the packet of [G] at time 250, when the file of [F], last
    written at 0, is open and not idle. *)
Lemma process_total_witness :
  reachable Sample.w1 ∧ flow Sample.pG250 = Some Sample.fG ∧
  flows Sample.w1 !! Sample.fG = Some Sample.G ∧
  tm_pkt_cnt Sample.G ≤ Z.of_nat (length (tm_pkts Sample.G)) ∧
  quiet (env_TimeGet Sample.envG250) Sample.w1 ∧
  is_Some (AlertPcapLogProcess Sample.envG250 Sample.pG250 Sample.w1).
Proof.
  assert (Hfl : flows Sample.w1 !! Sample.fG = Some Sample.G)
    by (vm_compute; reflexivity).
  assert (Hcnt : tm_pkt_cnt Sample.G ≤ Z.of_nat (length (tm_pkts Sample.G)))
    by (simpl; lia).
  assert (Hquiet : quiet (env_TimeGet Sample.envG250) Sample.w1).
  { assert (He : entries Sample.w1 = [1%positive])
      by (vm_compute; reflexivity).
    split; [vm_compute; reflexivity|].
    intros a f Ha Hf. rewrite He in Ha.
    apply list_elem_of_singleton in Ha. subst a.
    vm_compute in Hf. injection Hf as <-. vm_compute. by intros Hc. }
  split; [apply sample_w1_reachable|]. split; [reflexivity|].
  do 3 (split; [done|]).
  apply (process_total Sample.envG250 Sample.pG250 Sample.w1 Sample.fG
           Sample.G sample_w1_reachable eq_refl Hfl Hcnt Hquiet).
Defined.

(** X24 with no directory configured: the default name under the log
    directory. *)
Lemma init_directory_relative_witness :
  PathIsAbsolute DEFAULT_DIRECTORY_NAME = false ∧
  strlen (ConfigGetLogDirectory +:+ "/" +:+ DEFAULT_DIRECTORY_NAME)
    < PATH_MAX ∧
  AlertPcapLogInitCtx true true (Some Sample.conf_default)
    = Some Sample.apl0 ∧
  directory Sample.apl0
    = ConfigGetLogDirectory +:+ "/" +:+ DEFAULT_DIRECTORY_NAME.
Proof.
  assert (Hrel : PathIsAbsolute DEFAULT_DIRECTORY_NAME = false)
    by reflexivity.
  assert (Hfit : strlen (ConfigGetLogDirectory +:+ "/"
                           +:+ DEFAULT_DIRECTORY_NAME) < PATH_MAX)
    by (vm_compute; reflexivity).
  assert (Hinit : AlertPcapLogInitCtx true true (Some Sample.conf_default)
                  = Some Sample.apl0) by (vm_compute; reflexivity).
  do 3 (split; [done|]).
  apply (init_directory_relative true true Sample.conf_default Sample.apl0
           Hrel Hfit Hinit).
Defined.
